(** * Redlock: a shallow embedding of [src/index.ts] and [src/scripts.ts]

    The development follows the TypeScript source function by function.

    - A JavaScript [number] is a rational ([Q]).  Sums, differences and
      comparisons are exact: they are taken of clock readings, durations in
      milliseconds and rounded values, integers on which the arithmetic of
      doubles is exact.  The product of the drift is rounded to the nearest
      double ([binary64]).  The jitter of a sleep is computed exactly, where
      the source rounds to a double, and may differ from it by a millisecond:
      only its bounds are used.  [NaN] and the infinities are left out.
    - A model server keeps a key until it is deleted: the time to live of a
      key is checked and then dropped.  What is proved of live servers is
      stated where this makes no difference: at an explicit state of the
      keys, for a single attempt, inside the lease of the lock by the local
      clock, or of keys the lock does not hold.
    - Objects with identity are explicit: a client is named by a [nat]; [Lock]
      objects live in a heap and are passed by reference.
    - Everything outside the library is an environment [Env]: the clock, the
      random sources, what each server answers and in which order the answers
      of one attempt arrive.  The library's effects are state passing over a
      [World]: the heap of locks, the trace of remote commands and sleeps, and
      the errors emitted on the instance.
    - [async] functions return an [Outcome]: a value, a thrown error, a promise
      that never settles, an error escaping a promise callback, or the end of
      the fuel that bounds the retry loop. *)

From Stdlib Require Import QArith Qround Qabs Qpower Lqa.
From stdpp Require Import base option list strings gmap.

#[local] Set Warnings "-clear-no-such-hyp".

Local Open Scope Q_scope.

(** ** Numbers *)

Definition number : Type := Q.

Definition of_nat (n : nat) : number := inject_Z (Z.of_nat n).

(** [a === b] and [a !== b] on numbers. *)
Definition strict_eq (a b : number) : bool := Qeq_bool a b.
Definition strict_ne (a b : number) : bool := negb (Qeq_bool a b).

Definition lt (a b : number) : bool :=
  match a ?= b with Lt => true | _ => false end.

Definition Math_floor (x : number) : number := inject_Z (Qfloor x).

(** [Math.round]: the nearest integer, halves going up. *)
Definition Math_round (x : number) : number := inject_Z (Qfloor (x + (1 # 2))).

Definition Math_max (a b : number) : number := if lt a b then b else a.

Definition Number_isInteger (x : number) : bool := strict_eq (Math_floor x) x.

(** The integer nearest to [x], ties going to the even one. *)
Definition round_half_even (x : Q) : Z :=
  let n := Qfloor x in
  match Qcompare (x - inject_Z n) (1 # 2) with
  | Lt => n
  | Gt => (n + 1)%Z
  | Eq => if Z.even n then n else (n + 1)%Z
  end.

(** [floor (log2 |x|)], for [x] other than 0. *)
Definition exponent (x : Q) : Z :=
  let e := (Z.log2 (Z.abs (Qnum x)) - Z.log2 (Zpos (Qden x)))%Z in
  if Qle_bool (2 ^ e) (Qabs x) then e else (e - 1)%Z.

(** The double nearest to [x]: 53 significant bits, ties to even, the
    denormal numbers included.  A product [a * b] of the source is
    [binary64 (a * b)]: the exact product of two doubles, rounded.  The
    range of the exponent is bounded below only: a product beyond the
    largest double, [Infinity] in the source, is outside the model. *)
Definition binary64 (x : Q) : number :=
  if Qeq_bool x 0 then 0
  else
    let q := Z.max (exponent x - 52) (-1074) in
    Qred (inject_Z (round_half_even (x / 2 ^ q)) * 2 ^ q).

(** ** Settings *)

Record Settings : Type := mkSettings {
  driftFactor : number;
  retryCount : number;
  retryDelay : number;
  retryJitter : number;
  automaticExtensionThreshold : number;
  db : number
}.

(** [Partial<Settings>], also the constructor's [Settings] whose fields are
    all optional: [None] is an absent field. *)
Module Partial.
Record t : Type := mk {
  driftFactor : option number;
  retryCount : option number;
  retryDelay : option number;
  retryJitter : option number;
  automaticExtensionThreshold : option number;
  db : option number
}.

Definition empty : t := mk None None None None None None.

Definition with_db (d : option number) (s : t) : t :=
  mk (driftFactor s) (retryCount s) (retryDelay s) (retryJitter s)
     (automaticExtensionThreshold s) d.
End Partial.

Definition defaultSettings : Settings := {|
  driftFactor := binary64 (1 # 100);
  retryCount := 10;
  retryDelay := 200;
  retryJitter := 100;
  automaticExtensionThreshold := 500;
  db := 0
|}.

(** [{ ...base, ...over }] *)
Definition spread (base : Settings) (over : Partial.t) : Settings := {|
  driftFactor := default (driftFactor base) (Partial.driftFactor over);
  retryCount := default (retryCount base) (Partial.retryCount over);
  retryDelay := default (retryDelay base) (Partial.retryDelay over);
  retryJitter := default (retryJitter base) (Partial.retryJitter over);
  automaticExtensionThreshold :=
    default (automaticExtensionThreshold base) (Partial.automaticExtensionThreshold over);
  db := default (db base) (Partial.db over)
|}.

(** ** Clients, votes and statistics *)

Definition Client : Type := nat.

Inductive Script : Type := acquireLock | extendLock | releaseLock.

Inductive Arg : Type :=
  | ArgNumber (n : number)
  | ArgString (s : string).

(** What [await client[script](...)] gives. *)
Inductive Reply : Type :=
  | ReplyNumber (n : number)
  | ReplyOther (typeof : string)
  | ReplyError (message : string)
  | ReplyNonError.

(** The errors that end up in [votesAgainst]. *)
Inductive ClientError : Type :=
  | UnexpectedResult (typeof : string)
  | ResourceLockedError (result : number) (requested : nat)
  | ClientFailure (message : string).

Inductive Vote : Type := VoteFor | VoteAgainst.

Inductive ClientExecutionResult : Type :=
  | ResultFor (client : Client) (value : number)
  | ResultAgainst (client : Client) (error : ClientError).

Record ExecutionStats : Type := mkStats {
  membershipSize : nat;
  quorumSize : nat;
  votesFor : list Client;
  votesAgainst : list (Client * ClientError)
}.

(** [Promise<ExecutionStats>]: the statistics it fulfils with, or [None] when
    it stays pending for ever. *)
Definition StatsPromise : Type := option ExecutionStats.

Record ExecutionResult : Type := mkResult {
  attempts : list StatsPromise;
  start : number
}.

Inductive JSError : Type :=
  | Error (message : string)
  | ExecutionError (message : string) (attempts : list StatsPromise)
  | TypeError (message : string).

(** ** The [Set] and [Map] of the tally, in insertion order *)

Definition Set_add (c : Client) (s : list Client) : list Client :=
  if decide (c ∈ s) then s else s ++ [c].

Definition Set_from (cs : list Client) : list Client :=
  fold_left (fun s c => Set_add c s) cs [].

Fixpoint Map_set (c : Client) (e : ClientError) (m : list (Client * ClientError))
  : list (Client * ClientError) :=
  match m with
  | [] => [(c, e)]
  | (c', e') :: m' => if decide (c' = c) then (c, e) :: m' else (c', e') :: Map_set c e m'
  end.

(** ** The [Redlock] instance and its [Lock]s *)

Record Redlock : Type := mkRedlock {
  clients : list Client;
  settings : Settings
}.

Module Lock.
Record t : Type := mk {
  redlock : Redlock;
  resources : list string;
  value : string;
  attempts : list StatsPromise;
  expiration : number;
  settings : option Partial.t
}.

Definition set_expiration (x : number) (l : t) : t :=
  mk (redlock l) (resources l) (value l) (attempts l) x (settings l).
End Lock.

Definition msg_no_client : string :=
  "Redlock must be instantiated with at least one redis client.".
Definition msg_duration : string :=
  "Duration must be an integer value in milliseconds.".
Definition msg_expired : string :=
  "Cannot extend an already-expired lock.".
Definition msg_quorum : string :=
  "The operation was unable to achieve a quorum during its retry window.".

(** [new Redlock(clients, settings)] *)
Definition Redlock_new (cs : list Client) (s : Partial.t) : JSError + Redlock :=
  let set := Set_from cs in
  if (length set =? 0)%nat then inl (Error msg_no_client)
  else inr {|
    clients := set;
    settings := {|
      driftFactor := default (driftFactor defaultSettings) (Partial.driftFactor s);
      retryCount := default (retryCount defaultSettings) (Partial.retryCount s);
      retryDelay := default (retryDelay defaultSettings) (Partial.retryDelay s);
      retryJitter := default (retryJitter defaultSettings) (Partial.retryJitter s);
      automaticExtensionThreshold :=
        default (automaticExtensionThreshold defaultSettings)
                (Partial.automaticExtensionThreshold s);
      db := match Partial.db s with
            | Some d =>
                if Number_isInteger d && negb (lt d 0) && negb (lt 15 d)
                then d else db defaultSettings
            | None => db defaultSettings
            end
    |}
  |}.

(** ** Environment, world and outcomes *)

Inductive Event : Type :=
  | Call (client : Client) (script : Script) (keys : list string) (args : list Arg)
  | Sleep (ms : number).

(** Everything the library does not decide.  [respond] sees the trace so far,
    so a server may answer from its own state; [pick] chooses, among the
    answers still under way, the one that arrives next. *)
Record Env : Type := mkEnv {
  Date_now : nat -> number;
  randomBytes : nat -> string;
  Math_random : nat -> number;
  respond : list Event -> Client -> Script -> list string -> list Arg -> Reply;
  pick : list Event -> nat -> nat
}.

Record World : Type := mkWorld {
  heap : list Lock.t;
  trace : list Event;
  emitted : list ClientError;
  ticks : nat
}.

Inductive Outcome (A : Type) : Type :=
  | Return (a : A)
  | Throw (e : JSError)
  | Pending
  | Unhandled
  | OutOfFuel.
Arguments Return {A} a.
Arguments Throw {A} e.
Arguments Pending {A}.
Arguments Unhandled {A}.
Arguments OutOfFuel {A}.

Definition M (A : Type) : Type := World -> Outcome A * World.

Definition ret {A} (a : A) : M A := fun w => (Return a, w).
Definition throw {A} (e : JSError) : M A := fun w => (Throw e, w).

Definition bind {A B} (m : M A) (k : A -> M B) : M B := fun w =>
  match m w with
  | (Return a, w') => k a w'
  | (Throw e, w') => (Throw e, w')
  | (Pending, w') => (Pending, w')
  | (Unhandled, w') => (Unhandled, w')
  | (OutOfFuel, w') => (OutOfFuel, w')
  end.

(** [try { m } catch (error) { h error }] *)
Definition try_catch {A} (m : M A) (h : JSError -> M A) : M A := fun w =>
  match m w with
  | (Throw e, w') => h e w'
  | r => r
  end.

(** [m.catch(() => {})] *)
Definition catch_ignore {A} (m : M A) : M unit := fun w =>
  match m w with
  | (Return _, w') => (Return tt, w')
  | (Throw _, w') => (Return tt, w')
  | (Pending, w') => (Pending, w')
  | (Unhandled, w') => (Unhandled, w')
  | (OutOfFuel, w') => (OutOfFuel, w')
  end.

Declare Scope js_scope.
Delimit Scope js_scope with js.
Notation "'let*' x ':=' m 'in' k" := (bind m (fun x => k))
  (at level 10, x pattern, m at level 100, k at level 200) : js_scope.
Local Open Scope js_scope.

Definition log (e : Event) : M unit := fun w =>
  (Return tt, mkWorld (heap w) (trace w ++ [e]) (emitted w) (ticks w)).

Definition emit (e : ClientError) : M unit := fun w =>
  (Return tt, mkWorld (heap w) (trace w) (emitted w ++ [e]) (ticks w)).

(** One sample of an environment stream. *)
Definition sample {A} (f : nat -> A) : M A := fun w =>
  (Return (f (ticks w)), mkWorld (heap w) (trace w) (emitted w) (S (ticks w))).

(** [new Lock(...)]: a fresh reference. *)
Definition new_Lock (l : Lock.t) : M nat := fun w =>
  (Return (length (heap w)), mkWorld (heap w ++ [l]) (trace w) (emitted w) (ticks w)).

(** Reading through a reference; a reference to nothing is [undefined]. *)
Definition deref (l : nat) : M Lock.t := fun w =>
  match heap w !! l with
  | Some lock => (Return lock, w)
  | None => (Throw (TypeError "Cannot read properties of undefined"), w)
  end.

(** [lock.expiration = x] *)
Definition assign_expiration (l : nat) (x : number) : M unit := fun w =>
  match heap w !! l with
  | Some lock =>
      (Return tt,
       mkWorld (<[l := Lock.set_expiration x lock]> (heap w)) (trace w) (emitted w) (ticks w))
  | None => (Throw (TypeError "Cannot set properties of undefined"), w)
  end.

(** ** One server, one attempt *)

Section Library.
Context (E : Env).

(** [_attemptOperationOnClient]: the command goes out, the answer becomes a
    vote, and an error is emitted on the instance for every vote against;
    [None] is a rejection of the returned promise (something thrown that is
    not an [Error]). *)
Definition _attemptOperationOnClient
    (client : Client) (script : Script) (keys : list string) (args : list Arg)
  : M (option ClientExecutionResult) := fun w =>
  let reply := respond E (trace w) client script keys args in
  (let* _ := log (Call client script keys args) in
   match reply with
   | ReplyNumber result =>
       if strict_ne result (of_nat (length keys)) then
         let error := ResourceLockedError result (length keys) in
         let* _ := emit error in
         ret (Some (ResultAgainst client error))
       else ret (Some (ResultFor client result))
   | ReplyOther ty =>
       let* _ := emit (UnexpectedResult ty) in
       ret (Some (ResultAgainst client (UnexpectedResult ty)))
   | ReplyError message =>
       let* _ := emit (ClientFailure message) in
       ret (Some (ResultAgainst client (ClientFailure message)))
   | ReplyNonError => ret None
   end) w.

(** The tally of one attempt while the answers arrive. *)
Record Tally : Type := mkTally {
  stats : ExecutionStats;
  resolved : option Vote;
  completed : bool;
  escaped : bool
}.

(** [resolve(...)]: only the first call settles the promise. *)
Definition resolve (v : Vote) (r : option Vote) : option Vote :=
  match r with Some _ => r | None => Some v end.

Definition onResultResolve (clientResult : ClientExecutionResult) (t : Tally) : Tally :=
  let s := stats t in
  let s' :=
    match clientResult with
    | ResultFor c _ =>
        mkStats (membershipSize s) (quorumSize s) (Set_add c (votesFor s)) (votesAgainst s)
    | ResultAgainst c e =>
        mkStats (membershipSize s) (quorumSize s) (votesFor s) (Map_set c e (votesAgainst s))
    end in
  let r1 := if (length (votesFor s') =? quorumSize s')%nat
            then resolve VoteFor (resolved t) else resolved t in
  let r2 := if (length (votesAgainst s') =? quorumSize s')%nat
            then resolve VoteAgainst r1 else r1 in
  let d := if (length (votesFor s') + length (votesAgainst s') =? membershipSize s')%nat
           then true else completed t in
  mkTally s' r2 d (escaped t).

Definition onResultReject (t : Tally) : Tally :=
  mkTally (stats t) (resolved t) (completed t) true.

Definition onResult (r : option ClientExecutionResult) (t : Tally) : Tally :=
  match r with
  | Some clientResult => onResultResolve clientResult t
  | None => onResultReject t
  end.

(** The order in which the pending promises settle: [choose] names the next
    one among those left. *)
Fixpoint arrivals {A} (choose : nat -> nat) (n : nat) (pending : list A) : list A :=
  match n with
  | O => []
  | S n' =>
      match pending !! (choose n' mod length pending)%nat with
      | Some x => x :: arrivals choose n' (delete (choose n' mod length pending)%nat pending)
      | None => []
      end
  end.

Fixpoint call_all (cs : list Client) (script : Script) (keys : list string)
    (args : list Arg) : M (list (option ClientExecutionResult)) :=
  match cs with
  | [] => ret []
  | client :: cs' =>
      let* r := _attemptOperationOnClient client script keys args in
      let* rs := call_all cs' script keys args in
      ret (r :: rs)
  end.

Record Attempt : Type := mkAttempt {
  vote : Vote;
  attempt_stats : StatsPromise;
  attempt_start : number
}.

Definition initial_stats (n : nat) : ExecutionStats :=
  mkStats n (n / 2 + 1) [] [].

Definition tally (clientResults : list (option ClientExecutionResult)) (w : World) : Tally :=
  fold_left (fun t r => onResult r t)
    (arrivals (pick E (trace w)) (length clientResults) clientResults)
    (mkTally (initial_stats (length clientResults)) None false false).

(** [_attemptOperation]: the clock is read, the command goes to every client
    in the order of the set, and the answers are tallied in their order of
    arrival.  The answers of one attempt are all taken before the operation
    goes on: neither the decision nor the final statistics depend on how late
    the remaining answers are.  The attempt resolves with the first threshold
    reached; it stays pending when none is; [onResultReject] throws inside a
    promise callback, which nothing catches. *)
Definition _attemptOperation (this : Redlock) (script : Script) (keys : list string)
    (args : list Arg) : M Attempt :=
  let* start := sample (Date_now E) in
  let* clientResults := call_all (clients this) script keys args in
  fun w =>
    let t := tally clientResults w in
    if escaped t then (Unhandled, w)
    else match resolved t with
         | Some v =>
             (Return (mkAttempt v (if completed t then Some (stats t) else None) start), w)
         | None => (Pending, w)
         end.

(** ** The retry loop *)

(** [None] is [Infinity]. *)
Definition maxAttempts (s : Settings) : option number :=
  if strict_eq (retryCount s) (-1) then None else Some (retryCount s + 1).

Definition below (n : nat) (m : option number) : bool :=
  match m with
  | None => true
  | Some x => lt (of_nat n) x
  end.

(** The [setTimeout] between two attempts. *)
Definition wait (s : Settings) : M unit :=
  let* r := sample (Math_random E) in
  log (Sleep (Math_max 0 (retryDelay s + Math_floor ((r * 2 - 1) * retryJitter s)))).

(** The [while] loop of [_execute]; [attempts] is the array built so far. *)
Fixpoint attempt_loop (fuel : nat) (this : Redlock) (s : Settings) (command : Script)
    (keys : list string) (args : list Arg) (attempts : list StatsPromise)
  : M ExecutionResult :=
  match fuel with
  | O => fun w => (OutOfFuel, w)
  | S fuel' =>
      if below (length attempts) (maxAttempts s) then
        let* a := _attemptOperation this command keys args in
        let attempts := attempts ++ [attempt_stats a] in
        match vote a with
        | VoteFor => ret (mkResult attempts (attempt_start a))
        | VoteAgainst =>
            let* _ := (if below (length attempts) (maxAttempts s) then wait s else ret tt) in
            attempt_loop fuel' this s command keys args attempts
        end
      else throw (ExecutionError msg_quorum attempts)
  end.

Definition _execute (fuel : nat) (this : Redlock) (command : Script) (keys : list string)
    (args : list Arg) (_settings : option Partial.t) : M ExecutionResult :=
  let settings :=
    match _settings with
    | Some over => spread (settings this) over
    | None => settings this
    end in
  attempt_loop fuel this settings command keys args [].

(** ** acquire, release, extend *)

(** [Math.round((settings?.driftFactor ?? this.settings.driftFactor) * duration) + 2] *)
Definition drift (this : Redlock) (_settings : option Partial.t) (duration : number) : number :=
  Math_round
    (binary64 (default (driftFactor (settings this)) (_settings ≫= Partial.driftFactor)
               * duration)) + 2.

Definition acquire (fuel : nat) (this : Redlock) (resources : list string)
    (duration : number) (_settings : option Partial.t) : M nat :=
  if strict_ne (Math_floor duration) duration then throw (Error msg_duration)
  else
    let* value := sample (randomBytes E) in
    try_catch
      (let* r := _execute fuel this acquireLock resources
                   [ArgNumber (db (settings this)); ArgString value;
                    ArgNumber duration] _settings in
       new_Lock (Lock.mk this resources value (attempts r)
                   (start r + duration - drift this _settings duration) _settings))
      (fun error =>
         let* _ := catch_ignore
                     (_execute fuel this releaseLock resources
                        [ArgNumber (db (settings this)); ArgString value]
                        (Some (Partial.mk None (Some 0) None None None None))) in
         throw error).

Definition release (fuel : nat) (this : Redlock) (lock : nat)
    (_settings : option Partial.t) : M ExecutionResult :=
  let* _ := assign_expiration lock 0 in
  let* l := deref lock in
  _execute fuel this releaseLock (Lock.resources l)
    [ArgNumber (db (settings this)); ArgString (Lock.value l)] _settings.

Definition extend (fuel : nat) (this : Redlock) (existing : nat) (duration : number)
    (_settings : option Partial.t) : M nat :=
  if strict_ne (Math_floor duration) duration then throw (Error msg_duration)
  else
    let* l := deref existing in
    let* now := sample (Date_now E) in
    if lt (Lock.expiration l) now then throw (ExecutionError msg_expired [])
    else
      let* r := _execute fuel this extendLock (Lock.resources l)
                  [ArgNumber (db (settings this)); ArgString (Lock.value l);
                   ArgNumber duration] _settings in
      let* _ := assign_expiration existing 0 in
      new_Lock (Lock.mk this (Lock.resources l) (Lock.value l) (attempts r)
                  (start r + duration - drift this _settings duration) _settings).

End Library.

(** ** The three scripts of [src/scripts.ts] on a model server

    A server holds string keys per database.  The time to live of a key is
    checked when it is set ([PX] wants a positive integer) and then forgotten:
    the model server's keys do not expire. *)
Module Redis.

(** [redis.pcall("SELECT", tonumber(ARGV[1]))]: the database the rest of the
    script runs on; a refused [SELECT] leaves database 0. *)
Definition DB_SELECT_SCRIPT (ARGV1 : Arg) : Z :=
  match ARGV1 with
  | ArgNumber d =>
      if Number_isInteger d && negb (lt d 0) && negb (lt 15 d) then Qfloor d else 0%Z
  | ArgString _ => 0%Z
  end.

Definition valid_px (px : number) : bool := Number_isInteger px && lt 0 px.

Definition msg_px : string := "ERR invalid expire time in 'set' command".
Definition msg_args : string := "ERR wrong number of arguments".

(** The loop of [redis.call("set", key, ARGV[2], "PX", ARGV[3])]. *)
Definition set_each (st : gmap (Z * string) string) (d : Z) (keys : list string)
    (v : string) (px : number) : Reply * gmap (Z * string) string :=
  if bool_decide (keys = []) || valid_px px
  then (ReplyNumber (of_nat (length keys)),
        fold_left (fun s key => <[(d, key) := v]> s) keys st)
  else (ReplyError msg_px, st).

Definition ACQUIRE_SCRIPT (st : gmap (Z * string) string) (KEYS : list string)
    (ARGV : list Arg) : Reply * gmap (Z * string) string :=
  match ARGV with
  | [d; ArgString v; ArgNumber px] =>
      let d := DB_SELECT_SCRIPT d in
      if existsb (fun key => bool_decide (is_Some (st !! (d, key)))) KEYS
      then (ReplyNumber 0, st)
      else set_each st d KEYS v px
  | _ => (ReplyError msg_args, st)
  end.

Definition EXTEND_SCRIPT (st : gmap (Z * string) string) (KEYS : list string)
    (ARGV : list Arg) : Reply * gmap (Z * string) string :=
  match ARGV with
  | [d; ArgString v; ArgNumber px] =>
      let d := DB_SELECT_SCRIPT d in
      if existsb (fun key => negb (bool_decide (st !! (d, key) = Some v))) KEYS
      then (ReplyNumber 0, st)
      else set_each st d KEYS v px
  | _ => (ReplyError msg_args, st)
  end.

Definition RELEASE_SCRIPT (st : gmap (Z * string) string) (KEYS : list string)
    (ARGV : list Arg) : Reply * gmap (Z * string) string :=
  match ARGV with
  | [d; ArgString v] =>
      let d := DB_SELECT_SCRIPT d in
      let '(count, st') :=
        fold_left
          (fun '(count, s) key =>
             if bool_decide (s !! (d, key) = Some v)
             then (S count, delete (d, key) s)
             else (count, s))
          KEYS (O, st) in
      (ReplyNumber (of_nat count), st')
  | _ => (ReplyError msg_args, st)
  end.

Definition run (script : Script) (st : gmap (Z * string) string) (KEYS : list string)
    (ARGV : list Arg) : Reply * gmap (Z * string) string :=
  match script with
  | acquireLock => ACQUIRE_SCRIPT st KEYS ARGV
  | extendLock => EXTEND_SCRIPT st KEYS ARGV
  | releaseLock => RELEASE_SCRIPT st KEYS ARGV
  end.

(** The keys of server [c] after the commands of a trace, from empty. *)
Definition state_after (history : list Event) (c : Client) : gmap (Z * string) string :=
  fold_left
    (fun st e =>
       match e with
       | Call c' script keys args =>
           if decide (c' = c) then snd (run script st keys args) else st
       | Sleep _ => st
       end)
    history ∅.

(** Live servers: each answers from its own keys, answers arrive in the
    order of the calls, the clock advances by one millisecond per reading. *)
Definition env : Env := {|
  Date_now := fun n => 1000 + of_nat n;
  randomBytes := fun n => if (n =? 0)%nat then "000102030405060708090a0b0c0d0e0f"
                          else "f0e0d0c0b0a090807060504030201000";
  Math_random := fun _ => 1 # 2;
  respond := fun history c script keys args =>
               fst (run script (state_after history c) keys args);
  pick := fun _ _ => O
|}.

End Redis.

(** Mocked clients, as in the unit tests ([mockResolvedValue]): client [c]
    answers every command with [answer c keys]. *)
Definition mock (answer : Client -> list string -> Reply) : Env := {|
  Date_now := fun n => 1000 + of_nat n;
  randomBytes := fun _ => "lock_value";
  Math_random := fun _ => 0;
  respond := fun _ c _ keys _ => answer c keys;
  pick := fun _ _ => O
|}.

Definition empty_world : World := mkWorld [] [] [] 0.

(** The vote a reply turns into. *)
Definition settle (client : Client) (keys : list string) (reply : Reply)
  : option ClientExecutionResult :=
  match reply with
  | ReplyNumber result =>
      if strict_ne result (of_nat (length keys))
      then Some (ResultAgainst client (ResourceLockedError result (length keys)))
      else Some (ResultFor client result)
  | ReplyOther ty => Some (ResultAgainst client (UnexpectedResult ty))
  | ReplyError message => Some (ResultAgainst client (ClientFailure message))
  | ReplyNonError => None
  end.

(** The remote commands of a trace. *)
Definition is_call (e : Event) : bool :=
  match e with Call _ _ _ _ => true | Sleep _ => false end.

Definition calls (tr : list Event) : nat := length (filter is_call tr).

(** The database index a remote command carries: its first argument. *)
Definition sends_db (d : number) (e : Event) : Prop :=
  match e with
  | Call _ _ _ (ArgNumber d' :: _) => d' = d
  | Call _ _ _ _ => False
  | Sleep _ => True
  end.

(** The errors one answer makes the instance emit. *)
Definition emission (r : option ClientExecutionResult) : list ClientError :=
  match r with
  | Some (ResultAgainst _ e) => [e]
  | _ => []
  end.

(** An event of the operation [command keys args] on the clients of [this]. *)
Definition issued (this : Redlock) (command : Script) (keys : list string)
    (args : list Arg) (e : Event) : Prop :=
  match e with
  | Call c s k a => c ∈ clients this /\ s = command /\ k = keys /\ a = args
  | Sleep _ => True
  end.



(** [r] comes from an attempt that resolved "for" and ended in world [w']:
    its start is the clock reading that attempt began with. *)
Definition decisive (E : Env) (this : Redlock) (command : Script) (keys : list string)
    (args : list Arg) (r : ExecutionResult) (w' : World) : Prop :=
  exists wa a,
    _attemptOperation E this command keys args wa = (Return a, w') /\
    vote a = VoteFor /\
    start r = attempt_start a /\
    start r = Date_now E (ticks wa) /\
    last (attempts r) = Some (attempt_stats a).

(** The statistics promise [st] was produced by an attempt of the operation. *)
Definition made_by (E : Env) (this : Redlock) (command : Script) (keys : list string)
    (args : list Arg) (st : StatsPromise) : Prop :=
  exists wa a w1,
    _attemptOperation E this command keys args wa = (Return a, w1) /\
    attempt_stats a = st.

(** What the retry loop has done when it stops with outcome [o], having
    started with [acc] and made [n] further attempts. *)
Definition loop_outcome (E : Env) (this : Redlock) (s : Settings) (command : Script)
    (keys : list string) (args : list Arg) (fuel : nat) (acc : list StatsPromise)
    (n : nat) (o : Outcome ExecutionResult) (w' : World) : Prop :=
  match o with
  | Return r =>
      exists sts, attempts r = acc ++ sts /\ length sts = n /\
                  Forall (made_by E this command keys args) sts /\
                  decisive E this command keys args r w'
  | Throw e =>
      exists sts, e = ExecutionError msg_quorum (acc ++ sts) /\ length sts = n /\
                  Forall (made_by E this command keys args) sts /\
                  below (length acc + n) (maxAttempts s) = false
  | Pending =>
      exists wa, fst (_attemptOperation E this command keys args wa) = Pending
  | Unhandled =>
      exists wa, fst (_attemptOperation E this command keys args wa) = Unhandled
  | OutOfFuel => n = fuel
  end.

(** The state of a tally in which only "against" votes [va] have arrived. *)
Definition against_inv (q m : nat) (va : list (Client * ClientError)) (t : Tally) : Prop :=
  stats t = mkStats m q [] va /\
  escaped t = false /\
  resolved t = (if bool_decide (q <= length va)%nat then Some VoteAgainst else None) /\
  completed t = bool_decide (m <= length va)%nat.

Definition against (p : Client * ClientError) : option ClientExecutionResult :=
  Some (ResultAgainst p.1 p.2).

(** Statistics of an attempt in which every client of [this] voted against,
    each with an error satisfying [P]. *)
Definition all_against (this : Redlock) (P : ClientError -> Prop) (st : StatsPromise) : Prop :=
  exists s,
    st = Some s /\
    membershipSize s = length (clients this) /\
    quorumSize s = (length (clients this) / 2 + 1)%nat /\
    votesFor s = [] /\
    (votesAgainst s).*1 ≡ₚ clients this /\
    Forall (fun p => P p.2) (votesAgainst s).

(** The settings [_execute] runs with. *)
Definition merged (this : Redlock) (_settings : option Partial.t) : Settings :=
  match _settings with
  | Some over => spread (settings this) over
  | None => settings this
  end.

(** Instances and worlds for the examples. *)
Definition single : Redlock := mkRedlock [0%nat] defaultSettings.
Definition pair : Redlock := mkRedlock [0%nat; 1%nat] defaultSettings.
Definition triple : Redlock := mkRedlock [0%nat; 1%nat; 2%nat] defaultSettings.

Definition a_lock (this : Redlock) (expiration : number) : Lock.t :=
  Lock.mk this ["resource1"%string] "lock_value" [] expiration None.

Definition world_with (l : Lock.t) : World := mkWorld [l] [] [] 0.

(** Every server reports 0 keys. *)
Definition nothing_there : Env := mock (fun _ _ => ReplyNumber 0).

(** Every server reports all the keys. *)
Definition all_fine : Env := mock (fun _ keys => ReplyNumber (of_nat (length keys))).

(** Client 0 reports all the keys, the others none. *)
Definition split_vote : Env :=
  mock (fun c keys => if (c =? 0)%nat then ReplyNumber (of_nat (length keys))
                      else ReplyNumber 0).

(** ** Counting the votes of an attempt *)

Definition voter (r : ClientExecutionResult) : Client :=
  match r with
  | ResultFor c _ => c
  | ResultAgainst c _ => c
  end.

(** The clients voting for, and the votes against, in the order of a list of
    settled answers. *)
Definition fors (l : list ClientExecutionResult) : list Client :=
  omap (fun r => match r with ResultFor c _ => Some c | ResultAgainst _ _ => None end) l.

Definition againsts (l : list ClientExecutionResult) : list (Client * ClientError) :=
  omap (fun r => match r with ResultFor _ _ => None | ResultAgainst c e => Some (c, e) end) l.

(** What an attempt with quorum [q] resolves to once [f] votes for and [a]
    votes against are in. *)
Definition decision (q f a : nat) : option Vote :=
  if (q <=? f)%nat then Some VoteFor
  else if (q <=? a)%nat then Some VoteAgainst
  else None.

(** The state of a tally that has counted the votes [fl] and [al]. *)
Definition counted (q m : nat) (fl : list Client) (al : list (Client * ClientError))
    (t : Tally) : Prop :=
  stats t = mkStats m q fl al /\
  escaped t = false /\
  resolved t = decision q (length fl) (length al) /\
  completed t = bool_decide (m <= length fl + length al)%nat.

(** Client [c] accepts the operation: whenever asked, it answers the number
    of keys. *)
Definition accepts (E : Env) (cmd : Script) (k : list string) (c : Client) : Prop :=
  forall h a, exists n, respond E h c cmd k a = ReplyNumber n /\ n == of_nat (length k).

(** Client [c] refuses the operation: whenever asked, it answers something
    else, or fails with an error. *)
Definition refuses (E : Env) (cmd : Script) (k : list string) (c : Client) : Prop :=
  forall h a,
    match respond E h c cmd k a with
    | ReplyNumber n => ~ n == of_nat (length k)
    | ReplyOther _ | ReplyError _ => True
    | ReplyNonError => False
    end.

(** No client ever rejects with something that is not an [Error]. *)
Definition settles (E : Env) (cmd : Script) (k : list string) : Prop :=
  forall h c a, respond E h c cmd k a <> ReplyNonError.

(** Client 2 is unreachable, the others report all the keys. *)
Definition one_down : Env :=
  mock (fun c keys => if (c =? 2)%nat then ReplyError "Connection is closed."
                      else ReplyNumber (of_nat (length keys))).

(** The trace of [S (length naps)] attempts: the commands of one attempt
    ([fan]), then for each nap a sleep and the commands again. *)
Fixpoint rounds (fan : list Event) (naps : list number) : list Event :=
  match naps with
  | [] => fan
  | ms :: rest => fan ++ Sleep ms :: rounds fan rest
  end.

(** A delay the retry loop may sleep with the settings [s]. *)
Definition nap (E : Env) (s : Settings) (ms : number) : Prop :=
  exists t, ms = Math_max 0 (retryDelay s
                             + Math_floor ((Math_random E t * 2 - 1) * retryJitter s)).

(** The retry budget allows a first attempt. *)
Definition may_attempt (s : Settings) : Prop :=
  retryCount s == -1 \/ -1 < retryCount s.

(** The per-call settings of acquire's cleanup: [{ retryCount: 0 }]. *)
Definition once : option Partial.t := Some (Partial.mk None (Some 0) None None None None).

(** The commands one attempt sends. *)
Definition fan_out (this : Redlock) (cmd : Script) (k : list string) (a : list Arg)
  : list Event :=
  map (fun c => Call c cmd k a) (clients this).

(** ** The methods of [Lock] *)

(** [lock.release()] *)
Definition Lock_release (E : Env) (fuel : nat) (lock : nat) : M ExecutionResult :=
  let* this := deref lock in
  release E fuel (Lock.redlock this) lock None.

(** [lock.extend(duration)] *)
Definition Lock_extend (E : Env) (fuel : nat) (lock : nat) (duration : number) : M nat :=
  let* this := deref lock in
  extend E fuel (Lock.redlock this) lock duration (Lock.settings this).

(** ** Live servers *)

(** The servers of [E] are live: each answers every command by running the
    script on the keys its own history has left.  The clock, the random
    values and the order in which answers arrive are free. *)
Definition live (E : Env) : Prop :=
  forall h c s k a, respond E h c s k a = fst (Redis.run s (Redis.state_after h c) k a).

(** The database the scripts of [this] run on. *)
Definition database (this : Redlock) : Z :=
  Redis.DB_SELECT_SCRIPT (ArgNumber (db (settings this))).

(** No client of [this] holds any of the resources after the trace of [w]. *)
Definition all_free (this : Redlock) (resources : list string) (w : World) : Prop :=
  forall c key, c ∈ clients this -> key ∈ resources ->
    Redis.state_after (trace w) c !! (database this, key) = None.

(** Every client of [this] holds one of the resources after the trace of [w]. *)
Definition all_taken (this : Redlock) (resources : list string) (w : World) : Prop :=
  forall c, c ∈ clients this ->
    exists key, key ∈ resources /\
                is_Some (Redis.state_after (trace w) c !! (database this, key)).

(** The keys of every client of [this] are the same after [w'] as after [w]. *)
Definition same_keys (this : Redlock) (w w' : World) : Prop :=
  forall c, c ∈ clients this ->
    Redis.state_after (trace w') c = Redis.state_after (trace w) c.


(** ** [using]

    The routine is the caller's code.  The library sees only whether it
    settles, with a value or with an error; the model hands it the signal and
    the context as they are when it settles.  The timer of [queue] and the
    routine run side by side: a schedule says how many times the timer fires,
    and its extension ends, before the routine settles ([firings]), and
    whether the routine then settles while one more extension is under way
    ([late]).  An extension is one step: what the routine does meanwhile is
    its own business. *)

(** A whole [Settings] object where a [Partial<Settings>] is expected. *)
Definition whole (s : Settings) : Partial.t :=
  Partial.mk (Some (driftFactor s)) (Some (retryCount s)) (Some (retryDelay s))
             (Some (retryJitter s)) (Some (automaticExtensionThreshold s)) (Some (db s)).

Definition msg_routine : string := "INVARIANT: routine is not a function.".
Definition msg_threshold : string :=
  "A lock `duration` must be at least 100ms greater than the `automaticExtensionThreshold` setting.".

Module RedlockAbortSignal.
Record t : Type := mk {
  aborted : bool;
  error : option JSError
}.
End RedlockAbortSignal.

Module RedlockUsingContext.
Record t : Type := mk {
  lock : nat;
  extensions : nat
}.
End RedlockUsingContext.

Inductive Settlement (T : Type) : Type :=
  | Fulfilled (value : T)
  | Rejected (reason : JSError)
  | Unsettled.
Arguments Fulfilled {T} value.
Arguments Rejected {T} reason.
Arguments Unsettled {T}.

Definition Routine (T : Type) : Type :=
  RedlockAbortSignal.t -> RedlockUsingContext.t -> Settlement T.

(** The third argument of [using]: nothing, settings, or the routine. *)
Inductive SettingsOrRoutine (T : Type) : Type :=
  | NoArgument
  | TheSettings (s : Partial.t)
  | TheRoutine (routine : Routine T).
Arguments NoArgument {T}.
Arguments TheSettings {T} s.
Arguments TheRoutine {T} routine.

(** The variables one call of [using] closes over; [timeout] holds the delay
    of the pending timer, [extension] says whether a promise has been
    assigned to it. *)
Module Using.

Record t : Type := mk {
  context : RedlockUsingContext.t;
  signal : RedlockAbortSignal.t;
  timeout : option number;
  extension : bool
}.

Section Closure.
Context (E : Env) (fuel : nat) (duration : number) (_settings : Settings).

(** [queue()] *)
Definition queue (u : t) : M t :=
  let* l := deref (RedlockUsingContext.lock (context u)) in
  let* now := sample (Date_now E) in
  ret (mk (context u) (signal u)
          (Some (Lock.expiration l - now - automaticExtensionThreshold _settings))
          (extension u)).

(** [extend()], the inner function; [n] bounds its calls of itself. *)
Fixpoint extend (n : nat) (u : t) : M t :=
  match n with
  | O => fun w => (OutOfFuel, w)
  | S n' =>
      let u := mk (context u) (signal u) None true in
      try_catch
        (let* l := Lock_extend E fuel (RedlockUsingContext.lock (context u)) duration in
         queue (mk (RedlockUsingContext.mk l (S (RedlockUsingContext.extensions (context u))))
                   (signal u) (timeout u) (extension u)))
        (fun error =>
           let* l := deref (RedlockUsingContext.lock (context u)) in
           let* now := sample (Date_now E) in
           if lt now (Lock.expiration l) then extend n' u
           else ret (mk (context u) (RedlockAbortSignal.mk true (Some error))
                        (timeout u) (extension u)))
  end.

(** The pending timer fires: [() => (extension = extend())]. *)
Definition fire (u : t) : M t :=
  match timeout u with
  | Some _ => extend fuel u
  | None => ret u
  end.

Fixpoint fires (n : nat) (u : t) : M t :=
  match n with
  | O => ret u
  | S n' => let* u := fire u in fires n' u
  end.

(** The [finally] block.  When the routine settles while an extension is
    under way, the timer has fired already and there is nothing to clear;
    the extension is awaited, and whatever it throws is dropped. *)
Definition finally (late : bool) (u : t) : M t :=
  let* u :=
    match timeout u with
    | Some _ =>
        if late
        then try_catch (extend fuel u) (fun _ => ret (mk (context u) (signal u) None true))
        else ret (mk (context u) (signal u) None (extension u))
    | None => ret u
    end in
  let* _ := Lock_release E fuel (RedlockUsingContext.lock (context u)) in
  ret u.

End Closure.
End Using.

(** The settings [using] works with. *)
Definition using_settings {T : Type} (this : Redlock) (settingsOrRoutine : SettingsOrRoutine T)
  : Settings :=
  match settingsOrRoutine with
  | TheSettings s => spread (settings this) s
  | _ => settings this
  end.

(** The routine [using] finds among its arguments. *)
Definition using_routine {T : Type} (settingsOrRoutine : SettingsOrRoutine T)
    (optionalRoutine : option (Routine T)) : option (Routine T) :=
  match optionalRoutine with
  | Some r => Some r
  | None => match settingsOrRoutine with TheRoutine r => Some r | _ => None end
  end.

(** [using] up to the end of its [finally] block: how the routine settled,
    and the closure as the call leaves it. *)
Definition using_run {T : Type} (E : Env) (fuel : nat) (this : Redlock)
    (resources : list string) (duration : number)
    (settingsOrRoutine : SettingsOrRoutine T) (optionalRoutine : option (Routine T))
    (firings : nat) (late : bool) : M (Settlement T * Using.t) :=
  if strict_ne (Math_floor duration) duration then throw (Error msg_duration)
  else
    let _settings := using_settings this settingsOrRoutine in
    let routine := using_routine settingsOrRoutine optionalRoutine in
    match routine with
    | None => throw (Error msg_routine)
    | Some routine =>
        if lt (duration - 100) (automaticExtensionThreshold _settings)
        then throw (Error msg_threshold)
        else
          let* l := acquire E fuel this resources duration (Some (whole _settings)) in
          let* u := Using.queue E _settings
                      (Using.mk (RedlockUsingContext.mk l 0)
                                (RedlockAbortSignal.mk false None) None false) in
          let* u := Using.fires E fuel duration _settings firings u in
          match routine (Using.signal u) (Using.context u) with
          | Unsettled => fun w => (Pending, w)
          | outcome =>
              let* u := Using.finally E fuel duration _settings late u in
              ret (outcome, u)
          end
    end.

(** [using(resources, duration, settingsOrRoutine, optionalRoutine)]; [using]
    itself is a keyword of Rocq. *)
Definition Redlock_using {T : Type} (E : Env) (fuel : nat) (this : Redlock)
    (resources : list string) (duration : number)
    (settingsOrRoutine : SettingsOrRoutine T) (optionalRoutine : option (Routine T))
    (firings : nat) (late : bool) : M T :=
  let* r := using_run E fuel this resources duration settingsOrRoutine optionalRoutine
              firings late in
  match r.1 with
  | Fulfilled value => ret value
  | Rejected reason => throw reason
  | Unsettled => fun w => (Pending, w)
  end.




(** What [using] gives back for a settled routine. *)
Definition settled {T : Type} (o : Settlement T) : Outcome T :=
  match o with
  | Fulfilled value => Return value
  | Rejected reason => Throw reason
  | Unsettled => Pending
  end.


(** The context of a [using] call of [this] holds a lock of [this] on
    [resources] with the value [v], made with the settings [s]. *)
Definition holds (this : Redlock) (resources : list string) (v : string) (s : Settings)
    (u : Using.t) (w : World) : Prop :=
  exists L,
    heap w !! RedlockUsingContext.lock (Using.context u) = Some L /\
    Lock.redlock L = this /\
    Lock.resources L = resources /\
    Lock.value L = v /\
    Lock.settings L = Some (whole s).

(** An event that carries the lock value [v]: a sleep, or a remote command
    whose second argument is [v]. *)
Definition carries (v : string) (e : Event) : Prop :=
  match e with
  | Call _ _ _ (_ :: ArgString v' :: _) => v' = v
  | Call _ _ _ _ => False
  | Sleep _ => True
  end.

(** * Numbers *)

Lemma strict_eq_true (a b : number) : strict_eq a b = true <-> a == b.
Proof. apply Qeq_bool_iff. Qed.

Lemma strict_ne_true (a b : number) : strict_ne a b = true <-> ~ a == b.
Proof.
  unfold strict_ne. rewrite negb_true_iff. split.
  - intros H Heq. apply Qeq_bool_iff in Heq. congruence.
  - intros H. destruct (Qeq_bool a b) eqn:Hb; [|done].
    apply Qeq_bool_iff in Hb. contradiction.
Qed.

Lemma strict_ne_false (a b : number) : strict_ne a b = false <-> a == b.
Proof.
  unfold strict_ne. rewrite negb_false_iff. apply Qeq_bool_iff.
Qed.

Lemma lt_true (a b : number) : lt a b = true <-> a < b.
Proof.
  unfold lt. rewrite Qlt_alt. destruct (a ?= b); split; congruence.
Qed.

Lemma lt_false (a b : number) : lt a b = false <-> b <= a.
Proof.
  rewrite <- not_true_iff_false, lt_true. split.
  - apply Qnot_lt_le.
  - intros H1 H2. exact (Qle_not_lt _ _ H1 H2).
Qed.

Lemma of_nat_lt (n m : nat) : of_nat n < of_nat m <-> (n < m)%nat.
Proof. unfold of_nat. rewrite <- Zlt_Qlt. lia. Qed.

Lemma of_nat_S (n : nat) : of_nat (S n) == of_nat n + 1.
Proof.
  unfold of_nat. rewrite Nat2Z.inj_succ, <- Z.add_1_r, inject_Z_plus. reflexivity.
Qed.

Lemma of_nat_nonneg (n : nat) : 0 <= of_nat n.
Proof. unfold of_nat. change 0 with (inject_Z 0). rewrite <- Zle_Qle. lia. Qed.

(** With [retryCount = k], the loop test [attempts.length < maxAttempts] is
    [n < k + 1]. *)
Lemma below_retryCount (s : Settings) (k n : nat) :
  retryCount s == of_nat k ->
  below n (maxAttempts s) = bool_decide (n < k + 1)%nat.
Proof.
  intros Hk. unfold maxAttempts.
  assert (strict_eq (retryCount s) (-1) = false) as ->.
  { apply not_true_iff_false. rewrite strict_eq_true, Hk. intros H.
    pose proof (of_nat_nonneg k) as Hn. rewrite H in Hn. revert Hn. apply Qlt_not_le.
    reflexivity. }
  simpl. case_bool_decide as Hd.
  - apply lt_true. rewrite Hk, <- of_nat_S. apply of_nat_lt. lia.
  - apply lt_false. rewrite Hk, <- of_nat_S. apply Qnot_lt_le. rewrite of_nat_lt. lia.
Qed.

Lemma below_unbounded (s : Settings) (n : nat) :
  retryCount s == -1 -> below n (maxAttempts s) = true.
Proof.
  intros H. unfold maxAttempts. apply strict_eq_true in H. by rewrite H.
Qed.

(** * The set of clients *)

Lemma Set_add_elem (x c : Client) (s : list Client) :
  x ∈ Set_add c s <-> x = c \/ x ∈ s.
Proof.
  unfold Set_add. case_decide; set_solver.
Qed.

Lemma Set_add_NoDup (c : Client) (s : list Client) : NoDup s -> NoDup (Set_add c s).
Proof.
  intros H. unfold Set_add. case_decide; [done|].
  apply NoDup_app. split_and!; [done | set_solver | apply NoDup_singleton].
Qed.

Lemma Set_add_length (c : Client) (s : list Client) :
  (length (Set_add c s) <= S (length s))%nat.
Proof.
  unfold Set_add. case_decide; [lia|]. rewrite length_app. simpl. lia.
Qed.

Lemma Set_fold_elem (cs acc : list Client) (x : Client) :
  x ∈ fold_left (fun s c => Set_add c s) cs acc <-> x ∈ acc \/ x ∈ cs.
Proof.
  revert acc. induction cs as [|c cs IH]; intros acc; simpl.
  - set_solver.
  - rewrite IH, Set_add_elem. set_solver.
Qed.

Lemma Set_fold_NoDup (cs acc : list Client) :
  NoDup acc -> NoDup (fold_left (fun s c => Set_add c s) cs acc).
Proof.
  revert acc. induction cs as [|c cs IH]; intros acc H; simpl; [done|].
  apply IH, Set_add_NoDup, H.
Qed.

Lemma Set_from_elem (cs : list Client) (x : Client) : x ∈ Set_from cs <-> x ∈ cs.
Proof. unfold Set_from. rewrite Set_fold_elem. set_solver. Qed.

Lemma Set_from_NoDup (cs : list Client) : NoDup (Set_from cs).
Proof. apply Set_fold_NoDup, NoDup_nil_2. Qed.

Lemma Set_from_nil (cs : list Client) : Set_from cs = [] <-> cs = [].
Proof.
  split; [|by intros ->].
  destruct cs as [|c cs]; [done|]. intros H.
  assert (c ∈ Set_from (c :: cs)) as Hc by (apply Set_from_elem; set_solver).
  rewrite H in Hc. set_solver.
Qed.

Lemma Redlock_new_clients (cs : list Client) (s : Partial.t) (this : Redlock) :
  Redlock_new cs s = inr this -> clients this = Set_from cs /\ Set_from cs <> [].
Proof.
  unfold Redlock_new. destruct (Set_from cs) as [|c l] eqn:Hs; simpl; [done|].
  intros [= <-]. done.
Qed.

(** * One attempt *)

Section Effects.
Context (E : Env).

Lemma calls_app (l1 l2 : list Event) : calls (l1 ++ l2) = (calls l1 + calls l2)%nat.
Proof. unfold calls. by rewrite filter_app, length_app. Qed.

Lemma calls_fan_out (cs : list Client) s k a :
  calls (map (fun c => Call c s k a) cs) = length cs.
Proof.
  unfold calls. induction cs as [|c cs IH]; [done|].
  simpl in *. by rewrite IH.
Qed.

Lemma call_client_spec c s k a w :
  _attemptOperationOnClient E c s k a w =
    (Return (settle c k (respond E (trace w) c s k a)),
     mkWorld (heap w) (trace w ++ [Call c s k a])
             (emitted w ++ emission (settle c k (respond E (trace w) c s k a)))
             (ticks w)).
Proof.
  unfold _attemptOperationOnClient, settle.
  destruct (respond E (trace w) c s k a) as [result|ty|message|]; simpl.
  - destruct (strict_ne result (of_nat (length k))); simpl; [done|].
    by rewrite app_nil_r.
  - done.
  - done.
  - by rewrite app_nil_r.
Qed.

Lemma call_all_spec cs s k a w :
  exists rs em,
    call_all E cs s k a w =
      (Return rs,
       mkWorld (heap w) (trace w ++ map (fun c => Call c s k a) cs)
               (emitted w ++ em) (ticks w)) /\
    Forall2 (fun c r => exists h, r = settle c k (respond E h c s k a)) cs rs.
Proof.
  revert w. induction cs as [|c cs IH]; intros w.
  - exists [], []. split; [|constructor].
    simpl. unfold ret. by rewrite !app_nil_r; destruct w.
  - simpl. unfold bind at 1. rewrite call_client_spec.
    unfold bind at 1.
    match goal with |- context [call_all E cs s k a ?w1] =>
      destruct (IH w1) as (rs & em & Hc & Hf) end.
    rewrite Hc. simpl.
    eexists (_ :: rs), (_ ++ em). split.
    + unfold ret. f_equal. f_equal; by rewrite <- app_assoc.
    + constructor; [eauto | done].
Qed.

(** One attempt reads the clock once, sends the command once to every
    client, and resolves by the tally of the answers. *)
Lemma attempt_spec this s k a w :
  exists rs em,
    let w1 := mkWorld (heap w) (trace w ++ map (fun c => Call c s k a) (clients this))
                      (emitted w ++ em) (S (ticks w)) in
    Forall2 (fun c r => exists h, r = settle c k (respond E h c s k a)) (clients this) rs /\
    _attemptOperation E this s k a w =
      (if escaped (tally E rs w1) then Unhandled
       else match resolved (tally E rs w1) with
            | Some v =>
                Return (mkAttempt v
                          (if completed (tally E rs w1) then Some (stats (tally E rs w1))
                           else None)
                          (Date_now E (ticks w)))
            | None => Pending
            end, w1).
Proof.
  unfold _attemptOperation, bind, sample. simpl.
  match goal with |- context [call_all E ?cs s k a ?w0] =>
    destruct (call_all_spec cs s k a w0) as (rs & em & Hc & Hf) end.
  exists rs, em. simpl in *. rewrite Hc. split; [done|].
  destruct (escaped _); [done|]. by destruct (resolved _).
Qed.

Lemma attempt_cases this s k a w o w1 :
  _attemptOperation E this s k a w = (o, w1) ->
  heap w1 = heap w /\
  trace w1 = trace w ++ map (fun c => Call c s k a) (clients this) /\
  ticks w1 = S (ticks w) /\
  match o with
  | Return at' => attempt_start at' = Date_now E (ticks w)
  | Pending | Unhandled => True
  | Throw _ | OutOfFuel => False
  end.
Proof.
  destruct (attempt_spec this s k a w) as (rs & em & _ & Heq). simpl in Heq.
  rewrite Heq. intros [= <- <-]. simpl. split_and!; try done.
  destruct (escaped _); [done|]. by destruct (resolved _).
Qed.

Lemma wait_spec s w :
  exists ms,
    wait E s w =
      (Return tt, mkWorld (heap w) (trace w ++ [Sleep ms]) (emitted w) (S (ticks w))).
Proof. eexists. reflexivity. Qed.

End Effects.

(** * The retry loop *)

Section Loop.
Context (E : Env).

Lemma attempt_loop_step fuel this s cmd k a acc w :
  attempt_loop E (S fuel) this s cmd k a acc w =
    if below (length acc) (maxAttempts s) then
      match _attemptOperation E this cmd k a w with
      | (Return at', w1) =>
          match vote at' with
          | VoteFor =>
              (Return (mkResult (acc ++ [attempt_stats at']) (attempt_start at')), w1)
          | VoteAgainst =>
              attempt_loop E fuel this s cmd k a (acc ++ [attempt_stats at'])
                (if below (length (acc ++ [attempt_stats at'])) (maxAttempts s)
                 then snd (wait E s w1) else w1)
          end
      | (Throw e, w1) => (Throw e, w1)
      | (Pending, w1) => (Pending, w1)
      | (Unhandled, w1) => (Unhandled, w1)
      | (OutOfFuel, w1) => (OutOfFuel, w1)
      end
    else (Throw (ExecutionError msg_quorum acc), w).
Proof.
  simpl. destruct (below (length acc) _); [|done]. unfold bind at 1.
  destruct (_attemptOperation E this cmd k a w) as [[at'|e| | |] w1]; try done.
  destruct (vote at'); [done|]. unfold bind.
  destruct (below _ _); reflexivity.
Qed.

Lemma issued_fan_out this cmd k a :
  Forall (issued this cmd k a) (map (fun c => Call c cmd k a) (clients this)).
Proof.
  apply Forall_forall. intros e He. apply list_elem_of_fmap in He as (c & -> & Hc).
  simpl. done.
Qed.

Lemma loop_outcome_shift this s cmd k a fuel acc st n o w' :
  made_by E this cmd k a st ->
  loop_outcome E this s cmd k a fuel (acc ++ [st]) n o w' ->
  loop_outcome E this s cmd k a (S fuel) acc (S n) o w'.
Proof.
  intros Hst. destruct o as [r|e| | |]; simpl; try done.
  - intros (sts & Hatt & Hlen & Hf & Hd). exists (st :: sts). split_and!; try done.
    + by rewrite Hatt, <- app_assoc.
    + simpl. by rewrite Hlen.
    + by constructor.
  - intros (sts & Hatt & Hlen & Hf & Hb). exists (st :: sts). split_and!; try done.
    + by rewrite Hatt, <- app_assoc.
    + simpl. by rewrite Hlen.
    + by constructor.
    + rewrite length_app in Hb. simpl in Hb.
      by replace (length acc + S n)%nat with (length acc + 1 + n)%nat by lia.
  - intros ->. done.
Qed.

(** The loop never touches the heap, only sends the operation's command,
    [n] times to every client, and stops in one of five ways. *)
Lemma attempt_loop_summary fuel this s cmd k a acc w o w' :
  attempt_loop E fuel this s cmd k a acc w = (o, w') ->
  exists n new,
    heap w' = heap w /\
    trace w' = trace w ++ new /\
    Forall (issued this cmd k a) new /\
    calls new = (n * length (clients this))%nat /\
    (n <= fuel)%nat /\
    (forall j, (j < n)%nat -> below (length acc + j) (maxAttempts s) = true) /\
    loop_outcome E this s cmd k a fuel acc n o w'.
Proof.
  revert acc w. induction fuel as [|fuel IH]; intros acc w.
  - simpl. intros [= <- <-]. exists O, []. rewrite app_nil_r.
    split_and!; try done. intros j Hj. lia.
  - rewrite attempt_loop_step. destruct (below (length acc) _) eqn:Hb.
    + destruct (_attemptOperation E this cmd k a w) as [oa w1] eqn:Ha.
      pose proof (attempt_cases E _ _ _ _ _ _ _ Ha) as (Hh & Ht & Htk & Hs).
      destruct oa as [at'|e| | |]; try done.
      * destruct (vote at') eqn:Hv.
        -- intros [= <- <-].
           exists 1%nat, (map (fun c => Call c cmd k a) (clients this)).
           split_and!; try done.
           ++ apply issued_fan_out.
           ++ rewrite calls_fan_out. lia.
           ++ lia.
           ++ intros j Hj. replace j with O by lia. by rewrite Nat.add_0_r.
           ++ simpl. exists [attempt_stats at']. split_and!; try done.
              ** repeat constructor. by exists w, at', w1.
              ** exists w, at'. simpl. split_and!; try done.
                 apply last_snoc.
        -- set (w2 := if below _ _ then snd (wait E s w1) else w1).
           assert (exists sl, heap w2 = heap w1 /\ trace w2 = trace w1 ++ sl /\
                              calls sl = O /\ Forall (issued this cmd k a) sl)
             as (sl & Hh2 & Ht2 & Hc2 & Hi2).
           { subst w2. destruct (below (length (acc ++ _)) _).
             - destruct (wait_spec E s w1) as [ms ->]. exists [Sleep ms]. simpl.
               split_and!; try done. by repeat constructor.
             - exists []. rewrite app_nil_r. by split_and!. }
           intros Hrest. apply IH in Hrest as (n & new & Hh3 & Ht3 & Hi3 & Hc3 & Hn & Hj & Hout).
           exists (S n), (map (fun c => Call c cmd k a) (clients this) ++ sl ++ new).
           split_and!.
           ++ congruence.
           ++ rewrite Ht3, Ht2, Ht. by rewrite <- !app_assoc.
           ++ rewrite !Forall_app. split_and!; try done. apply issued_fan_out.
           ++ rewrite !calls_app, calls_fan_out, Hc2, Hc3. lia.
           ++ lia.
           ++ intros [|j] Hlt; [by rewrite Nat.add_0_r|].
              specialize (Hj j ltac:(lia)). rewrite length_app in Hj. simpl in Hj.
              by replace (length acc + S j)%nat with (length acc + 1 + j)%nat by lia.
           ++ eapply loop_outcome_shift; [|exact Hout]. by exists w, at', w1.
      * intros [= <- <-].
        exists 1%nat, (map (fun c => Call c cmd k a) (clients this)).
        split_and!; try done.
        -- apply issued_fan_out.
        -- rewrite calls_fan_out. lia.
        -- lia.
        -- intros j Hj. replace j with O by lia. by rewrite Nat.add_0_r.
        -- simpl. exists w. by rewrite Ha.
      * intros [= <- <-].
        exists 1%nat, (map (fun c => Call c cmd k a) (clients this)).
        split_and!; try done.
        -- apply issued_fan_out.
        -- rewrite calls_fan_out. lia.
        -- lia.
        -- intros j Hj. replace j with O by lia. by rewrite Nat.add_0_r.
        -- simpl. exists w. by rewrite Ha.
    + intros [= <- <-]. exists O, []. rewrite app_nil_r.
      split_and!; try done.
      * lia.
      * intros j Hj. lia.
      * simpl. exists []. rewrite app_nil_r, Nat.add_0_r. by split_and!.
Qed.


End Loop.

(** * The tally *)

Section Tally.

Lemma arrivals_perm {A} (choose : nat -> nat) (l : list A) :
  arrivals choose (length l) l ≡ₚ l.
Proof.
  remember (length l) as n eqn:Hn. revert l Hn.
  induction n as [|n IH]; intros l Hn.
  - destruct l; [done|discriminate].
  - simpl.
    assert (choose n mod length l < length l)%nat as Hlt
      by (apply Nat.mod_upper_bound; lia).
    destruct (lookup_lt_is_Some_2 _ _ Hlt) as [x Hx]. rewrite Hx.
    etrans; [|symmetry; apply (delete_Permutation l _ x Hx)]. constructor.
    apply IH. rewrite length_delete by eauto. lia.
Qed.

Lemma Map_set_fresh c e (m : list (Client * ClientError)) :
  c ∉ m.*1 -> Map_set c e m = m ++ [(c, e)].
Proof.
  induction m as [|[c' e'] m IH]; simpl; [done|].
  intros Hc. case_decide as Hd.
  - subst. set_solver.
  - rewrite IH; [done|]. set_solver.
Qed.

Lemma Map_set_length c e (m : list (Client * ClientError)) :
  (length (Map_set c e m) <= S (length m))%nat.
Proof.
  induction m as [|[c' e'] m IH]; simpl; [lia|].
  case_decide; simpl; lia.
Qed.

Lemma against_inv_step q m va t c e :
  (1 <= q)%nat -> c ∉ va.*1 ->
  against_inv q m va t ->
  against_inv q m (va ++ [(c, e)]) (onResult (against (c, e)) t).
Proof.
  intros Hq Hc (Hs & He & Hr & Hd). unfold against_inv, against, onResult, onResultResolve.
  simpl. rewrite Hs. simpl. rewrite Map_set_fresh by done.
  rewrite length_app. simpl. split_and!; [done|done| |].
  - destruct q as [|q]; [lia|]. simpl. rewrite Hr.
    destruct (Nat.eqb_spec (length va + 1) (S q)) as [Heq|Hne].
    + repeat case_bool_decide; simpl; try done; lia.
    + repeat case_bool_decide; simpl; try done; lia.
  - rewrite Hd. destruct (Nat.eqb_spec (length va + 1) m) as [Heq|Hne].
    + repeat case_bool_decide; simpl; try done; lia.
    + repeat case_bool_decide; simpl; try done; lia.
Qed.

Lemma against_inv_fold q m ces va t :
  (1 <= q)%nat -> NoDup (va.*1 ++ ces.*1) ->
  against_inv q m va t ->
  against_inv q m (va ++ ces) (fold_left (fun t r => onResult r t) (map against ces) t).
Proof.
  intros Hq. revert va t. induction ces as [|[c e] ces IH]; intros va t Hnd Hinv.
  - simpl. by rewrite app_nil_r.
  - simpl. replace (va ++ (c, e) :: ces) with ((va ++ [(c, e)]) ++ ces)
      by (by rewrite <- app_assoc).
    apply IH.
    + rewrite fmap_app. simpl. rewrite <- app_assoc. done.
    + apply against_inv_step; [done| |done].
      simpl in Hnd. apply NoDup_app in Hnd as (_ & Hnd & _).
      intros Hin. apply (Hnd c Hin). set_solver.
Qed.

(** When every client votes against, the attempt resolves "against" whatever
    the order of arrival, and its statistics hold one error per client. *)
Lemma tally_all_against (E : Env) (ces : list (Client * ClientError)) (w : World) :
  ces <> [] -> NoDup ces.*1 ->
  exists va,
    va ≡ₚ ces /\
    against_inv (length ces / 2 + 1) (length ces) va (tally E (map against ces) w) /\
    resolved (tally E (map against ces) w) = Some VoteAgainst /\
    completed (tally E (map against ces) w) = true.
Proof.
  intros Hne Hnd. unfold tally.
  pose proof (arrivals_perm (pick E (trace w)) (map against ces)) as Hp.
  apply Permutation_map_inv in Hp as (va & Hva & Hperm). symmetry in Hperm.
  rewrite Hva. rewrite length_map.
  assert (length va = length ces) as Hlen by (by rewrite Hperm).
  assert (length ces <> 0)%nat as Hn by (by destruct ces).
  assert (length ces / 2 < length ces)%nat as Hhalf
    by (apply Nat.div_lt; lia).
  assert (against_inv (length ces / 2 + 1) (length ces) ([] ++ va)
            (fold_left (fun t r => onResult r t) (map against va)
               (mkTally (initial_stats (length ces)) None false false))) as H.
  { apply against_inv_fold; [lia| |].
    - rewrite app_nil_l. by rewrite Hperm.
    - unfold against_inv, initial_stats. cbn [stats escaped resolved completed length].
      split_and!; try done.
      + by rewrite bool_decide_eq_false_2 by lia.
      + by rewrite bool_decide_eq_false_2 by lia. }
  rewrite app_nil_l in H.
  exists va. split; [done|]. split; [exact H|].
  destruct H as (_ & _ & Hr & Hd). rewrite Hr, Hd, Hlen.
  by rewrite !bool_decide_eq_true_2 by lia.
Qed.

End Tally.

(** * Operations every client votes against *)

Section AllAgainst.
Context (E : Env) (this : Redlock) (cmd : Script) (k : list string) (a : list Arg).
Context (P : ClientError -> Prop).
Hypothesis Hnd : NoDup (clients this).
Hypothesis Hne : clients this <> [].
Hypothesis Hag :
  forall h c, exists e, settle c k (respond E h c cmd k a) = Some (ResultAgainst c e) /\ P e.

Lemma results_all_against (cs : list Client) (rs : list (option ClientExecutionResult)) :
  Forall2 (fun c r => exists h, r = settle c k (respond E h c cmd k a)) cs rs ->
  exists ces, rs = map against ces /\ ces.*1 = cs /\ Forall (fun p => P p.2) ces.
Proof.
  induction 1 as [|c r cs rs [h Hr] _ (ces & -> & <- & Hf)].
  - by exists [].
  - destruct (Hag h c) as (e & He & HP). exists ((c, e) :: ces).
    split_and!; [|done|by constructor].
    simpl. unfold against at 1. simpl. by rewrite Hr, He.
Qed.

Lemma attempt_all_against (w : World) :
  exists at' w1,
    _attemptOperation E this cmd k a w = (Return at', w1) /\
    vote at' = VoteAgainst /\
    all_against this P (attempt_stats at').
Proof.
  destruct (attempt_spec E this cmd k a w) as (rs & em & Hf & Heq). simpl in Heq.
  destruct (results_all_against _ _ Hf) as (ces & -> & Hcs & HP).
  match type of Heq with context [tally E _ ?w1] =>
    destruct (tally_all_against E ces w1) as (va & Hperm & Hinv & Hr & Hd) end.
  { intros ->. by rewrite <- Hcs in Hne. }
  { by rewrite Hcs. }
  destruct Hinv as (Hs & He & _ & _).
  rewrite He, Hr, Hd in Heq. eexists _, _. split; [exact Heq|]. split; [done|].
  simpl. eexists. split; [done|]. rewrite Hs. simpl.
  rewrite <- Hcs, length_fmap. split_and!; try done.
  - by rewrite Hperm.
  - by rewrite Hperm.
Qed.

Lemma made_by_all_against (st : StatsPromise) :
  made_by E this cmd k a st -> all_against this P st.
Proof.
  intros (wa & at' & w1 & Ha & <-).
  destruct (attempt_all_against wa) as (at2 & w2 & Ha2 & _ & Hall). congruence.
Qed.

Lemma loop_all_against fuel s acc w o w' :
  attempt_loop E fuel this s cmd k a acc w = (o, w') ->
  exists n,
    heap w' = heap w /\
    calls (trace w') = (calls (trace w) + n * length (clients this))%nat /\
    (forall j, (j < n)%nat -> below (length acc + j) (maxAttempts s) = true) /\
    ((o = OutOfFuel /\ n = fuel) \/
     (exists sts, o = Throw (ExecutionError msg_quorum (acc ++ sts)) /\ length sts = n /\
                  Forall (all_against this P) sts /\
                  below (length acc + n) (maxAttempts s) = false)).
Proof.
  intros Hl. apply attempt_loop_summary in Hl
    as (n & new & Hh & Ht & _ & Hc & _ & Hb & Hout).
  exists n. split_and!; [done| |done|].
  { by rewrite Ht, calls_app, Hc. }
  destruct o as [r|e| | |]; simpl in Hout.
  - destruct Hout as (_ & _ & _ & _ & wa & at' & Ha & Hv & _).
    destruct (attempt_all_against wa) as (at2 & w2 & Ha2 & Hv2 & _). congruence.
  - destruct Hout as (sts & -> & Hlen & Hf & Hbf). right. exists sts.
    split_and!; try done. eapply Forall_impl; [exact Hf|]. apply made_by_all_against.
  - destruct Hout as [wa Hwa].
    destruct (attempt_all_against wa) as (at2 & w2 & Ha2 & _). by rewrite Ha2 in Hwa.
  - destruct Hout as [wa Hwa].
    destruct (attempt_all_against wa) as (at2 & w2 & Ha2 & _). by rewrite Ha2 in Hwa.
  - by left.
Qed.

(** With [retryCount = kk] the loop gives up after exactly [kk + 1] attempts. *)
Lemma loop_all_against_throws fuel s kk w :
  retryCount s == of_nat kk -> (kk + 2 <= fuel)%nat ->
  exists sts w',
    attempt_loop E fuel this s cmd k a [] w = (Throw (ExecutionError msg_quorum sts), w') /\
    length sts = (kk + 1)%nat /\
    Forall (all_against this P) sts /\
    heap w' = heap w /\
    calls (trace w') = (calls (trace w) + (kk + 1) * length (clients this))%nat.
Proof.
  intros Hk Hfuel.
  destruct (attempt_loop E fuel this s cmd k a [] w) as [o w'] eqn:Hl.
  apply loop_all_against in Hl as (n & Hh & Hc & Hb & Hcase).
  assert (n <= kk + 1)%nat as Hn.
  { destruct n as [|n]; [lia|]. specialize (Hb n ltac:(lia)).
    rewrite (below_retryCount s kk) in Hb by done. apply bool_decide_eq_true in Hb.
    simpl in Hb. lia. }
  destruct Hcase as [[-> ->]|(sts & -> & Hlen & Hf & Hbf)]; [lia|].
  rewrite (below_retryCount s kk) in Hbf by done. apply bool_decide_eq_false in Hbf.
  simpl in Hbf. assert (n = kk + 1)%nat as -> by lia.
  exists sts, w'. by split_and!.
Qed.

(** With [retryCount = -1] the loop goes on as long as the fuel lasts. *)
Lemma loop_all_against_unbounded fuel s w :
  retryCount s == -1 ->
  exists w',
    attempt_loop E fuel this s cmd k a [] w = (OutOfFuel, w') /\
    calls (trace w') = (calls (trace w) + fuel * length (clients this))%nat.
Proof.
  intros Hk.
  destruct (attempt_loop E fuel this s cmd k a [] w) as [o w'] eqn:Hl.
  apply loop_all_against in Hl as (n & Hh & Hc & Hb & Hcase).
  destruct Hcase as [[-> ->]|(sts & -> & Hlen & Hf & Hbf)].
  - by exists w'.
  - by rewrite below_unbounded in Hbf.
Qed.

End AllAgainst.

(** * The release script on a server *)

Lemma release_loop_nothing (d : Z) (v : string) (keys : list string) (count : nat)
    (st : gmap (Z * string) string) :
  (forall key, key ∈ keys -> st !! (d, key) <> Some v) ->
  fold_left
    (fun '(count, s) key =>
       if bool_decide (s !! (d, key) = Some v)
       then (S count, delete (d, key) s)
       else (count, s))
    keys (count, st) = (count, st).
Proof.
  induction keys as [|key keys IH]; intros Hk; [done|].
  simpl. rewrite bool_decide_eq_false_2 by (apply Hk; set_solver).
  apply IH. intros key' Hin. apply Hk. set_solver.
Qed.

Lemma release_loop_clean (d : Z) (v : string) (keys : list string) (count : nat)
    (st : gmap (Z * string) string) :
  let r := fold_left
             (fun '(count, s) key =>
                if bool_decide (s !! (d, key) = Some v)
                then (S count, delete (d, key) s)
                else (count, s))
             keys (count, st) in
  (forall key, key ∈ keys -> r.2 !! (d, key) <> Some v) /\
  (forall x, st !! x <> Some v -> r.2 !! x <> Some v).
Proof.
  revert count st. induction keys as [|key keys IH]; intros count st; simpl.
  - split; [set_solver|done].
  - case_bool_decide as Hv.
    + destruct (IH (S count) (delete (d, key) st)) as [Hin Hkeep]. split.
      * intros key' [->|Hk]%elem_of_cons; [|by apply Hin].
        apply Hkeep. by rewrite lookup_delete_eq.
      * intros x Hx. apply Hkeep. rewrite lookup_delete. by case_decide.
    + destruct (IH count st) as [Hin Hkeep]. split.
      * intros key' [->|Hk]%elem_of_cons; [|by apply Hin]. by apply Hkeep.
      * done.
Qed.

(** Right after a release, the same release finds nothing: the script
    answers 0 and leaves the keys as they are. *)
Lemma RELEASE_SCRIPT_again (st : gmap (Z * string) string) (KEYS : list string)
    (d : Arg) (v : string) :
  Redis.RELEASE_SCRIPT (Redis.RELEASE_SCRIPT st KEYS [d; ArgString v]).2 KEYS [d; ArgString v]
  = (ReplyNumber 0, (Redis.RELEASE_SCRIPT st KEYS [d; ArgString v]).2).
Proof.
  unfold Redis.RELEASE_SCRIPT.
  pose proof (release_loop_clean (Redis.DB_SELECT_SCRIPT d) v KEYS O st) as [Hclean _].
  destruct (fold_left _ KEYS (O, st)) as [count st'] eqn:Hf. simpl in *.
  by rewrite release_loop_nothing.
Qed.

(** * release *)

Lemma execute_merged E fuel this cmd k a _settings :
  _execute E fuel this cmd k a _settings =
  attempt_loop E fuel this (merged this _settings) cmd k a [].
Proof. by destruct _settings. Qed.

Lemma release_spec E fuel this lock _settings w L :
  heap w !! lock = Some L ->
  release E fuel this lock _settings w =
    _execute E fuel this releaseLock (Lock.resources L)
      [ArgNumber (db (settings this)); ArgString (Lock.value L)] _settings
      (mkWorld (<[lock := Lock.set_expiration 0 L]> (heap w)) (trace w) (emitted w) (ticks w)).
Proof.
  intros HL. unfold release, bind, assign_expiration, deref. rewrite HL. simpl.
  rewrite list_lookup_insert_eq by (by eapply lookup_lt_Some). done.
Qed.

Lemma settle_for_iff (c : Client) (keys : list string) (n : number) :
  (exists v, settle c keys (ReplyNumber n) = Some (ResultFor c v)) <->
  n == of_nat (length keys).
Proof.
  unfold settle. destruct (strict_ne n (of_nat (length keys))) eqn:Hn.
  - apply strict_ne_true in Hn. split; [by intros [v [=]]|done].
  - apply strict_ne_false in Hn. split; [done|]. by exists n.
Qed.

Lemma settle_zero (c : Client) (keys : list string) :
  keys <> [] ->
  settle c keys (ReplyNumber 0) =
    Some (ResultAgainst c (ResourceLockedError 0 (length keys))).
Proof.
  intros Hk. unfold settle.
  assert (strict_ne 0 (of_nat (length keys)) = true) as ->; [|done].
  apply strict_ne_true. intros H.
  assert (of_nat 0 < of_nat (length keys)) as Hlt
    by (apply of_nat_lt; destruct keys; simpl; [done|lia]).
  rewrite <- H in Hlt. by apply Qlt_irrefl in Hlt.
Qed.

(** C1 (as amended).  A reply counts as a vote "for" only when it equals the
    number of keys.  So when every server reports 0 keys deleted for a lock
    that has at least one resource, every server votes against with a
    [ResourceLockedError], and with [retryCount = kk] release throws
    [ExecutionError] after exactly [kk + 1] attempts; the lock stays
    invalidated. *)
Theorem C1_release_with_nothing_to_delete_raises
    (E : Env) (fuel : nat) (cs : list Client) (cfg : Partial.t) (this : Redlock)
    (lock : nat) (L : Lock.t) (_settings : option Partial.t) (kk : nat) (w : World) :
  Redlock_new cs cfg = inr this ->
  heap w !! lock = Some L ->
  Lock.resources L <> [] ->
  (forall h c args, respond E h c releaseLock (Lock.resources L) args = ReplyNumber 0) ->
  retryCount (merged this _settings) == of_nat kk ->
  (kk + 2 <= fuel)%nat ->
  (forall c n, (exists v, settle c (Lock.resources L) (ReplyNumber n) = Some (ResultFor c v))
               <-> n == of_nat (length (Lock.resources L))) /\
  exists sts w',
    release E fuel this lock _settings w = (Throw (ExecutionError msg_quorum sts), w') /\
    length sts = (kk + 1)%nat /\
    Forall (all_against this
              (fun e => e = ResourceLockedError 0 (length (Lock.resources L)))) sts /\
    calls (trace w') = (calls (trace w) + (kk + 1) * length (clients this))%nat /\
    Lock.expiration <$> heap w' !! lock = Some 0.
Proof.
  intros Hnew HL Hres Hzero Hk Hfuel. split; [intros c n; apply settle_for_iff|].
  apply Redlock_new_clients in Hnew as [Hcs Hne].
  rewrite (release_spec _ _ _ _ _ _ _ HL), execute_merged.
  match goal with |- context [attempt_loop E fuel this ?s ?cmd ?k ?a [] ?w0] =>
    destruct (loop_all_against_throws E this cmd k a
                (fun e => e = ResourceLockedError 0 (length (Lock.resources L)))
                ltac:(rewrite Hcs; apply Set_from_NoDup)
                ltac:(by rewrite Hcs)
                ltac:(intros h c; eexists; rewrite Hzero; split; [by apply settle_zero|done])
                fuel s kk w0 Hk Hfuel)
      as (sts & w' & Hl & Hlen & Hf & Hh & Hc) end.
  exists sts, w'. split_and!; try done.
  rewrite Hh. simpl. rewrite list_lookup_insert_eq by (by eapply lookup_lt_Some). done.
Qed.

Lemma C1_release_with_nothing_to_delete_raises_witness :
  exists sts w',
    release nothing_there 12 triple 0 None (world_with (a_lock triple 5000)) =
      (Throw (ExecutionError msg_quorum sts), w') /\
    length sts = 11%nat /\
    calls (trace w') = 33%nat.
Proof.
  destruct (C1_release_with_nothing_to_delete_raises nothing_there 12
              [0; 1; 2; 1]%nat Partial.empty triple 0 (a_lock triple 5000) None 10
              (world_with (a_lock triple 5000)))
    as (_ & sts & w' & Hr & Hlen & _ & Hc & _).
  - reflexivity.
  - reflexivity.
  - discriminate.
  - reflexivity.
  - reflexivity.
  - simpl. lia.
  - exists sts, w'. split; [exact Hr|]. split; [exact Hlen|exact Hc].
Defined.

(** C1 (as stated) fails: on a live server, after [acquire] and a first
    [release] that deleted the key, the second [release] gets the reply 0 in
    every attempt, counts it as a vote against and throws [ExecutionError]. *)
Lemma C1_second_release_raises :
  exists l w1 r w2 sts w3,
    acquire Redis.env 12 single ["r"%string] 1000 None empty_world = (Return l, w1) /\
    release Redis.env 12 single l None w1 = (Return r, w2) /\
    Redis.state_after (trace w2) 0%nat = ∅ /\
    release Redis.env 12 single l None w2 = (Throw (ExecutionError msg_quorum sts), w3) /\
    length sts = 11%nat /\
    Forall (fun st => exists s, st = Some s /\ votesFor s = [] /\
                                votesAgainst s = [(0%nat, ResourceLockedError 0 1)]) sts.
Proof.
  eexists _, _, _, _, _, _.
  split; [vm_compute; reflexivity|].
  split; [vm_compute; reflexivity|].
  split; [vm_compute; reflexivity|].
  split; [vm_compute; reflexivity|].
  split; [reflexivity|].
  repeat (constructor; [eexists; split; [reflexivity|split; reflexivity]|]).
  constructor.
Qed.

(** * acquire *)

Lemma acquire_not_integer E fuel this resources duration _settings w :
  ~ Math_floor duration == duration ->
  acquire E fuel this resources duration _settings w = (Throw (Error msg_duration), w).
Proof.
  intros H. unfold acquire. apply strict_ne_true in H. by rewrite H.
Qed.

Lemma acquire_integer E fuel this resources duration _settings w :
  Math_floor duration == duration ->
  acquire E fuel this resources duration _settings w =
    match _execute E fuel this acquireLock resources
            [ArgNumber (db (settings this)); ArgString (randomBytes E (ticks w));
             ArgNumber duration] _settings
            (mkWorld (heap w) (trace w) (emitted w) (S (ticks w))) with
    | (Return r, w1) =>
        (Return (length (heap w1)),
         mkWorld (heap w1 ++
                    [Lock.mk this resources (randomBytes E (ticks w)) (attempts r)
                       (start r + duration - drift this _settings duration) _settings])
                 (trace w1) (emitted w1) (ticks w1))
    | (Throw e, w1) =>
        match _execute E fuel this releaseLock resources
                [ArgNumber (db (settings this)); ArgString (randomBytes E (ticks w))]
                (Some (Partial.mk None (Some 0) None None None None)) w1 with
        | (Return _, w2) | (Throw _, w2) => (Throw e, w2)
        | (Pending, w2) => (Pending, w2)
        | (Unhandled, w2) => (Unhandled, w2)
        | (OutOfFuel, w2) => (OutOfFuel, w2)
        end
    | (Pending, w1) => (Pending, w1)
    | (Unhandled, w1) => (Unhandled, w1)
    | (OutOfFuel, w1) => (OutOfFuel, w1)
    end.
Proof.
  intros H. unfold acquire. apply strict_ne_false in H. rewrite H.
  unfold bind at 1. unfold sample at 1. unfold try_catch, bind.
  destruct (_execute E fuel this acquireLock _ _ _ _) as [[r|e| | |] w1]; try done.
  unfold catch_ignore.
  destruct (_execute E fuel this releaseLock _ _ _ _) as [[r'|e'| | |] w2]; done.
Qed.

Lemma execute_throws E fuel this cmd k a _settings w e w' :
  _execute E fuel this cmd k a _settings w = (Throw e, w') ->
  exists sts, e = ExecutionError msg_quorum sts.
Proof.
  rewrite execute_merged. intros H.
  apply attempt_loop_summary in H as (n & new & _ & _ & _ & _ & _ & _ & Hout).
  simpl in Hout. destruct Hout as (sts & -> & _). by eexists.
Qed.

Lemma execute_returns E fuel this cmd k a _settings w r w' :
  _execute E fuel this cmd k a _settings w = (Return r, w') ->
  heap w' = heap w /\ decisive E this cmd k a r w'.
Proof.
  rewrite execute_merged. intros H.
  apply attempt_loop_summary in H as (n & new & Hh & _ & _ & _ & _ & _ & Hout).
  simpl in Hout. destruct Hout as (sts & _ & _ & _ & Hd). done.
Qed.

(** C2 (as amended).  [acquire] fails at once with the "Duration must be an
    integer" error, leaving the world as it was (no server contacted), if and
    only if [Math.floor(duration) !== duration]; no lower bound is checked, so
    the durations 0 and -5 pass the test. *)
Theorem C2_acquire_rejects_exactly_non_integers
    (E : Env) (fuel : nat) (this : Redlock) (resources : list string)
    (duration : number) (_settings : option Partial.t) (w : World) :
  ((exists m w', acquire E fuel this resources duration _settings w = (Throw (Error m), w'))
   <-> ~ Math_floor duration == duration) /\
  (strict_ne (Math_floor duration) duration = true
   <-> acquire E fuel this resources duration _settings w = (Throw (Error msg_duration), w)) /\
  strict_ne (Math_floor 0) 0 = false /\
  strict_ne (Math_floor (-5)) (-5) = false.
Proof.
  assert (Math_floor duration == duration ->
          forall m w', acquire E fuel this resources duration _settings w
                       <> (Throw (Error m), w')) as Hint.
  { intros Hd m w'. rewrite acquire_integer by done.
    destruct (_execute E fuel this acquireLock _ _ _ _) as [[r|e| | |] w1] eqn:He; try done.
    apply execute_throws in He as [sts ->].
    destruct (_execute E fuel this releaseLock _ _ _ _) as [[r'|e'| | |] w2]; done. }
  split_and!; [| |done|done].
  - split.
    + intros (m & w' & H) Hd. by apply (Hint Hd m w').
    + intros Hd. exists msg_duration, w. by apply acquire_not_integer.
  - split.
    + intros Hd. apply acquire_not_integer. by apply strict_ne_true.
    + intros H. destruct (strict_ne (Math_floor duration) duration) eqn:Hd; [done|].
      apply strict_ne_false in Hd. by apply Hint in H.
Qed.

(** C2 (as stated) fails: with a mocked client, as in the unit tests,
    [acquire] with duration 0 succeeds after one remote command; on a live
    server [acquire] with duration -5 sends twelve remote commands and then
    throws [ExecutionError], not the duration error. *)
Lemma C2_zero_and_negative_durations_reach_the_servers :
  (exists l w',
     acquire all_fine 12 single ["resource1"%string] 0 None empty_world = (Return l, w') /\
     calls (trace w') = 1%nat) /\
  (exists sts w',
     acquire Redis.env 12 single ["r"%string] (-5) None empty_world
       = (Throw (ExecutionError msg_quorum sts), w') /\
     calls (trace w') = 12%nat).
Proof.
  split.
  - eexists _, _. split; vm_compute; reflexivity.
  - eexists _, _. split; vm_compute; reflexivity.
Qed.








(** * extend *)

Lemma extend_not_integer E fuel this existing duration _settings w :
  ~ Math_floor duration == duration ->
  extend E fuel this existing duration _settings w = (Throw (Error msg_duration), w).
Proof.
  intros H. unfold extend. apply strict_ne_true in H. by rewrite H.
Qed.

Lemma extend_integer E fuel this existing duration _settings w L :
  Math_floor duration == duration ->
  heap w !! existing = Some L ->
  extend E fuel this existing duration _settings w =
    if lt (Lock.expiration L) (Date_now E (ticks w))
    then (Throw (ExecutionError msg_expired []),
          mkWorld (heap w) (trace w) (emitted w) (S (ticks w)))
    else
      match _execute E fuel this extendLock (Lock.resources L)
              [ArgNumber (db (settings this)); ArgString (Lock.value L); ArgNumber duration]
              _settings (mkWorld (heap w) (trace w) (emitted w) (S (ticks w))) with
      | (Return r, w1) =>
          (Return (length (heap w1)),
           mkWorld (<[existing := Lock.set_expiration 0 L]> (heap w1) ++
                      [Lock.mk this (Lock.resources L) (Lock.value L) (attempts r)
                         (start r + duration - drift this _settings duration) _settings])
                   (trace w1) (emitted w1) (ticks w1))
      | (Throw e, w1) => (Throw e, w1)
      | (Pending, w1) => (Pending, w1)
      | (Unhandled, w1) => (Unhandled, w1)
      | (OutOfFuel, w1) => (OutOfFuel, w1)
      end.
Proof.
  intros Hd HL. unfold extend. apply strict_ne_false in Hd. rewrite Hd.
  unfold bind at 1. unfold deref at 1. rewrite HL.
  unfold bind at 1. unfold sample at 1.
  destruct (lt _ _); [done|]. unfold bind at 1.
  destruct (_execute E fuel this extendLock _ _ _ _) as [[r|e| | |] w1] eqn:He; try done.
  apply execute_returns in He as [Hh _]. simpl in Hh.
  unfold bind, assign_expiration, new_Lock. rewrite Hh, HL. simpl.
  by rewrite length_insert.
Qed.




(** C5 (as amended).  The duration test comes first: a duration that is not
    an integer makes [extend] throw the duration error whatever the lock.
    With an integer duration, a lock whose expiration is before the current
    time makes [extend] throw [ExecutionError] with the "already-expired"
    message and no attempts, without any remote command.  Whenever [extend]
    does not return a lock, the heap, and so the existing lock's expiration,
    is as before. *)
Theorem C5_extend_failure_leaves_the_lock
    (E : Env) (fuel : nat) (this : Redlock) (existing : nat) (duration : number)
    (_settings : option Partial.t) (w : World) (L : Lock.t) :
  heap w !! existing = Some L ->
  (~ Math_floor duration == duration ->
   extend E fuel this existing duration _settings w = (Throw (Error msg_duration), w)) /\
  (Math_floor duration == duration ->
   Lock.expiration L < Date_now E (ticks w) ->
   exists w',
     extend E fuel this existing duration _settings w
       = (Throw (ExecutionError msg_expired []), w') /\
     trace w' = trace w /\ heap w' = heap w) /\
  (forall o w',
     extend E fuel this existing duration _settings w = (o, w') ->
     (forall l', o <> Return l') ->
     heap w' = heap w /\ heap w' !! existing = Some L).
Proof.
  intros HL. split_and!.
  - apply extend_not_integer.
  - intros Hd Hexp. rewrite (extend_integer _ _ _ _ _ _ _ L) by done.
    apply lt_true in Hexp. rewrite Hexp. by eexists.
  - intros o w' H Hfail.
    assert (heap w' = heap w) as Hh; [|by rewrite Hh].
    destruct (strict_ne (Math_floor duration) duration) eqn:Hd.
    { apply strict_ne_true in Hd. rewrite extend_not_integer in H by done.
      by injection H as <- <-. }
    apply strict_ne_false in Hd. rewrite (extend_integer _ _ _ _ _ _ _ L) in H by done.
    destruct (lt _ _); [by injection H as <- <-|].
    destruct (_execute E fuel this extendLock _ _ _ _) as [[r|e| | |] w1] eqn:He.
    + injection H as <- <-. by destruct (Hfail (length (heap w1))).
    + injection H as <- <-. rewrite execute_merged in He.
      by apply attempt_loop_summary in He as (n & new & Hh & _).
    + injection H as <- <-. rewrite execute_merged in He.
      by apply attempt_loop_summary in He as (n & new & Hh & _).
    + injection H as <- <-. rewrite execute_merged in He.
      by apply attempt_loop_summary in He as (n & new & Hh & _).
    + injection H as <- <-. rewrite execute_merged in He.
      by apply attempt_loop_summary in He as (n & new & Hh & _).
Qed.

Lemma C5_extend_failure_leaves_the_lock_witness :
  (exists w',
     extend all_fine 12 single 0 1000 None (world_with (a_lock single 500))
       = (Throw (ExecutionError msg_expired []), w') /\
     trace w' = [] /\ heap w' = [a_lock single 500]) /\
  (exists sts w',
     extend nothing_there 12 single 0 1000 None (world_with (a_lock single 5000))
       = (Throw (ExecutionError msg_quorum sts), w') /\
     calls (trace w') = 11%nat /\
     heap w' !! 0%nat = Some (a_lock single 5000)).
Proof.
  split.
  - destruct (C5_extend_failure_leaves_the_lock all_fine 12 single 0 1000 None
                (world_with (a_lock single 500)) (a_lock single 500))
      as (_ & Hexpired & _); [reflexivity|].
    apply Hexpired; reflexivity.
  - destruct (C5_extend_failure_leaves_the_lock nothing_there 12 single 0 1000 None
                (world_with (a_lock single 5000)) (a_lock single 5000))
      as (_ & _ & Hfail); [reflexivity|].
    eexists _, _. split; [vm_compute; reflexivity|]. split; [reflexivity|].
    eapply Hfail; [vm_compute; reflexivity|]. discriminate.
Defined.

(** C5 (as stated) fails: [extend] of an expired lock with the duration 1/2
    throws the duration error, not [ExecutionError]. *)
Lemma C5_expired_lock_with_fractional_duration :
  lt (Lock.expiration (a_lock single 500)) (Date_now all_fine 0) = true /\
  extend all_fine 12 single 0 (1 # 2) None (world_with (a_lock single 500))
    = (Throw (Error msg_duration), world_with (a_lock single 500)) /\
  Error msg_duration <> ExecutionError msg_expired [].
Proof.
  split; [reflexivity|]. split; [reflexivity|]. discriminate.
Qed.

(** * Counting attempts *)

(** With [retryCount = kk] at most [kk + 1] attempts are made, whatever the
    servers answer; a returned result holds at most [kk + 1] statistics and
    a thrown error exactly [kk + 1]. *)
Lemma execute_at_most E fuel this cmd k a _settings kk w o w' :
  retryCount (merged this _settings) == of_nat kk ->
  _execute E fuel this cmd k a _settings w = (o, w') ->
  (calls (trace w') <= calls (trace w) + (kk + 1) * length (clients this))%nat /\
  match o with
  | Return r => (length (attempts r) <= kk + 1)%nat
  | Throw e => exists sts, e = ExecutionError msg_quorum sts /\ length sts = (kk + 1)%nat
  | _ => True
  end.
Proof.
  intros Hk. rewrite execute_merged. intros H.
  apply attempt_loop_summary in H as (n & new & _ & Ht & _ & Hc & _ & Hb & Hout).
  assert (n <= kk + 1)%nat as Hn.
  { destruct n as [|n]; [lia|]. specialize (Hb n ltac:(lia)).
    rewrite (below_retryCount _ kk) in Hb by done. apply bool_decide_eq_true in Hb.
    simpl in Hb. lia. }
  split.
  - rewrite Ht, calls_app, Hc. apply Nat.add_le_mono_l, Nat.mul_le_mono_r, Hn.
  - destruct o as [r|e| | |]; simpl in Hout; try done.
    + destruct Hout as (sts & -> & <- & _). simpl. lia.
    + destruct Hout as (sts & -> & <- & _ & Hbf). exists sts. split; [done|].
      rewrite (below_retryCount _ kk) in Hbf by done. apply bool_decide_eq_false in Hbf.
      simpl in Hbf. lia.
Qed.

(** When every attempt is decided against (every client votes against), the
    operation with [retryCount = kk] throws after exactly [kk + 1] attempts,
    and with [retryCount = -1] it never stops. *)
Lemma execute_all_against E fuel this cmd k a _settings w :
  NoDup (clients this) -> clients this <> [] ->
  (forall h c, exists e, settle c k (respond E h c cmd k a) = Some (ResultAgainst c e)) ->
  (forall kk, retryCount (merged this _settings) == of_nat kk -> (kk + 2 <= fuel)%nat ->
     exists sts w',
       _execute E fuel this cmd k a _settings w = (Throw (ExecutionError msg_quorum sts), w') /\
       length sts = (kk + 1)%nat /\
       calls (trace w') = (calls (trace w) + (kk + 1) * length (clients this))%nat) /\
  (retryCount (merged this _settings) == -1 ->
     exists w',
       _execute E fuel this cmd k a _settings w = (OutOfFuel, w') /\
       calls (trace w') = (calls (trace w) + fuel * length (clients this))%nat).
Proof.
  intros Hnd Hne Hag. rewrite execute_merged. split.
  - intros kk Hk Hfuel.
    destruct (loop_all_against_throws E this cmd k a (fun _ => True) Hnd Hne
                ltac:(intros h c; destruct (Hag h c) as [e He]; by exists e)
                fuel _ kk w Hk Hfuel) as (sts & w' & Hl & Hlen & _ & _ & Hc).
    by exists sts, w'.
  - intros Hk.
    apply (loop_all_against_unbounded E this cmd k a (fun _ => True) Hnd Hne
             ltac:(intros h c; destruct (Hag h c) as [e He]; by exists e)
             fuel _ w Hk).
Qed.

(** C6.  The code at the failing input: two clients, [retryCount = 0], one
    reports all the keys and the other none.  No attempt reaches a quorum
    "for", yet nothing is thrown: the only attempt never resolves and the
    operation stays pending after its two remote commands.  (With three
    clients of which two vote against, the same call throws after one
    attempt.) *)
Theorem C6_split_vote_never_throws :
  let once := Some (Partial.mk None (Some 0) None None None None) in
  (exists w',
     acquire split_vote 12 pair ["r"%string] 1000 once empty_world = (Pending, w') /\
     calls (trace w') = 2%nat) /\
  (exists st w',
     acquire split_vote 12 triple ["r"%string] 1000 once empty_world
       = (Throw (ExecutionError msg_quorum [st]), w')).
Proof.
  split.
  - eexists. split; vm_compute; reflexivity.
  - eexists _, _. vm_compute. reflexivity.
Qed.

(** * The tally of any attempt *)

Lemma onResult_sizes (r : option ClientExecutionResult) (t : Tally) :
  membershipSize (stats (onResult r t)) = membershipSize (stats t) /\
  quorumSize (stats (onResult r t)) = quorumSize (stats t) /\
  (length (votesFor (stats (onResult r t))) + length (votesAgainst (stats (onResult r t)))
   <= S (length (votesFor (stats t)) + length (votesAgainst (stats t))))%nat.
Proof.
  destruct r as [[c v|c e]|]; simpl; split_and!; try done; try lia.
  - pose proof (Set_add_length c (votesFor (stats t))). lia.
  - pose proof (Map_set_length c e (votesAgainst (stats t))). lia.
Qed.

Lemma fold_sizes (l : list (option ClientExecutionResult)) (t : Tally) :
  membershipSize (stats (fold_left (fun t r => onResult r t) l t)) = membershipSize (stats t) /\
  quorumSize (stats (fold_left (fun t r => onResult r t) l t)) = quorumSize (stats t) /\
  (length (votesFor (stats (fold_left (fun t r => onResult r t) l t)))
   + length (votesAgainst (stats (fold_left (fun t r => onResult r t) l t)))
   <= length (votesFor (stats t)) + length (votesAgainst (stats t)) + length l)%nat.
Proof.
  revert t. induction l as [|r l IH]; intros t; simpl.
  - split_and!; try done. lia.
  - destruct (IH (onResult r t)) as (Hm & Hq & Hle).
    destruct (onResult_sizes r t) as (Hm' & Hq' & Hle').
    rewrite Hm, Hq. split_and!; try done. lia.
Qed.

(** A promise resolves once: later votes do not change the decision. *)
Lemma resolved_stable (l : list (option ClientExecutionResult)) (t : Tally) (v : Vote) :
  resolved t = Some v ->
  resolved (fold_left (fun t r => onResult r t) l t) = Some v.
Proof.
  revert t. induction l as [|r l IH]; intros t Hv; [done|].
  simpl. apply IH. destruct r as [cr|]; [|done].
  unfold onResult, onResultResolve. cbn [resolved]. rewrite Hv.
  repeat (destruct (_ =? _)%nat); done.
Qed.

(** At every moment of an attempt over [N] answers: the quorum is
    [N / 2 + 1], the votes counted are at most [N], and "for" and "against"
    are never both at the quorum. *)
Lemma tally_prefix_bound (E : Env) (rs : list (option ClientExecutionResult))
    (w : World) (j : nat) :
  let t := fold_left (fun t r => onResult r t)
             (take j (arrivals (pick E (trace w)) (length rs) rs))
             (mkTally (initial_stats (length rs)) None false false) in
  membershipSize (stats t) = length rs /\
  quorumSize (stats t) = (length rs / 2 + 1)%nat /\
  (length (votesFor (stats t)) + length (votesAgainst (stats t)) <= length rs)%nat /\
  ~ ((quorumSize (stats t) <= length (votesFor (stats t)))%nat /\
     (quorumSize (stats t) <= length (votesAgainst (stats t)))%nat).
Proof.
  intros t. subst t.
  match goal with |- context [fold_left ?f ?l ?t0] =>
    destruct (fold_sizes l t0) as (Hm & Hq & Hle) end.
  rewrite Hm, Hq.
  cbn [initial_stats stats membershipSize quorumSize votesFor votesAgainst length] in *.
  assert (length (take j (arrivals (pick E (trace w)) (length rs) rs)) <= length rs)%nat as Hlen.
  { rewrite length_take, (Permutation_length (arrivals_perm _ rs)). lia. }
  pose proof (Nat.div_mod_eq (length rs) 2) as Hdiv.
  pose proof (Nat.mod_upper_bound (length rs) 2 ltac:(lia)) as Hmod.
  split_and!; try done; lia.
Qed.

(** C7.  The code at the failing input: two clients, one reports all the
    keys and the other none.  All votes are in, one for and one against, the
    quorum is 2, neither [resolve] is called, and the attempt stays pending:
    it resolves with no decision. *)
Theorem C7_split_vote_never_resolves :
  tally split_vote
    [settle 0%nat ["r"%string] (ReplyNumber 1); settle 1%nat ["r"%string] (ReplyNumber 0)]
    empty_world
  = mkTally (mkStats 2 2 [0%nat] [(1%nat, ResourceLockedError 0 1)]) None true false /\
  exists w',
    _attemptOperation split_vote pair acquireLock ["r"%string]
      [ArgNumber 0; ArgString "lock_value"; ArgNumber 1000] empty_world = (Pending, w') /\
    calls (trace w') = 2%nat.
Proof.
  split; [vm_compute; reflexivity|].
  eexists. split; vm_compute; reflexivity.
Qed.

(** * release invalidates first *)

Lemma execute_frame E fuel this cmd k a _settings w :
  heap (snd (_execute E fuel this cmd k a _settings w)) = heap w /\
  exists new,
    trace (snd (_execute E fuel this cmd k a _settings w)) = trace w ++ new /\
    Forall (issued this cmd k a) new.
Proof.
  rewrite execute_merged.
  destruct (attempt_loop E fuel this _ cmd k a [] w) as [o w'] eqn:H.
  apply attempt_loop_summary in H as (n & new & Hh & Ht & Hi & _). simpl. eauto.
Qed.

(** C8.  [release] first sets the lock's expiration to 0, with the trace of
    remote commands as it was; the rest of [release] is the quorum operation
    run from that world, which never changes the heap: the expiration is 0
    whatever the outcome. *)
Theorem C8_release_invalidates_before_contact
    (E : Env) (fuel : nat) (this : Redlock) (lock : nat) (_settings : option Partial.t)
    (w : World) (L : Lock.t) :
  heap w !! lock = Some L ->
  exists w0,
    assign_expiration lock 0 w = (Return tt, w0) /\
    trace w0 = trace w /\
    Lock.expiration <$> heap w0 !! lock = Some 0 /\
    release E fuel this lock _settings w =
      _execute E fuel this releaseLock (Lock.resources L)
        [ArgNumber (db (settings this)); ArgString (Lock.value L)] _settings w0 /\
    heap (snd (release E fuel this lock _settings w)) = heap w0 /\
    Lock.expiration <$> heap (snd (release E fuel this lock _settings w)) !! lock = Some 0.
Proof.
  intros HL. pose proof (lookup_lt_Some _ _ _ HL) as Hlt.
  eexists. split.
  { unfold assign_expiration. rewrite HL. reflexivity. }
  simpl. rewrite list_lookup_insert_eq by done. simpl.
  split; [done|]. split; [done|].
  rewrite (release_spec _ _ _ _ _ _ L HL). split; [done|].
  destruct (execute_frame E fuel this releaseLock (Lock.resources L)
              [ArgNumber (db (settings this)); ArgString (Lock.value L)] _settings
              (mkWorld (<[lock := Lock.set_expiration 0 L]> (heap w)) (trace w)
                       (emitted w) (ticks w))) as [Hh _].
  rewrite Hh. simpl. split; [done|]. by rewrite list_lookup_insert_eq.
Qed.

Lemma C8_release_invalidates_before_contact_witness :
  (exists r,
     fst (release all_fine 12 single 0 None (world_with (a_lock single 5000))) = Return r) /\
  Lock.expiration <$>
    heap (snd (release all_fine 12 single 0 None (world_with (a_lock single 5000))))
      !! 0%nat = Some 0 /\
  (exists e,
     fst (release nothing_there 12 single 0 None (world_with (a_lock single 5000))) = Throw e) /\
  Lock.expiration <$>
    heap (snd (release nothing_there 12 single 0 None (world_with (a_lock single 5000))))
      !! 0%nat = Some 0.
Proof.
  destruct (C8_release_invalidates_before_contact all_fine 12 single 0 None
              (world_with (a_lock single 5000)) (a_lock single 5000))
    as (w0 & _ & _ & _ & _ & _ & Hok); [reflexivity|].
  destruct (C8_release_invalidates_before_contact nothing_there 12 single 0 None
              (world_with (a_lock single 5000)) (a_lock single 5000))
    as (w1 & _ & _ & _ & _ & _ & Hko); [reflexivity|].
  split; [eexists; vm_compute; reflexivity|]. split; [exact Hok|].
  split; [eexists; vm_compute; reflexivity|]. exact Hko.
Defined.

(** * The database index *)

Lemma issued_sends_db this cmd k d rest e :
  issued this cmd k (ArgNumber d :: rest) e -> sends_db d e.
Proof.
  destruct e as [c s k' a'|ms]; simpl; [|done]. by intros (_ & _ & _ & ->).
Qed.

Lemma execute_sends_db E fuel this cmd k d rest _settings w :
  exists new,
    trace (snd (_execute E fuel this cmd k (ArgNumber d :: rest) _settings w))
      = trace w ++ new /\
    Forall (sends_db d) new.
Proof.
  destruct (execute_frame E fuel this cmd k (ArgNumber d :: rest) _settings w)
    as (_ & new & Ht & Hi).
  exists new. split; [done|]. eapply Forall_impl; [exact Hi|].
  intros e. apply issued_sends_db.
Qed.

(** The loop reads only [retryCount], [retryDelay] and [retryJitter]. *)
Lemma attempt_loop_ext E fuel this s1 s2 cmd k a acc w :
  retryCount s1 = retryCount s2 -> retryDelay s1 = retryDelay s2 ->
  retryJitter s1 = retryJitter s2 ->
  attempt_loop E fuel this s1 cmd k a acc w = attempt_loop E fuel this s2 cmd k a acc w.
Proof.
  intros Hc Hd Hj. revert acc w. induction fuel as [|fuel IH]; intros acc w; [done|].
  rewrite !attempt_loop_step.
  assert (maxAttempts s1 = maxAttempts s2) as Hm by (unfold maxAttempts; by rewrite Hc).
  assert (forall w1, wait E s1 w1 = wait E s2 w1) as Hw
    by (intros w1; unfold wait, bind, sample, log; simpl; by rewrite Hd, Hj).
  rewrite Hm. destruct (below (length acc) _); [|done].
  destruct (_attemptOperation E this cmd k a w) as [[at'|e| | |] w1]; try done.
  destruct (vote at'); [done|]. rewrite Hw. apply IH.
Qed.

Lemma execute_with_db E fuel this cmd k a over d w :
  _execute E fuel this cmd k a (Some (Partial.with_db d over)) w =
  _execute E fuel this cmd k a (Some over) w.
Proof. unfold _execute. by apply attempt_loop_ext. Qed.

Lemma acquire_sends_db E fuel this resources duration _settings w :
  exists new,
    trace (snd (acquire E fuel this resources duration _settings w)) = trace w ++ new /\
    Forall (sends_db (db (settings this))) new.
Proof.
  destruct (strict_ne (Math_floor duration) duration) eqn:Hd.
  { apply strict_ne_true in Hd. rewrite acquire_not_integer by done.
    exists []. by rewrite app_nil_r. }
  apply strict_ne_false in Hd. rewrite acquire_integer by done.
  match goal with |- context [_execute E fuel this acquireLock ?k (ArgNumber ?d :: ?rest) ?s ?w0] =>
    destruct (execute_sends_db E fuel this acquireLock k d rest s w0) as (new & Ht & Hf);
    destruct (_execute E fuel this acquireLock k (ArgNumber d :: rest) s w0)
      as [[r|e| | |] w1] eqn:He end; simpl in Ht; try (by exists new).
  match goal with |- context [_execute E fuel this releaseLock ?k (ArgNumber ?d :: ?rest) ?s w1] =>
    destruct (execute_sends_db E fuel this releaseLock k d rest s w1) as (new2 & Ht2 & Hf2);
    destruct (_execute E fuel this releaseLock k (ArgNumber d :: rest) s w1)
      as [[r'|e'| | |] w2] end; simpl in *;
    exists (new ++ new2); (split; [by rewrite Ht2, Ht, app_assoc | by apply Forall_app]).
Qed.

Lemma release_sends_db E fuel this lock _settings w :
  exists new,
    trace (snd (release E fuel this lock _settings w)) = trace w ++ new /\
    Forall (sends_db (db (settings this))) new.
Proof.
  destruct (heap w !! lock) as [L|] eqn:HL.
  - rewrite (release_spec _ _ _ _ _ _ L HL).
    match goal with |- context [_execute E fuel this releaseLock ?k (ArgNumber ?d :: ?rest) ?s ?w0] =>
      destruct (execute_sends_db E fuel this releaseLock k d rest s w0) as (new & Ht & Hf) end.
    by exists new.
  - unfold release, bind, assign_expiration. rewrite HL. simpl.
    exists []. by rewrite app_nil_r.
Qed.

Lemma extend_sends_db E fuel this existing duration _settings w :
  exists new,
    trace (snd (extend E fuel this existing duration _settings w)) = trace w ++ new /\
    Forall (sends_db (db (settings this))) new.
Proof.
  destruct (strict_ne (Math_floor duration) duration) eqn:Hd.
  { apply strict_ne_true in Hd. rewrite extend_not_integer by done.
    exists []. by rewrite app_nil_r. }
  apply strict_ne_false in Hd.
  destruct (heap w !! existing) as [L|] eqn:HL.
  - rewrite (extend_integer _ _ _ _ _ _ _ L) by done.
    destruct (lt _ _); [exists []; by rewrite app_nil_r|].
    match goal with |- context [_execute E fuel this extendLock ?k (ArgNumber ?d :: ?rest) ?s ?w0] =>
      destruct (execute_sends_db E fuel this extendLock k d rest s w0) as (new & Ht & Hf);
      destruct (_execute E fuel this extendLock k (ArgNumber d :: rest) s w0)
        as [[r|e| | |] w1] end; simpl in Ht; by exists new.
  - unfold extend, bind, deref. apply strict_ne_false in Hd. rewrite Hd, HL. simpl.
    exists []. by rewrite app_nil_r.
Qed.

(** C9.  Every remote command of [acquire], [release] and [extend] carries
    the instance's [settings.db] as its first argument, whatever the
    per-call settings; and changing the [db] of the per-call settings changes
    neither the commands sent nor what [release] returns. *)
Theorem C9_db_argument_is_the_instance_db
    (E : Env) (fuel : nat) (this : Redlock) (_settings : option Partial.t) (w : World) :
  (forall resources duration,
     exists new,
       trace (snd (acquire E fuel this resources duration _settings w)) = trace w ++ new /\
       Forall (sends_db (db (settings this))) new) /\
  (forall lock,
     exists new,
       trace (snd (release E fuel this lock _settings w)) = trace w ++ new /\
       Forall (sends_db (db (settings this))) new) /\
  (forall existing duration,
     exists new,
       trace (snd (extend E fuel this existing duration _settings w)) = trace w ++ new /\
       Forall (sends_db (db (settings this))) new) /\
  (forall over d resources duration,
     trace (snd (acquire E fuel this resources duration (Some (Partial.with_db d over)) w))
     = trace (snd (acquire E fuel this resources duration (Some over) w))) /\
  (forall over d lock,
     release E fuel this lock (Some (Partial.with_db d over)) w
     = release E fuel this lock (Some over) w) /\
  (forall over d existing duration,
     trace (snd (extend E fuel this existing duration (Some (Partial.with_db d over)) w))
     = trace (snd (extend E fuel this existing duration (Some over) w))).
Proof.
  split_and!.
  - intros. apply acquire_sends_db.
  - intros. apply release_sends_db.
  - intros. apply extend_sends_db.
  - intros over d resources duration.
    destruct (strict_ne (Math_floor duration) duration) eqn:Hd.
    { apply strict_ne_true in Hd. by rewrite !acquire_not_integer. }
    apply strict_ne_false in Hd. rewrite !acquire_integer by done.
    rewrite execute_with_db.
    destruct (_execute E fuel this acquireLock _ _ _ _) as [[r|e| | |] w1]; done.
  - intros over d lock. unfold release, bind.
    destruct (assign_expiration lock 0 w) as [[[]|e| | |] w0]; try done.
    destruct (deref lock w0) as [[L|e| | |] w1]; try done.
    apply execute_with_db.
  - intros over d existing duration.
    destruct (strict_ne (Math_floor duration) duration) eqn:Hd.
    { apply strict_ne_true in Hd. by rewrite !extend_not_integer. }
    apply strict_ne_false in Hd.
    destruct (heap w !! existing) as [L|] eqn:HL.
    + rewrite !(extend_integer _ _ _ _ _ _ _ L) by done.
      destruct (lt _ _); [done|]. rewrite execute_with_db.
      destruct (_execute E fuel this extendLock _ _ _ _) as [[r|e| | |] w1]; done.
    + unfold extend, bind, deref. apply strict_ne_false in Hd. by rewrite Hd, HL.
Qed.

(** A per-call [db] of 7 on an instance with [db] 0: the command carries 0. *)
Example db_override_is_ignored :
  trace (snd (release all_fine 12 single 0
                (Some (Partial.with_db (Some 7) Partial.empty))
                (world_with (a_lock single 5000))))
  = [Call 0%nat releaseLock ["resource1"%string] [ArgNumber 0; ArgString "lock_value"]].
Proof. reflexivity. Qed.

(** * The decision of an attempt *)

Section Decision.

Lemma Set_add_fresh (c : Client) (s : list Client) : c ∉ s -> Set_add c s = s ++ [c].
Proof. intros H. unfold Set_add. by rewrite decide_False. Qed.

Lemma decision_step_for (q f a : nat) :
  (f + 1 + a < 2 * q)%nat ->
  (if (a =? q)%nat
   then resolve VoteAgainst
          (if (f + 1 =? q)%nat then resolve VoteFor (decision q f a) else decision q f a)
   else if (f + 1 =? q)%nat then resolve VoteFor (decision q f a) else decision q f a)
  = decision q (f + 1) a.
Proof.
  intros H. unfold decision, resolve.
  destruct (Nat.eqb_spec a q), (Nat.eqb_spec (f + 1) q);
    destruct (Nat.leb_spec q f), (Nat.leb_spec q a), (Nat.leb_spec q (f + 1));
    try done; lia.
Qed.

Lemma decision_step_against (q f a : nat) :
  (f + (a + 1) < 2 * q)%nat ->
  (if (a + 1 =? q)%nat
   then resolve VoteAgainst
          (if (f =? q)%nat then resolve VoteFor (decision q f a) else decision q f a)
   else if (f =? q)%nat then resolve VoteFor (decision q f a) else decision q f a)
  = decision q f (a + 1).
Proof.
  intros H. unfold decision, resolve.
  destruct (Nat.eqb_spec (a + 1) q), (Nat.eqb_spec f q);
    destruct (Nat.leb_spec q f), (Nat.leb_spec q a), (Nat.leb_spec q (a + 1));
    try done; lia.
Qed.

Lemma counted_step q m fl al t r :
  (m < 2 * q)%nat ->
  (length fl + length al + 1 <= m)%nat ->
  voter r ∉ fl -> voter r ∉ al.*1 ->
  counted q m fl al t ->
  counted q m (fl ++ fors [r]) (al ++ againsts [r]) (onResult (Some r) t).
Proof.
  intros Hq Hm Hfl Hal (Hs & He & Hr & Hd).
  unfold counted, onResult, onResultResolve. rewrite Hs, Hr, Hd.
  destruct r as [c v|c e]; simpl in *.
  - rewrite Set_add_fresh by done. rewrite !app_nil_r, length_app. simpl.
    split_and!; [done|done| |].
    + apply decision_step_for. lia.
    + destruct (Nat.eqb_spec (length fl + 1 + length al) m);
        repeat case_bool_decide; try done; lia.
  - rewrite Map_set_fresh by done. rewrite !app_nil_r, length_app. simpl.
    split_and!; [done|done| |].
    + apply decision_step_against. lia.
    + destruct (Nat.eqb_spec (length fl + (length al + 1)) m);
        repeat case_bool_decide; try done; lia.
Qed.

Lemma counted_fold q m l fl al t :
  (m < 2 * q)%nat ->
  (length fl + length al + length l <= m)%nat ->
  NoDup (map voter l) ->
  (forall r, r ∈ l -> (voter r ∉ fl) /\ (voter r ∉ al.*1)) ->
  counted q m fl al t ->
  counted q m (fl ++ fors l) (al ++ againsts l)
    (fold_left (fun t r => onResult r t) (map Some l) t).
Proof.
  intros Hq. revert fl al t. induction l as [|r l IH]; intros fl al t Hm Hnd Hfresh Hc.
  - simpl. by rewrite !app_nil_r.
  - simpl in Hm. apply NoDup_cons in Hnd as [Hr Hnd].
    destruct (Hfresh r ltac:(set_solver)) as [Hrf Hra].
    pose proof (counted_step q m fl al t r Hq ltac:(lia) Hrf Hra Hc) as Hstep.
    replace (fl ++ fors (r :: l)) with ((fl ++ fors [r]) ++ fors l)
      by (rewrite <- app_assoc; f_equal; unfold fors; simpl; by destruct r).
    replace (al ++ againsts (r :: l)) with ((al ++ againsts [r]) ++ againsts l)
      by (rewrite <- app_assoc; f_equal; unfold againsts; simpl; by destruct r).
    simpl. apply IH; [|done| |done].
    + rewrite !length_app. destruct r; simpl; lia.
    + intros r' Hr'. destruct (Hfresh r' ltac:(set_solver)) as [Hf' Ha'].
      assert (voter r' <> voter r) as Hne.
      { intros Heq. apply Hr. rewrite <- Heq. apply list_elem_of_fmap. eauto. }
      rewrite fmap_app. destruct r as [c v|c e]; simpl in *; set_solver.
Qed.

Lemma fors_againsts_length (l : list ClientExecutionResult) :
  (length (fors l) + length (againsts l) = length l)%nat.
Proof.
  induction l as [|[c v|c e] l IH]; simpl; [done| |];
    unfold fors, againsts in *; simpl; lia.
Qed.

(** The tally of settled answers from distinct clients: whatever the order of
    arrival, all votes are counted once and the decision is read off the
    two counts. *)
Lemma tally_decision (E : Env) (l : list ClientExecutionResult) (w : World) :
  l <> [] -> NoDup (map voter l) ->
  exists l',
    l' ≡ₚ l /\
    counted (length l / 2 + 1) (length l) (fors l') (againsts l')
      (tally E (map Some l) w).
Proof.
  intros Hne Hnd. unfold tally.
  assert (length l <> 0)%nat as Hn by (by destruct l).
  pose proof (arrivals_perm (pick E (trace w)) (map Some l)) as Hp.
  apply Permutation_map_inv in Hp as (l' & Hl' & Hperm). symmetry in Hperm.
  rewrite Hl', length_map. exists l'. split; [done|].
  assert (length l' = length l) as Hlen by (by rewrite Hperm).
  pose proof (Nat.div_mod_eq (length l) 2) as Hdiv.
  pose proof (Nat.mod_upper_bound (length l) 2 ltac:(lia)) as Hmod.
  apply (counted_fold (length l / 2 + 1) (length l) l' [] []).
  - lia.
  - simpl. lia.
  - by rewrite Hperm.
  - intros r _. split; set_solver.
  - unfold counted, initial_stats, decision.
    cbn [stats escaped resolved completed length]. split_and!; try done.
    + destruct (Nat.leb_spec (length l / 2 + 1) 0); [lia|done].
    + by rewrite bool_decide_eq_false_2 by lia.
Qed.

End Decision.

(** * Attempts whose answers all settle *)

Lemma call_all_full E cs s k a w :
  exists rs,
    call_all E cs s k a w =
      (Return rs,
       mkWorld (heap w) (trace w ++ map (fun c => Call c s k a) cs)
               (emitted w ++ concat (map emission rs)) (ticks w)) /\
    Forall2 (fun c r => exists h, r = settle c k (respond E h c s k a)) cs rs.
Proof.
  revert w. induction cs as [|c cs IH]; intros w.
  - exists []. split; [|constructor].
    simpl. unfold ret. by rewrite !app_nil_r; destruct w.
  - simpl. unfold bind at 1. rewrite call_client_spec.
    unfold bind at 1.
    match goal with |- context [call_all E cs s k a ?w1] =>
      destruct (IH w1) as (rs & Hc & Hf) end.
    rewrite Hc. simpl.
    eexists (_ :: rs). split.
    + unfold ret. simpl. f_equal. f_equal; by rewrite <- app_assoc.
    + constructor; [eauto | done].
Qed.

Lemma attempt_full E this s k a w :
  exists rs,
    let w1 := mkWorld (heap w) (trace w ++ map (fun c => Call c s k a) (clients this))
                      (emitted w ++ concat (map emission rs)) (S (ticks w)) in
    Forall2 (fun c r => exists h, r = settle c k (respond E h c s k a)) (clients this) rs /\
    _attemptOperation E this s k a w =
      (if escaped (tally E rs w1) then Unhandled
       else match resolved (tally E rs w1) with
            | Some v =>
                Return (mkAttempt v
                          (if completed (tally E rs w1) then Some (stats (tally E rs w1))
                           else None)
                          (Date_now E (ticks w)))
            | None => Pending
            end, w1).
Proof.
  unfold _attemptOperation, bind, sample. simpl.
  match goal with |- context [call_all E ?cs s k a ?w0] =>
    destruct (call_all_full E cs s k a w0) as (rs & Hc & Hf) end.
  exists rs. simpl in *. rewrite Hc. split; [done|].
  destruct (escaped _); [done|]. by destruct (resolved _).
Qed.

Lemma emission_settled (l : list ClientExecutionResult) :
  concat (map emission (map Some l)) = (againsts l).*2.
Proof.
  induction l as [|[c v|c e] l IH]; simpl; [done| |].
  - exact IH.
  - unfold againsts in *. simpl. by rewrite IH.
Qed.

Section Settled.
Context (E : Env) (this : Redlock) (cmd : Script) (k : list string) (a : list Arg).
Hypothesis Hnd : NoDup (clients this).
Hypothesis Hne : clients this <> [].
Hypothesis Hset : forall h c, respond E h c cmd k a <> ReplyNonError.

Lemma results_settled (cs : list Client) (rs : list (option ClientExecutionResult)) :
  Forall2 (fun c r => exists h, r = settle c k (respond E h c cmd k a)) cs rs ->
  exists l,
    rs = map Some l /\ map voter l = cs /\
    Forall2 (fun c r => exists h, settle c k (respond E h c cmd k a) = Some r) cs l.
Proof.
  induction 1 as [|c r cs rs [h Hr] _ (l & -> & <- & Hf)].
  - by exists [].
  - pose proof (Hset h c) as Hs.
    destruct (settle c k (respond E h c cmd k a)) as [cr|] eqn:Hcr.
    + exists (cr :: l). subst r. split_and!; [done| |constructor; eauto].
      simpl. f_equal. unfold settle in Hcr.
      destruct (respond E h c cmd k a); [destruct (strict_ne _ _)| | |];
        by inversion Hcr.
    + unfold settle in Hcr.
      destruct (respond E h c cmd k a); [destruct (strict_ne _ _)| | |]; done.
Qed.

(** The outcome of an attempt is decided by how many clients voted for and
    how many against. *)
Lemma attempt_verdict (w : World) :
  exists l l',
    l' ≡ₚ l /\
    map voter l = clients this /\
    Forall2 (fun c r => exists h, settle c k (respond E h c cmd k a) = Some r)
      (clients this) l /\
    _attemptOperation E this cmd k a w =
      (match decision (length (clients this) / 2 + 1)
               (length (fors l)) (length (againsts l)) with
       | Some v =>
           Return (mkAttempt v
                     (Some (mkStats (length (clients this))
                                    (length (clients this) / 2 + 1)
                                    (fors l') (againsts l')))
                     (Date_now E (ticks w)))
       | None => Pending
       end,
       mkWorld (heap w) (trace w ++ map (fun c => Call c cmd k a) (clients this))
               (emitted w ++ (againsts l).*2) (S (ticks w))).
Proof.
  destruct (attempt_full E this cmd k a w) as (rs & Hf & Heq). cbv zeta in Heq.
  destruct (results_settled _ _ Hf) as (l & -> & Hcs & Hl).
  rewrite emission_settled in Heq.
  assert (length l = length (clients this)) as Hlen by (by rewrite <- Hcs, length_map).
  match type of Heq with context [tally E _ ?w1] =>
    destruct (tally_decision E l w1) as (l' & Hperm & Hs & He & Hr & Hd) end.
  { intros ->. by rewrite <- Hcs in Hne. }
  { by rewrite Hcs. }
  exists l, l'. split; [done|]. split; [done|]. split; [done|].
  rewrite Heq, He, Hr, Hd, Hs, Hlen.
  assert (length (fors l') = length (fors l)) as -> by (unfold fors; by rewrite Hperm).
  assert (length (againsts l') = length (againsts l)) as ->
    by (unfold againsts; by rewrite Hperm).
  rewrite bool_decide_eq_true_2 by (rewrite fors_againsts_length; lia).
  by destruct (decision _ _ _).
Qed.

End Settled.

(** * The constructor *)

Lemma decision_none_even (n f a : nat) :
  (f + a = n)%nat -> decision (n / 2 + 1) f a = None -> n = (2 * (n / 2))%nat.
Proof.
  intros Hn. unfold decision.
  destruct (Nat.leb_spec (n / 2 + 1) f); [done|].
  destruct (Nat.leb_spec (n / 2 + 1) a); [done|]. intros _.
  pose proof (Nat.div_mod_eq n 2). lia.
Qed.

Lemma decision_some (q f a : nat) (v : Vote) :
  decision q f a = Some v ->
  match v with VoteFor => (q <= f)%nat | VoteAgainst => (q <= a)%nat end.
Proof.
  unfold decision. destruct (Nat.leb_spec q f); [by intros [= <-]|].
  destruct (Nat.leb_spec q a); [by intros [= <-]|done].
Qed.

(** An attempt of an instance with distinct clients, when every answer
    settles: one command per client, and statistics that count every client,
    unless the vote is tied. *)
Lemma attempt_sizes (E : Env) (this : Redlock) (script : Script) (keys : list string)
    (args : list Arg) (w : World) :
  NoDup (clients this) -> clients this <> [] ->
  (forall h c, respond E h c script keys args <> ReplyNonError) ->
  let N := length (clients this) in
  trace (snd (_attemptOperation E this script keys args w))
    = trace w ++ map (fun c => Call c script keys args) (clients this) /\
  ((exists v st,
      fst (_attemptOperation E this script keys args w)
        = Return (mkAttempt v (Some st) (Date_now E (ticks w))) /\
      membershipSize st = N /\
      quorumSize st = (N / 2 + 1)%nat /\
      (length (votesFor st) + length (votesAgainst st) = N)%nat /\
      match v with
      | VoteFor => (quorumSize st <= length (votesFor st))%nat
      | VoteAgainst => (quorumSize st <= length (votesAgainst st))%nat
      end)
   \/
   (fst (_attemptOperation E this script keys args w) = Pending /\
    N = (2 * (N / 2))%nat)).
Proof.
  intros Hnd Hne Hset N.
  destruct (attempt_verdict E this script keys args Hnd Hne Hset w)
    as (l & l' & Hperm & Hcs & _ & Heq).
  assert (length l = N) as Hlen by (subst N; by rewrite <- Hcs, length_map).
  pose proof (fors_againsts_length l) as Hl.
  assert (length (fors l') = length (fors l)) as Hf by (unfold fors; by rewrite Hperm).
  assert (length (againsts l') = length (againsts l)) as Ha
    by (unfold againsts; by rewrite Hperm).
  rewrite Heq. fold N.
  destruct (decision (N / 2 + 1) (length (fors l)) (length (againsts l))) as [v|] eqn:Hd;
    cbn [fst snd trace]; (split; [done|]).
  - left. eexists v, _. split; [reflexivity|]. cbn [membershipSize quorumSize votesFor votesAgainst].
    split; [done|]. split; [done|]. split; [lia|].
    apply decision_some in Hd. rewrite Hf, Ha. exact Hd.
  - right. split; [done|]. eapply decision_none_even; [|exact Hd]. lia.
Qed.

(** C10.  The constructor keeps each client once: it throws exactly when the
    set of clients is empty, which happens exactly when the list is empty;
    otherwise the instance's clients are the distinct clients of the list.
    Every attempt of the instance whose answers all settle sends one command
    to each distinct client, and either resolves with statistics whose
    [membershipSize] is the number of distinct clients, whose [quorumSize] is
    its half, rounded down, plus one, and which count every distinct client
    once, or is left pending by a tie between an even number of them.
    Three references to one client give an instance with one client, every
    attempt of which resolves with N = 1 and quorum 1 after one command. *)
Theorem C10_constructor_keeps_distinct_clients
    (E : Env) (cs : list Client) (cfg : Partial.t) :
  (Set_from cs = [] <-> cs = []) /\
  NoDup (Set_from cs) /\
  (forall c, c ∈ Set_from cs <-> c ∈ cs) /\
  match Redlock_new cs cfg with
  | inl e => e = Error msg_no_client /\ Set_from cs = []
  | inr this =>
      clients this = Set_from cs /\ Set_from cs <> [] /\
      forall script keys args w,
        (forall h c, respond E h c script keys args <> ReplyNonError) ->
        let N := length (Set_from cs) in
        trace (snd (_attemptOperation E this script keys args w))
          = trace w ++ map (fun c => Call c script keys args) (Set_from cs) /\
        ((exists v st,
            fst (_attemptOperation E this script keys args w)
              = Return (mkAttempt v (Some st) (Date_now E (ticks w))) /\
            membershipSize st = N /\
            quorumSize st = (N / 2 + 1)%nat /\
            (length (votesFor st) + length (votesAgainst st) = N)%nat /\
            match v with
            | VoteFor => (quorumSize st <= length (votesFor st))%nat
            | VoteAgainst => (quorumSize st <= length (votesAgainst st))%nat
            end)
         \/
         (fst (_attemptOperation E this script keys args w) = Pending /\
          N = (2 * (N / 2))%nat))
  end /\
  (forall c : Client,
     Set_from [c; c; c] = [c] /\
     exists this, Redlock_new [c; c; c] cfg = inr this /\ clients this = [c] /\
       forall script keys args w,
         (forall h c', respond E h c' script keys args <> ReplyNonError) ->
         exists v st,
           fst (_attemptOperation E this script keys args w)
             = Return (mkAttempt v (Some st) (Date_now E (ticks w))) /\
           membershipSize st = 1%nat /\
           quorumSize st = 1%nat /\
           (length (votesFor st) + length (votesAgainst st) = 1)%nat /\
           trace (snd (_attemptOperation E this script keys args w))
           = trace w ++ [Call c script keys args]).
Proof.
  split; [apply Set_from_nil|]. split; [apply Set_from_NoDup|].
  split; [intros c; apply Set_from_elem|]. split.
  - destruct (Redlock_new cs cfg) as [e|this] eqn:Hnew.
    + unfold Redlock_new in Hnew. destruct (Set_from cs); simpl in Hnew; [|done].
      by injection Hnew as <-.
    + apply Redlock_new_clients in Hnew as [Hcs Hne]. split; [done|]. split; [done|].
      intros script keys args w Hset. rewrite <- Hcs.
      apply attempt_sizes; [rewrite Hcs; apply Set_from_NoDup|by rewrite Hcs|done].
  - intros c.
    assert (Set_from [c; c; c] = [c]) as Hset.
    { unfold Set_from, Set_add. simpl.
      rewrite (decide_True (P := c ∈ [c])) by set_solver.
      by rewrite (decide_True (P := c ∈ [c])) by set_solver. }
    split; [done|]. unfold Redlock_new. rewrite Hset. cbn [length Nat.eqb].
    eexists. split; [reflexivity|]. split; [done|].
    intros script keys args w Hsettle.
    match goal with |- context [_attemptOperation E ?this script keys args w] =>
      destruct (attempt_sizes E this script keys args w) as [Ht Hcase];
      [repeat constructor; set_solver|done|done|] end.
    cbn [clients length map] in Ht, Hcase.
    destruct Hcase as [(v & st & Ha & Hm & Hq & Hn & _)|[_ Hodd]]; [|done].
    exists v, st. by split_and!.
Qed.

Lemma C10_constructor_keeps_distinct_clients_witness :
  exists this v st,
    Redlock_new [0%nat; 0%nat; 0%nat] Partial.empty = inr this /\
    clients this = [0%nat] /\
    fst (_attemptOperation all_fine this acquireLock ["r"%string] [] empty_world)
      = Return (mkAttempt v (Some st) (Date_now all_fine 0)) /\
    membershipSize st = 1%nat /\
    quorumSize st = 1%nat.
Proof.
  destruct (C10_constructor_keeps_distinct_clients all_fine [0%nat; 0%nat; 0%nat]
              Partial.empty) as (_ & _ & _ & _ & Hthree).
  destruct (Hthree 0%nat) as (_ & this & Hnew & Hcs & Hatt).
  destruct (Hatt acquireLock ["r"%string] [] empty_world) as (v & st & Ha & Hm & Hq & _).
  - intros h c'. discriminate.
  - exists this, v, st. split; [exact Hnew|]. split; [exact Hcs|].
    split; [exact Ha|]. split; [exact Hm|exact Hq].
Defined.


Lemma accepts_settle E cmd k c h a r :
  accepts E cmd k c -> settle c k (respond E h c cmd k a) = Some r ->
  exists v, r = ResultFor c v.
Proof.
  intros Hacc Hr. destruct (Hacc h a) as (n & Hn & Heq). rewrite Hn in Hr.
  unfold settle in Hr. apply strict_ne_false in Heq. rewrite Heq in Hr.
  injection Hr as <-. by exists n.
Qed.

Lemma refuses_settle E cmd k c h a r :
  refuses E cmd k c -> settle c k (respond E h c cmd k a) = Some r ->
  exists e, r = ResultAgainst c e.
Proof.
  intros Href Hr. specialize (Href h a). unfold settle in Hr.
  destruct (respond E h c cmd k a) as [n|ty|m|]; [| | |done].
  - apply strict_ne_true in Href. rewrite Href in Hr. injection Hr as <-. by eexists.
  - injection Hr as <-. by eexists.
  - injection Hr as <-. by eexists.
Qed.

Lemma fors_accepting E cmd k a cs l good :
  Forall2 (fun c r => exists h, settle c k (respond E h c cmd k a) = Some r) cs l ->
  NoDup good -> (forall c, c ∈ good -> c ∈ cs /\ accepts E cmd k c) ->
  (forall c, c ∈ good -> c ∈ fors l) /\ (length good <= length (fors l))%nat.
Proof.
  intros Hf Hnd Hgood.
  assert (forall c, c ∈ good -> c ∈ fors l) as Hsub.
  { intros c Hc. destruct (Hgood c Hc) as [Hcs Hacc].
    apply list_elem_of_lookup in Hcs as [i Hi].
    destruct (Forall2_lookup_l _ _ _ _ _ Hf Hi) as (r & Hr & h & Hs).
    destruct (accepts_settle _ _ _ _ _ _ _ Hacc Hs) as [v ->].
    apply list_elem_of_omap. exists (ResultFor c v). split; [|done].
    apply list_elem_of_lookup. eauto. }
  split; [done|]. by apply submseteq_length, NoDup_submseteq.
Qed.

Lemma againsts_refusing E cmd k a cs l bad :
  Forall2 (fun c r => exists h, settle c k (respond E h c cmd k a) = Some r) cs l ->
  NoDup bad -> (forall c, c ∈ bad -> c ∈ cs /\ refuses E cmd k c) ->
  (forall c, c ∈ bad -> c ∈ (againsts l).*1) /\ (length bad <= length (againsts l))%nat.
Proof.
  intros Hf Hnd Hbad.
  assert (forall c, c ∈ bad -> c ∈ (againsts l).*1) as Hsub.
  { intros c Hc. destruct (Hbad c Hc) as [Hcs Href].
    apply list_elem_of_lookup in Hcs as [i Hi].
    destruct (Forall2_lookup_l _ _ _ _ _ Hf Hi) as (r & Hr & h & Hs).
    destruct (refuses_settle _ _ _ _ _ _ _ Href Hs) as [e ->].
    apply list_elem_of_fmap. exists (c, e). split; [done|].
    apply list_elem_of_omap. exists (ResultAgainst c e). split; [|done].
    apply list_elem_of_lookup. eauto. }
  split; [done|]. rewrite <- (length_fmap fst (againsts l)).
  by apply submseteq_length, NoDup_submseteq.
Qed.

(** X1.  When the clients are distinct, every answer settles (no client
    rejects with something that is not an [Error]) and a quorum of the
    clients accept, an attempt resolves "for", whatever the remaining clients
    vote and in whatever order the answers arrive; its statistics, complete
    once every client has answered, count every client once and hold the
    accepting clients in [votesFor].  Nothing is said of the moment at which
    the attempt resolves. *)
Theorem X1_quorum_of_accepting_clients_wins
    (E : Env) (this : Redlock) (cmd : Script) (k : list string) (a : list Arg)
    (good : list Client) (w : World) :
  NoDup (clients this) ->
  settles E cmd k ->
  NoDup good ->
  (forall c, c ∈ good -> c ∈ clients this /\ accepts E cmd k c) ->
  (length (clients this) / 2 + 1 <= length good)%nat ->
  exists at' st w1,
    _attemptOperation E this cmd k a w = (Return at', w1) /\
    vote at' = VoteFor /\
    attempt_stats at' = Some st /\
    (forall c, c ∈ good -> c ∈ votesFor st) /\
    (length (votesFor st) + length (votesAgainst st) = length (clients this))%nat /\
    membershipSize st = length (clients this) /\
    quorumSize st = (length (clients this) / 2 + 1)%nat.
Proof.
  intros Hnd Hset Hgnd Hgood Hq.
  assert (clients this <> []) as Hne.
  { intros Hnil. rewrite Hnil in Hq. simpl in Hq. destruct good as [|c good]; [simpl in Hq; lia|].
    destruct (Hgood c ltac:(set_solver)) as [Hc _]. rewrite Hnil in Hc. set_solver. }
  destruct (attempt_verdict E this cmd k a Hnd Hne ltac:(intros h c; apply Hset) w)
    as (l & l' & Hperm & Hcs & Hf & Heq).
  destruct (fors_accepting _ _ _ _ _ _ good Hf Hgnd Hgood) as [Hsub Hlen].
  unfold decision in Heq.
  destruct (Nat.leb_spec (length (clients this) / 2 + 1) (length (fors l))); [|lia].
  eexists _, _, _. split; [exact Heq|]. split; [done|]. split; [reflexivity|].
  cbn [votesFor votesAgainst membershipSize quorumSize]. split_and!; try done.
  - intros c Hc. unfold fors. rewrite Hperm. by apply Hsub.
  - rewrite fors_againsts_length, Hperm, <- Hcs. by rewrite length_map.
Qed.

Lemma X1_quorum_of_accepting_clients_wins_witness :
  exists at' w1,
    _attemptOperation one_down triple acquireLock ["r"%string]
      [ArgNumber 0; ArgString "v"; ArgNumber 1000] empty_world = (Return at', w1) /\
    vote at' = VoteFor.
Proof.
  destruct (X1_quorum_of_accepting_clients_wins one_down triple acquireLock ["r"%string]
              [ArgNumber 0; ArgString "v"; ArgNumber 1000] [0; 1]%nat empty_world)
    as (at' & st & w1 & Ha & Hv & _).
  - simpl. repeat constructor; set_solver.
  - intros h c a. simpl. destruct (c =? 2)%nat; discriminate.
  - repeat constructor; set_solver.
  - intros c Hc. split; [simpl; set_solver|].
    intros h a. simpl. exists 1.
    assert ((c =? 2)%nat = false) as -> by (apply Nat.eqb_neq; set_solver).
    split; reflexivity.
  - simpl. lia.
  - by exists at', w1.
Defined.

(** X2.  When the clients are distinct, every answer settles (no client
    rejects with something that is not an [Error]) and a quorum of the
    clients refuse (answer a number other than the number of keys, answer
    something that is not a number, or fail with an error), an attempt
    resolves "against", whatever the remaining clients vote and in whatever
    order the answers arrive; its statistics, complete once every client has
    answered, count every client once and hold the refusing clients in
    [votesAgainst].  Nothing is said of the moment at which the attempt
    resolves. *)
Theorem X2_quorum_of_refusing_clients_loses
    (E : Env) (this : Redlock) (cmd : Script) (k : list string) (a : list Arg)
    (bad : list Client) (w : World) :
  NoDup (clients this) ->
  settles E cmd k ->
  NoDup bad ->
  (forall c, c ∈ bad -> c ∈ clients this /\ refuses E cmd k c) ->
  (length (clients this) / 2 + 1 <= length bad)%nat ->
  exists at' st w1,
    _attemptOperation E this cmd k a w = (Return at', w1) /\
    vote at' = VoteAgainst /\
    attempt_stats at' = Some st /\
    (forall c, c ∈ bad -> c ∈ (votesAgainst st).*1) /\
    (length (votesFor st) + length (votesAgainst st) = length (clients this))%nat.
Proof.
  intros Hnd Hset Hbnd Hbad Hq.
  assert (clients this <> []) as Hne.
  { intros Hnil. rewrite Hnil in Hq. simpl in Hq. destruct bad as [|c bad]; [simpl in Hq; lia|].
    destruct (Hbad c ltac:(set_solver)) as [Hc _]. rewrite Hnil in Hc. set_solver. }
  destruct (attempt_verdict E this cmd k a Hnd Hne ltac:(intros h c; apply Hset) w)
    as (l & l' & Hperm & Hcs & Hf & Heq).
  destruct (againsts_refusing _ _ _ _ _ _ bad Hf Hbnd Hbad) as [Hsub Hlen].
  pose proof (fors_againsts_length l) as Hsum.
  assert (length l = length (clients this)) as Hl by (by rewrite <- Hcs, length_map).
  pose proof (Nat.div_mod_eq (length (clients this)) 2) as Hdiv.
  pose proof (Nat.mod_upper_bound (length (clients this)) 2 ltac:(lia)) as Hmod.
  unfold decision in Heq.
  destruct (Nat.leb_spec (length (clients this) / 2 + 1) (length (fors l))); [lia|].
  destruct (Nat.leb_spec (length (clients this) / 2 + 1) (length (againsts l))); [|lia].
  eexists _, _, _. split; [exact Heq|]. split; [done|]. split; [reflexivity|].
  cbn [votesFor votesAgainst membershipSize quorumSize]. split.
  - intros c Hc. unfold againsts. rewrite Hperm. by apply Hsub.
  - by rewrite fors_againsts_length, Hperm.
Qed.

Lemma X2_quorum_of_refusing_clients_loses_witness :
  exists at' w1,
    _attemptOperation split_vote triple acquireLock ["r"%string]
      [ArgNumber 0; ArgString "v"; ArgNumber 1000] empty_world = (Return at', w1) /\
    vote at' = VoteAgainst.
Proof.
  destruct (X2_quorum_of_refusing_clients_loses split_vote triple acquireLock ["r"%string]
              [ArgNumber 0; ArgString "v"; ArgNumber 1000] [1; 2]%nat empty_world)
    as (at' & st & w1 & Ha & Hv & _).
  - simpl. repeat constructor; set_solver.
  - intros h c a. simpl. destruct (c =? 0)%nat; discriminate.
  - repeat constructor; set_solver.
  - intros c Hc. split; [simpl; set_solver|].
    intros h a. simpl.
    assert ((c =? 0)%nat = false) as -> by (apply Nat.eqb_neq; set_solver).
    discriminate.
  - simpl. lia.
  - by exists at', w1.
Defined.

(** * Ties, odd memberships and the shape of the trace *)

Lemma may_attempt_below (s : Settings) : may_attempt s <-> below 0 (maxAttempts s) = true.
Proof.
  unfold may_attempt, maxAttempts. destruct (strict_eq (retryCount s) (-1)) eqn:Hm.
  - apply strict_eq_true in Hm. simpl. split; [done|by left].
  - simpl. rewrite lt_true. change (of_nat 0) with 0. split.
    + intros [H|H].
      * apply strict_eq_true in H. congruence.
      * lra.
    + intros H. right. lra.
Qed.

(** X3.  With an even number of clients, half of which accept and half of
    which refuse, an attempt sends its commands and never resolves: the
    operation makes no second attempt and throws nothing, whatever the retry
    settings. *)
Theorem X3_tie_leaves_the_operation_pending
    (E : Env) (fuel : nat) (this : Redlock) (cmd : Script) (k : list string) (a : list Arg)
    (_settings : option Partial.t) (good bad : list Client) (w : World) :
  NoDup (clients this) ->
  settles E cmd k ->
  NoDup good -> NoDup bad ->
  (forall c, c ∈ good -> c ∈ clients this /\ accepts E cmd k c) ->
  (forall c, c ∈ bad -> c ∈ clients this /\ refuses E cmd k c) ->
  length good = length bad ->
  (length good + length bad = length (clients this))%nat ->
  good <> [] ->
  may_attempt (merged this _settings) ->
  exists w1,
    _attemptOperation E this cmd k a w = (Pending, w1) /\
    _execute E (S fuel) this cmd k a _settings w = (Pending, w1) /\
    trace w1 = trace w ++ map (fun c => Call c cmd k a) (clients this).
Proof.
  intros Hnd Hset Hgnd Hbnd Hgood Hbad Heven Hsum Hgne Hmay.
  assert (clients this <> []) as Hne.
  { intros Hnil. rewrite Hnil in Hsum. simpl in Hsum. destruct good; [done|simpl in Hsum; lia]. }
  destruct (attempt_verdict E this cmd k a Hnd Hne ltac:(intros h c; apply Hset) w)
    as (l & l' & Hperm & Hcs & Hf & Heq).
  destruct (fors_accepting _ _ _ _ _ _ good Hf Hgnd Hgood) as [_ Hlg].
  destruct (againsts_refusing _ _ _ _ _ _ bad Hf Hbnd Hbad) as [_ Hlb].
  pose proof (fors_againsts_length l) as Hl.
  assert (length l = length (clients this)) as Hlen by (by rewrite <- Hcs, length_map).
  assert (length (clients this) / 2 = length good)%nat as Hhalf.
  { rewrite <- Hsum, <- Heven. replace (length good + length good)%nat
      with (length good * 2)%nat by lia. by apply Nat.div_mul. }
  unfold decision in Heq. rewrite Hhalf in Heq.
  destruct (Nat.leb_spec (length good + 1) (length (fors l))); [lia|].
  destruct (Nat.leb_spec (length good + 1) (length (againsts l))); [lia|].
  eexists. split; [exact Heq|]. split; [|done].
  rewrite execute_merged, attempt_loop_step.
  apply may_attempt_below in Hmay. simpl. rewrite Hmay. by rewrite Heq.
Qed.

Lemma X3_tie_leaves_the_operation_pending_witness :
  exists w1,
    _execute split_vote 12 pair acquireLock ["r"%string]
      [ArgNumber 0; ArgString "v"; ArgNumber 1000] None empty_world = (Pending, w1).
Proof.
  destruct (X3_tie_leaves_the_operation_pending split_vote 11 pair acquireLock ["r"%string]
              [ArgNumber 0; ArgString "v"; ArgNumber 1000] None [0%nat] [1%nat] empty_world)
    as (w1 & _ & He & _).
  - simpl. repeat constructor; set_solver.
  - intros h c a. simpl. destruct (c =? 0)%nat; discriminate.
  - repeat constructor; set_solver.
  - repeat constructor; set_solver.
  - intros c Hc. split; [simpl; set_solver|].
    intros h a. simpl. exists 1.
    assert (c = 0%nat) as -> by set_solver. split; reflexivity.
  - intros c Hc. split; [simpl; set_solver|].
    intros h a. simpl. assert (c = 1%nat) as -> by set_solver. discriminate.
  - reflexivity.
  - reflexivity.
  - discriminate.
  - right. reflexivity.
  - by exists w1.
Defined.

Lemma attempt_resolves_odd E this cmd k a w :
  NoDup (clients this) -> settles E cmd k ->
  Nat.Odd (length (clients this)) ->
  exists at' w1, _attemptOperation E this cmd k a w = (Return at', w1).
Proof.
  intros Hnd Hset [h Hodd].
  assert (clients this <> []) as Hne by (intros Hnil; rewrite Hnil in Hodd; simpl in Hodd; lia).
  destruct (attempt_verdict E this cmd k a Hnd Hne ltac:(intros ? c; apply Hset) w)
    as (l & l' & Hperm & Hcs & Hf & Heq).
  pose proof (fors_againsts_length l) as Hl.
  assert (length l = length (clients this)) as Hlen by (by rewrite <- Hcs, length_map).
  assert (length (clients this) / 2 = h)%nat as Hhalf.
  { rewrite Hodd. replace (2 * h + 1)%nat with (1 + h * 2)%nat by lia.
    rewrite Nat.div_add by lia. done. }
  unfold decision in Heq. rewrite Hhalf in Heq.
  destruct (Nat.leb_spec (h + 1) (length (fors l))); [by eexists _, _|].
  destruct (Nat.leb_spec (h + 1) (length (againsts l))); [by eexists _, _|]. lia.
Qed.

(** X4.  With an odd number of clients whose answers all settle, every
    attempt resolves, and an operation with [retryCount = kk] and enough fuel
    ends: it returns a result with at most [kk + 1] statistics or throws
    [ExecutionError] with exactly [kk + 1]. *)
Theorem X4_odd_membership_always_decides
    (E : Env) (fuel : nat) (this : Redlock) (cmd : Script) (k : list string) (a : list Arg)
    (_settings : option Partial.t) (kk : nat) (w : World) :
  NoDup (clients this) ->
  settles E cmd k ->
  Nat.Odd (length (clients this)) ->
  retryCount (merged this _settings) == of_nat kk ->
  (kk + 2 <= fuel)%nat ->
  (exists at' w1, _attemptOperation E this cmd k a w = (Return at', w1)) /\
  ((exists r w', _execute E fuel this cmd k a _settings w = (Return r, w') /\
                 (1 <= length (attempts r) <= kk + 1)%nat) \/
   (exists sts w', _execute E fuel this cmd k a _settings w
                   = (Throw (ExecutionError msg_quorum sts), w') /\
                   length sts = (kk + 1)%nat)).
Proof.
  intros Hnd Hset Hodd Hk Hfuel. split; [by apply attempt_resolves_odd|].
  destruct (_execute E fuel this cmd k a _settings w) as [o w'] eqn:He.
  pose proof (execute_at_most _ _ _ _ _ _ _ _ _ _ _ Hk He) as [_ Hat].
  rewrite execute_merged in He.
  apply attempt_loop_summary in He as (n & new & _ & _ & _ & _ & Hn & Hb & Hout).
  destruct o as [r|e| | |]; simpl in Hout.
  - left. exists r, w'. split; [done|]. split; [|done].
    destruct Hout as (sts & Hatt & Hlen & _ & wa & at' & _ & _ & _ & _ & Hlast).
    rewrite Hatt in Hlast |- *. simpl in *. destruct sts; [done|simpl; lia].
  - right. destruct Hat as (sts & -> & Hlen). by exists sts, w'.
  - destruct Hout as [wa Hwa].
    destruct (attempt_resolves_odd E this cmd k a wa Hnd Hset Hodd) as (at' & w1 & Ha).
    by rewrite Ha in Hwa.
  - destruct Hout as [wa Hwa].
    destruct (attempt_resolves_odd E this cmd k a wa Hnd Hset Hodd) as (at' & w1 & Ha).
    by rewrite Ha in Hwa.
  - subst n. destruct fuel as [|fuel]; [lia|]. specialize (Hb fuel ltac:(lia)).
    rewrite (below_retryCount _ kk) in Hb by done. apply bool_decide_eq_true in Hb.
    simpl in Hb. lia.
Qed.

Lemma X4_odd_membership_always_decides_witness :
  (exists sts w',
     _execute split_vote 12 triple acquireLock ["r"%string]
       [ArgNumber 0; ArgString "v"; ArgNumber 1000] None empty_world
     = (Throw (ExecutionError msg_quorum sts), w')) \/
  (exists r w',
     _execute split_vote 12 triple acquireLock ["r"%string]
       [ArgNumber 0; ArgString "v"; ArgNumber 1000] None empty_world = (Return r, w')).
Proof.
  destruct (X4_odd_membership_always_decides split_vote 12 triple acquireLock ["r"%string]
              [ArgNumber 0; ArgString "v"; ArgNumber 1000] None 10 empty_world)
    as [_ [(r & w' & He & _)|(sts & w' & He & _)]].
  - simpl. repeat constructor; set_solver.
  - intros h c a. simpl. destruct (c =? 0)%nat; discriminate.
  - exists 1%nat. reflexivity.
  - reflexivity.
  - simpl. lia.
  - right. by exists r, w'.
  - left. by exists sts, w'.
Defined.

(** * acquire at its best and at its worst *)




Lemma execute_once E fuel this cmd k a w o w' :
  _execute E fuel this cmd k a once w = (o, w') ->
  match o with
  | Return _ | Throw _ => heap w' = heap w /\ trace w' = trace w ++ fan_out this cmd k a
  | _ => True
  end.
Proof.
  rewrite execute_merged. destruct fuel as [|fuel]; [by intros [= <- <-]|].
  rewrite attempt_loop_step. change (length (@nil StatsPromise)) with 0%nat.
  assert (below 0 (maxAttempts (merged this once)) = true) as -> by reflexivity.
  destruct (_attemptOperation E this cmd k a w) as [oa w1] eqn:Ha.
  apply attempt_cases in Ha as (Hh & Ht & _ & Hs).
  destruct oa as [at'|e| | |]; try done; try (by intros [= <- <-]).
  destruct (vote at').
  - by intros [= <- <-].
  - change (length ([] ++ [attempt_stats at'])) with 1%nat.
    assert (below 1 (maxAttempts (merged this once)) = false) as -> by reflexivity.
    destruct fuel as [|fuel]; [by intros [= <- <-]|].
    rewrite attempt_loop_step.
    change (length ([] ++ [attempt_stats at'])) with 1%nat.
    assert (below 1 (maxAttempts (merged this once)) = false) as -> by reflexivity.
    by intros [= <- <-].
Qed.




(** X6.  Whenever [acquire] with an integer duration throws, the error is the
    [ExecutionError] of the acquisition itself with its statistics, no lock
    has been created, and the last thing sent is exactly one [releaseLock]
    per client for the same resources and the same random value: one cleanup
    attempt whose own result is ignored. *)
Theorem X6_failed_acquire_cleans_up_once
    (E : Env) (fuel : nat) (this : Redlock) (resources : list string) (duration : number)
    (_settings : option Partial.t) (w : World) (e : JSError) (w' : World) :
  Math_floor duration == duration ->
  acquire E fuel this resources duration _settings w = (Throw e, w') ->
  heap w' = heap w /\
  exists sts pre,
    e = ExecutionError msg_quorum sts /\
    Forall (made_by E this acquireLock resources
              [ArgNumber (db (settings this)); ArgString (randomBytes E (ticks w));
               ArgNumber duration]) sts /\
    Forall (issued this acquireLock resources
              [ArgNumber (db (settings this)); ArgString (randomBytes E (ticks w));
               ArgNumber duration]) pre /\
    trace w' = trace w ++ pre ++
      fan_out this releaseLock resources
        [ArgNumber (db (settings this)); ArgString (randomBytes E (ticks w))].
Proof.
  intros Hd H. rewrite acquire_integer in H by done.
  destruct (_execute E fuel this acquireLock _ _ _ _) as [[r|e1| | |] w1] eqn:He; try done.
  rewrite execute_merged in He.
  apply attempt_loop_summary in He as (n & pre & Hh & Ht & Hi & _ & _ & _ & Hout).
  simpl in Hout. destruct Hout as (sts & -> & _ & Hmade & _). simpl in *.
  fold once in H.
  destruct (_execute E fuel this releaseLock _ _ once w1) as [o2 w2] eqn:He2.
  apply execute_once in He2.
  destruct o2 as [r2|e2| | |]; try done.
  - injection H as <- <-. destruct He2 as [Hh2 Ht2]. split; [congruence|].
    exists sts, pre. split_and!; try done. by rewrite Ht2, Ht, <- app_assoc.
  - injection H as <- <-. destruct He2 as [Hh2 Ht2]. split; [congruence|].
    exists sts, pre. split_and!; try done. by rewrite Ht2, Ht, <- app_assoc.
Qed.

Lemma X6_failed_acquire_cleans_up_once_witness :
  exists sts pre,
    fst (acquire split_vote 12 triple ["r"%string] 1000 once empty_world)
      = Throw (ExecutionError msg_quorum sts) /\
    trace (snd (acquire split_vote 12 triple ["r"%string] 1000 once empty_world))
      = [] ++ pre ++
        fan_out triple releaseLock ["r"%string] [ArgNumber 0; ArgString "lock_value"].
Proof.
  destruct (X6_failed_acquire_cleans_up_once split_vote 12 triple ["r"%string] 1000 once
              empty_world
              (match fst (acquire split_vote 12 triple ["r"%string] 1000 once empty_world)
               with Throw e => e | _ => Error "" end)
              (snd (acquire split_vote 12 triple ["r"%string] 1000 once empty_world)))
    as (_ & sts & pre & He & _ & _ & Ht).
  - reflexivity.
  - vm_compute. reflexivity.
  - exists sts, pre. split; [|exact Ht].
    rewrite <- He. vm_compute. reflexivity.
Defined.

(** * Sleeping between attempts *)

Lemma wait_nap E s w :
  exists ms,
    nap E s ms /\
    wait E s w = (Return tt, mkWorld (heap w) (trace w ++ [Sleep ms]) (emitted w) (S (ticks w))).
Proof. eexists. split; [by exists (ticks w)|reflexivity]. Qed.

Lemma attempt_loop_rounds E fuel this s cmd k a acc w o w' :
  attempt_loop E fuel this s cmd k a acc w = (o, w') ->
  o <> OutOfFuel ->
  (below (length acc) (maxAttempts s) = false /\ w' = w /\
   o = Throw (ExecutionError msg_quorum acc)) \/
  (below (length acc) (maxAttempts s) = true /\
   exists naps,
     trace w' = trace w ++ rounds (fan_out this cmd k a) naps /\
     Forall (nap E s) naps /\
     match o with
     | Return r => length (attempts r) = (length acc + S (length naps))%nat
     | Throw e => exists sts, e = ExecutionError msg_quorum sts /\
                              length sts = (length acc + S (length naps))%nat
     | _ => True
     end).
Proof.
  revert acc w. induction fuel as [|fuel IH]; intros acc w; [by intros [= <- <-]|].
  rewrite attempt_loop_step. destruct (below (length acc) _) eqn:Hb.
  - destruct (_attemptOperation E this cmd k a w) as [oa w1] eqn:Ha.
    apply attempt_cases in Ha as (Hh & Ht & _ & Hs).
    destruct oa as [at'|e| | |]; try done.
    + destruct (vote at').
      * intros [= <- <-] _. right. split; [done|]. exists []. simpl.
        split_and!; [done|constructor|]. rewrite length_app. simpl. lia.
      * destruct (below (length (acc ++ [attempt_stats at'])) _) eqn:Hb2.
        -- destruct (wait_nap E s w1) as (ms & Hms & Hw). rewrite Hw. simpl.
           intros Hrest Ho. apply IH in Hrest; [|done]. rewrite Hb2 in Hrest.
           destruct Hrest as [(? & _)|(_ & naps & Htr & Hn & Hcount)]; [done|].
           right. split; [done|]. exists (ms :: naps). simpl in *. split_and!.
           ++ rewrite Htr, Ht. by rewrite <- !app_assoc.
           ++ by constructor.
           ++ rewrite length_app in Hcount. simpl in Hcount. destruct o; try done.
              ** lia.
              ** destruct Hcount as (sts & -> & Hl). exists sts. split; [done|lia].
        -- intros Hrest Ho. apply IH in Hrest; [|done]. rewrite Hb2 in Hrest.
           destruct Hrest as [(_ & -> & ->)|(? & _)]; [|done].
           right. split; [done|]. exists []. simpl. split_and!; [done|constructor|].
           eexists. split; [done|]. rewrite length_app. simpl. lia.
    + intros [= <- <-] _. right. split; [done|]. exists []. simpl.
      by split_and!; [|constructor|].
    + intros [= <- <-] _. right. split; [done|]. exists []. simpl.
      by split_and!; [|constructor|].
  - intros [= <- <-] _. by left.
Qed.

Lemma nap_bounds E s ms :
  nap E s ms ->
  0 <= ms /\
  ((forall t, 0 <= Math_random E t < 1) -> 0 <= retryJitter s ->
   ms <= Math_max 0 (retryDelay s + retryJitter s) /\
   retryDelay s - retryJitter s - 1 < ms).
Proof.
  intros [t ->]. set (x := (Math_random E t * 2 - 1) * retryJitter s).
  assert (forall y, 0 <= Math_max 0 y /\ y <= Math_max 0 y) as Hmax.
  { intros y. unfold Math_max. destruct (lt 0 y) eqn:Hy.
    - apply lt_true in Hy. split; lra.
    - apply lt_false in Hy. split; lra. }
  split; [apply Hmax|]. intros Hr Hj. specialize (Hr t).
  assert (- retryJitter s <= x /\ x <= retryJitter s) as [Hlo Hhi] by (subst x; nra).
  pose proof (Qfloor_le x) as Hfl. pose proof (Qlt_floor x) as Hfu.
  unfold Math_floor. rewrite inject_Z_plus in Hfu. change (inject_Z 1) with 1 in Hfu.
  split.
  - unfold Math_max at 1 2.
    destruct (lt 0 (retryDelay s + inject_Z (Qfloor x))) eqn:H1;
      destruct (lt 0 (retryDelay s + retryJitter s)) eqn:H2;
      rewrite ?lt_true, ?lt_false in *; lra.
  - destruct (Hmax (retryDelay s + inject_Z (Qfloor x))) as [_ Hge]. lra.
Qed.

(** X7.  An operation that ends (returns, throws, or is left pending by an
    attempt) after at least one attempt has sent the commands of one attempt,
    then, for every further attempt, slept once and sent them again: one
    sleep between two attempts and none after the last.  Every sleep is at
    least 0 ms; when [Math.random] is in [0, 1) and the jitter is not
    negative, it is at most [max(0, retryDelay + retryJitter)] and more than
    [retryDelay - retryJitter - 1]. *)
Theorem X7_one_sleep_between_attempts
    (E : Env) (fuel : nat) (this : Redlock) (cmd : Script) (k : list string) (a : list Arg)
    (_settings : option Partial.t) (w : World) (o : Outcome ExecutionResult) (w' : World) :
  _execute E fuel this cmd k a _settings w = (o, w') ->
  o <> OutOfFuel ->
  may_attempt (merged this _settings) ->
  exists naps,
    trace w' = trace w ++ rounds (fan_out this cmd k a) naps /\
    match o with
    | Return r => length (attempts r) = S (length naps)
    | Throw e => exists sts, e = ExecutionError msg_quorum sts /\ length sts = S (length naps)
    | _ => True
    end /\
    Forall (fun ms => 0 <= ms) naps /\
    ((forall t, 0 <= Math_random E t < 1) -> 0 <= retryJitter (merged this _settings) ->
     Forall (fun ms =>
               ms <= Math_max 0 (retryDelay (merged this _settings)
                                 + retryJitter (merged this _settings)) /\
               retryDelay (merged this _settings) - retryJitter (merged this _settings) - 1
               < ms) naps).
Proof.
  rewrite execute_merged. intros H Ho Hmay.
  apply attempt_loop_rounds in H; [|done]. apply may_attempt_below in Hmay.
  destruct H as [(Hb & _)|(_ & naps & Ht & Hn & Hc)]; [simpl in Hb; congruence|].
  exists naps. split; [done|]. split; [done|]. split.
  - eapply Forall_impl; [exact Hn|]. intros ms Hms. by apply nap_bounds in Hms as [? _].
  - intros Hr Hj. eapply Forall_impl; [exact Hn|]. intros ms Hms.
    apply nap_bounds in Hms as [_ Hb]. by apply Hb.
Qed.

Lemma X7_one_sleep_between_attempts_witness :
  exists naps,
    trace (snd (_execute nothing_there 3 single releaseLock ["r"%string]
                  [ArgNumber 0; ArgString "v"]
                  (Some (Partial.mk None (Some 1) None None None None)) empty_world))
    = [] ++ rounds (fan_out single releaseLock ["r"%string] [ArgNumber 0; ArgString "v"]) naps /\
    Forall (fun ms => 0 <= ms) naps.
Proof.
  destruct (X7_one_sleep_between_attempts nothing_there 3 single releaseLock ["r"%string]
              [ArgNumber 0; ArgString "v"]
              (Some (Partial.mk None (Some 1) None None None None)) empty_world
              (fst (_execute nothing_there 3 single releaseLock ["r"%string]
                      [ArgNumber 0; ArgString "v"]
                      (Some (Partial.mk None (Some 1) None None None None)) empty_world))
              (snd (_execute nothing_there 3 single releaseLock ["r"%string]
                      [ArgNumber 0; ArgString "v"]
                      (Some (Partial.mk None (Some 1) None None None None)) empty_world)))
    as (naps & Ht & _ & Hn & _).
  - apply surjective_pairing.
  - vm_compute. discriminate.
  - right. reflexivity.
  - exists naps. split; [exact Ht|exact Hn].
Defined.

(** X8.  A [retryCount] below -1 leaves no attempt at all: the operation
    throws [ExecutionError] with an empty list of attempts at once, before
    any server is contacted. *)
Theorem X8_retry_count_below_minus_one
    (E : Env) (fuel : nat) (this : Redlock) (cmd : Script) (k : list string) (a : list Arg)
    (_settings : option Partial.t) (w : World) :
  retryCount (merged this _settings) < -1 ->
  _execute E (S fuel) this cmd k a _settings w = (Throw (ExecutionError msg_quorum []), w).
Proof.
  intros H. rewrite execute_merged, attempt_loop_step.
  assert (below (length (@nil StatsPromise)) (maxAttempts (merged this _settings)) = false)
    as ->; [|done].
  unfold maxAttempts. destruct (strict_eq _ _) eqn:Hm.
  - apply strict_eq_true in Hm. lra.
  - simpl. apply lt_false. change (of_nat 0) with 0. lra.
Qed.

Lemma X8_retry_count_below_minus_one_witness :
  _execute all_fine 1 single acquireLock ["r"%string] []
    (Some (Partial.mk None (Some (-2)) None None None None)) empty_world
  = (Throw (ExecutionError msg_quorum []), empty_world).
Proof.
  apply (X8_retry_count_below_minus_one all_fine 0 single acquireLock ["r"%string] []
           (Some (Partial.mk None (Some (-2)) None None None None)) empty_world).
  reflexivity.
Defined.

(** * The scripts on a server *)

Section Scripts.
Implicit Types (st : gmap (Z * string) string) (KEYS : list string) (v : string).

Lemma set_loop_lookup st (d : Z) KEYS v (x : Z * string) :
  fold_left (fun s key => <[(d, key) := v]> s) KEYS st !! x
  = if decide (x.1 = d /\ x.2 ∈ KEYS) then Some v else st !! x.
Proof.
  revert st. induction KEYS as [|key KEYS IH]; intros st; simpl.
  - rewrite decide_False; [done|]. intros [_ Hk]. set_solver.
  - rewrite IH. destruct x as [xd xk]. simpl.
    destruct (decide (xd = d /\ xk ∈ KEYS)) as [[-> Hin]|Hout].
    + rewrite decide_True; [done|]. set_solver.
    + destruct (decide ((xd, xk) = (d, key))) as [[= -> ->]|Hne].
      * rewrite lookup_insert_eq. rewrite decide_True; [done|]. set_solver.
      * rewrite lookup_insert_ne by done. rewrite decide_False; [done|].
        intros [-> [->|Hk]%elem_of_cons]; [done|]. by apply Hout.
Qed.

Lemma release_loop_lookup (d : Z) v KEYS (count : nat) st (x : Z * string) :
  (fold_left
     (fun '(count, s) key =>
        if bool_decide (s !! (d, key) = Some v)
        then (S count, delete (d, key) s)
        else (count, s))
     KEYS (count, st)).2 !! x
  = if decide ((x.1 = d /\ x.2 ∈ KEYS) /\ st !! x = Some v) then None else st !! x.
Proof.
  revert count st. induction KEYS as [|key KEYS IH]; intros count st; simpl.
  - rewrite decide_False; [done|]. intros [[_ Hk] _]. set_solver.
  - destruct x as [xd xk]. case_bool_decide as Hv; rewrite IH; simpl.
    + destruct (decide ((xd, xk) = (d, key))) as [[= -> ->]|Hne].
      * rewrite lookup_delete_eq. rewrite decide_False by (by intros [_ ?]).
        rewrite decide_True; [done|]. set_solver.
      * rewrite lookup_delete_ne by done.
        destruct (decide ((xd = d /\ xk ∈ KEYS) /\ st !! (xd, xk) = Some v))
          as [[[-> Hk0] Hx]|Hout].
        -- rewrite decide_True; [done|]. set_solver.
        -- rewrite decide_False; [done|].
           intros [[-> [->|Hk0]%elem_of_cons] Hx]; [done|]. by apply Hout.
    + destruct (decide ((xd = d /\ xk ∈ KEYS) /\ st !! (xd, xk) = Some v))
        as [[[-> Hk0] Hx]|Hout].
      * rewrite decide_True; [done|]. set_solver.
      * rewrite decide_False; [done|].
        intros [[-> [->|Hk0]%elem_of_cons] Hx]; [done|]. by apply Hout.
Qed.

Lemma release_loop_count (d : Z) v KEYS (count : nat) st :
  NoDup KEYS ->
  (forall key, key ∈ KEYS -> st !! (d, key) = Some v) ->
  (fold_left
     (fun '(count, s) key =>
        if bool_decide (s !! (d, key) = Some v)
        then (S count, delete (d, key) s)
        else (count, s))
     KEYS (count, st)).1 = (count + length KEYS)%nat.
Proof.
  revert count st. induction KEYS as [|key KEYS IH]; intros count st Hnd Hall; simpl.
  - lia.
  - apply NoDup_cons in Hnd as [Hk Hnd].
    rewrite bool_decide_eq_true_2 by (apply Hall; set_solver).
    rewrite IH; [lia|done|].
    intros k0 Hk0. rewrite lookup_delete_ne by (intros [= ->]; done).
    apply Hall. set_solver.
Qed.

Lemma acquire_script_success st KEYS (d : Arg) v (px : number) :
  (forall key, key ∈ KEYS -> st !! (Redis.DB_SELECT_SCRIPT d, key) = None) ->
  Redis.valid_px px = true ->
  Redis.ACQUIRE_SCRIPT st KEYS [d; ArgString v; ArgNumber px]
  = (ReplyNumber (of_nat (length KEYS)),
     fold_left (fun s key => <[(Redis.DB_SELECT_SCRIPT d, key) := v]> s) KEYS st).
Proof.
  intros Hfree Hpx. unfold Redis.ACQUIRE_SCRIPT.
  assert (existsb (fun key => bool_decide (is_Some (st !! (Redis.DB_SELECT_SCRIPT d, key)))) KEYS
          = false) as ->.
  { apply not_true_iff_false. intros (key & Hk & Hs)%existsb_exists.
    apply bool_decide_eq_true in Hs. apply list_elem_of_In in Hk.
    rewrite (Hfree key Hk) in Hs. by destruct Hs. }
  unfold Redis.set_each. by rewrite Hpx, orb_true_r.
Qed.

(** X9.  The keys of a lock are protected on a server.  After [ACQUIRE] has
    set a lock's keys, an [ACQUIRE] that names one of them answers 0 and
    changes nothing, even with the same value; an [EXTEND] with another value
    answers 0 and changes nothing; a [RELEASE] with another value deletes
    none of the lock's keys. *)
Theorem X9_scripts_protect_a_held_lock
    st KEYS KEYS2 (d : Arg) v v2 (px px2 : number) (shared : string) :
  (forall key, key ∈ KEYS -> st !! (Redis.DB_SELECT_SCRIPT d, key) = None) ->
  Redis.valid_px px = true ->
  shared ∈ KEYS -> shared ∈ KEYS2 ->
  let held := (Redis.ACQUIRE_SCRIPT st KEYS [d; ArgString v; ArgNumber px]).2 in
  (forall key, key ∈ KEYS -> held !! (Redis.DB_SELECT_SCRIPT d, key) = Some v) /\
  Redis.ACQUIRE_SCRIPT held KEYS2 [d; ArgString v2; ArgNumber px2] = (ReplyNumber 0, held) /\
  Redis.ACQUIRE_SCRIPT held KEYS2 [d; ArgString v; ArgNumber px2] = (ReplyNumber 0, held) /\
  (v2 <> v ->
   Redis.EXTEND_SCRIPT held KEYS2 [d; ArgString v2; ArgNumber px2] = (ReplyNumber 0, held) /\
   forall key, key ∈ KEYS ->
     (Redis.RELEASE_SCRIPT held KEYS2 [d; ArgString v2]).2 !! (Redis.DB_SELECT_SCRIPT d, key)
     = Some v).
Proof.
  intros Hfree Hpx Hs1 Hs2 held. subst held.
  rewrite acquire_script_success by done. simpl.
  set (db := Redis.DB_SELECT_SCRIPT d).
  set (held := fold_left (fun s key => <[(db, key) := v]> s) KEYS st).
  assert (forall key, key ∈ KEYS -> held !! (db, key) = Some v) as Hheld.
  { intros key Hk. subst held. rewrite set_loop_lookup. by rewrite decide_True. }
  assert (forall w0 pxx, Redis.ACQUIRE_SCRIPT held KEYS2 [d; ArgString w0; ArgNumber pxx]
                         = (ReplyNumber 0, held)) as Hacq.
  { intros w0 pxx. unfold Redis.ACQUIRE_SCRIPT. fold db.
    assert (existsb (fun key => bool_decide (is_Some (held !! (db, key)))) KEYS2 = true) as ->;
      [|done].
    apply existsb_exists. exists shared. split; [by apply list_elem_of_In|].
    apply bool_decide_eq_true. rewrite (Hheld shared Hs1). by eexists. }
  split_and!; [done|apply Hacq|apply Hacq|].
  intros Hne. split.
  - unfold Redis.EXTEND_SCRIPT. fold db.
    assert (existsb (fun key => negb (bool_decide (held !! (db, key) = Some v2))) KEYS2 = true)
      as ->; [|done].
    apply existsb_exists. exists shared. split; [by apply list_elem_of_In|].
    apply negb_true_iff, bool_decide_eq_false. rewrite (Hheld shared Hs1). congruence.
  - intros key Hk. unfold Redis.RELEASE_SCRIPT. fold db.
    pose proof (release_loop_lookup db v2 KEYS2 0 held (db, key)) as Hl.
    destruct (fold_left _ KEYS2 (O, held)) as [count st'] eqn:Hf. simpl in *.
    rewrite Hl. rewrite decide_False; [by apply Hheld|].
    intros [_ Hx]. rewrite (Hheld key Hk) in Hx. congruence.
Qed.

Lemma X9_scripts_protect_a_held_lock_witness :
  Redis.ACQUIRE_SCRIPT
    (Redis.ACQUIRE_SCRIPT ∅ ["a"; "b"]%string [ArgNumber 0; ArgString "v1"; ArgNumber 1000]).2
    ["b"; "c"]%string [ArgNumber 0; ArgString "v2"; ArgNumber 500]
  = (ReplyNumber 0,
     (Redis.ACQUIRE_SCRIPT ∅ ["a"; "b"]%string
        [ArgNumber 0; ArgString "v1"; ArgNumber 1000]).2).
Proof.
  destruct (X9_scripts_protect_a_held_lock ∅ ["a"; "b"]%string ["b"; "c"]%string
              (ArgNumber 0) "v1" "v2" 1000 500 "b") as (_ & H & _).
  - intros key _. apply lookup_empty.
  - reflexivity.
  - set_solver.
  - set_solver.
  - exact H.
Defined.

(** X10.  [ACQUIRE] followed by [RELEASE] with the same keys and value puts
    the server back as it was: every key is deleted again and nothing else
    is touched.  When no key is named twice, [RELEASE] answers the number of
    keys.  In between, [EXTEND] with the same value answers the number of
    keys and keeps every value. *)
Theorem X10_acquire_then_release_restores_the_server
    st KEYS (d : Arg) v (px px2 : number) :
  (forall key, key ∈ KEYS -> st !! (Redis.DB_SELECT_SCRIPT d, key) = None) ->
  Redis.valid_px px = true ->
  Redis.valid_px px2 = true ->
  let held := (Redis.ACQUIRE_SCRIPT st KEYS [d; ArgString v; ArgNumber px]).2 in
  (Redis.ACQUIRE_SCRIPT st KEYS [d; ArgString v; ArgNumber px]).1
    = ReplyNumber (of_nat (length KEYS)) /\
  (Redis.EXTEND_SCRIPT held KEYS [d; ArgString v; ArgNumber px2])
    = (ReplyNumber (of_nat (length KEYS)), held) /\
  (Redis.RELEASE_SCRIPT held KEYS [d; ArgString v]).2 = st /\
  (NoDup KEYS ->
   (Redis.RELEASE_SCRIPT held KEYS [d; ArgString v]).1 = ReplyNumber (of_nat (length KEYS))).
Proof.
  intros Hfree Hpx Hpx2 held. subst held.
  rewrite acquire_script_success by done. simpl.
  set (db := Redis.DB_SELECT_SCRIPT d).
  set (held := fold_left (fun s key => <[(db, key) := v]> s) KEYS st).
  assert (forall key, key ∈ KEYS -> held !! (db, key) = Some v) as Hheld.
  { intros key Hk. subst held. rewrite set_loop_lookup. by rewrite decide_True. }
  split_and!; [done| | |].
  - unfold Redis.EXTEND_SCRIPT. fold db.
    assert (existsb (fun key => negb (bool_decide (held !! (db, key) = Some v))) KEYS = false)
      as ->.
    { apply not_true_iff_false. intros (key & Hk & Hs)%existsb_exists.
      apply negb_true_iff, bool_decide_eq_false in Hs. apply list_elem_of_In in Hk.
      by rewrite (Hheld key Hk) in Hs. }
    unfold Redis.set_each. rewrite Hpx2, orb_true_r. f_equal.
    apply map_eq. intros [xd xk]. rewrite set_loop_lookup. simpl.
    destruct (decide _) as [[-> Hk]|]; [|done]. by rewrite Hheld.
  - unfold Redis.RELEASE_SCRIPT. fold db.
    pose proof (release_loop_lookup db v KEYS 0 held) as Hl.
    destruct (fold_left _ KEYS (O, held)) as [count st'] eqn:Hf. simpl in *.
    apply map_eq. intros [xd xk]. rewrite Hl. subst held. rewrite set_loop_lookup. simpl.
    destruct (decide (xd = db /\ xk ∈ KEYS)) as [[-> Hk]|Hout].
    + rewrite decide_True by done. symmetry. by apply Hfree.
    + rewrite decide_False; [done|]. by intros [? _].
  - intros Hnd. unfold Redis.RELEASE_SCRIPT. fold db.
    pose proof (release_loop_count db v KEYS 0 held Hnd Hheld) as Hc.
    destruct (fold_left _ KEYS (O, held)) as [count st'] eqn:Hf. simpl in *. by rewrite Hc.
Qed.

Lemma X10_acquire_then_release_restores_the_server_witness :
  (Redis.RELEASE_SCRIPT
     (Redis.ACQUIRE_SCRIPT ∅ ["a"; "b"]%string [ArgNumber 0; ArgString "v1"; ArgNumber 1000]).2
     ["a"; "b"]%string [ArgNumber 0; ArgString "v1"]).2 = ∅.
Proof.
  destruct (X10_acquire_then_release_restores_the_server ∅ ["a"; "b"]%string
              (ArgNumber 0) "v1" 1000 1000) as (_ & _ & H & _).
  - intros key _. apply lookup_empty.
  - reflexivity.
  - reflexivity.
  - exact H.
Defined.

End Scripts.

(** * The constructor's settings *)

(** X11.  The [db] of an instance is always an integer from 0 to 15, so the
    [SELECT] at the head of every script is given a database it accepts: a
    valid [db] is kept, any other (negative, above 15, fractional) and a
    missing one become 0. *)
Theorem X11_constructor_db_is_a_database_index
    (cs : list Client) (cfg : Partial.t) (this : Redlock) :
  Redlock_new cs cfg = inr this ->
  (Math_floor (db (settings this)) == db (settings this) /\
   0 <= db (settings this) <= 15) /\
  Redis.DB_SELECT_SCRIPT (ArgNumber (db (settings this))) = Qfloor (db (settings this)) /\
  (forall d, Partial.db cfg = Some d ->
     (Math_floor d == d /\ 0 <= d <= 15 -> db (settings this) = d) /\
     (~ Math_floor d == d \/ d < 0 \/ 15 < d -> db (settings this) = 0)) /\
  (Partial.db cfg = None -> db (settings this) = 0).
Proof.
  unfold Redlock_new. destruct (length (Set_from cs) =? 0)%nat; [done|].
  intros [= <-]. cbn [settings db].
  assert (forall d, Number_isInteger d && negb (lt d 0) && negb (lt 15 d) = true
                    <-> (Math_floor d == d /\ 0 <= d <= 15)) as Hok.
  { intros d. rewrite !andb_true_iff, !negb_true_iff, !lt_false.
    unfold Number_isInteger. rewrite strict_eq_true. tauto. }
  assert (Math_floor 0 == 0 /\ 0 <= 0 <= 15) as Hzero by (split; [reflexivity|lra]).
  destruct (Partial.db cfg) as [d|]; [|by split_and!].
  destruct (Number_isInteger d && negb (lt d 0) && negb (lt 15 d)) eqn:Hd.
  - pose proof (proj1 (Hok d) Hd) as Hv. split; [done|]. split.
    + unfold Redis.DB_SELECT_SCRIPT. by rewrite Hd.
    + split; [|done]. intros ? [= <-]. split; [done|]. intros [?|[?|?]]; [tauto|lra|lra].
  - split; [done|]. split; [done|]. split; [|done].
    intros ? [= <-]. split; [|done]. intros Hv. apply Hok in Hv. congruence.
Qed.

Lemma X11_constructor_db_is_a_database_index_witness :
  Redlock_new [0%nat] (Partial.with_db (Some 16) Partial.empty) = inr single /\
  db (settings single) = 0.
Proof.
  split; [reflexivity|].
  destruct (X11_constructor_db_is_a_database_index [0%nat]
              (Partial.with_db (Some 16) Partial.empty) single) as (_ & _ & Hd & _).
  - reflexivity.
  - destruct (Hd 16 eq_refl) as [_ Hbad]. apply Hbad. right. right. reflexivity.
Defined.

(** * Every client votes once, every error is emitted once *)

Lemma fors_againsts_perm (l : list ClientExecutionResult) :
  fors l ++ (againsts l).*1 ≡ₚ map voter l.
Proof.
  induction l as [|[c v|c e] l IH]; simpl; [done| |].
  - unfold fors, againsts in *. simpl. by constructor.
  - unfold fors, againsts in *. simpl. rewrite <- IH. by rewrite Permutation_middle.
Qed.

(** X12.  When the clients are distinct and all their answers settle, a
    resolved attempt has counted every client exactly once, either in
    [votesFor] or in [votesAgainst], and the errors emitted on the instance
    during the attempt are exactly the errors of [votesAgainst]. *)
Theorem X12_one_vote_and_one_event_per_client
    (E : Env) (this : Redlock) (cmd : Script) (k : list string) (a : list Arg)
    (w : World) (at' : Attempt) (w1 : World) :
  NoDup (clients this) ->
  clients this <> [] ->
  settles E cmd k ->
  _attemptOperation E this cmd k a w = (Return at', w1) ->
  exists st es,
    attempt_stats at' = Some st /\
    votesFor st ++ (votesAgainst st).*1 ≡ₚ clients this /\
    NoDup (votesFor st ++ (votesAgainst st).*1) /\
    emitted w1 = emitted w ++ es /\
    es ≡ₚ (votesAgainst st).*2.
Proof.
  intros Hnd Hne Hset Ha.
  destruct (attempt_verdict E this cmd k a Hnd Hne ltac:(intros h c; apply Hset) w)
    as (l & l' & Hperm & Hcs & Hf & Heq).
  rewrite Heq in Ha. destruct (decision _ _ _) as [v|]; [|done].
  injection Ha as <- <-. eexists _, _. split; [reflexivity|].
  cbn [votesFor votesAgainst emitted].
  assert (fors l' ++ (againsts l').*1 ≡ₚ clients this) as Hall.
  { rewrite fors_againsts_perm, Hperm. by rewrite Hcs. }
  split_and!; [done| |done|].
  - by rewrite Hall.
  - unfold againsts. by rewrite Hperm.
Qed.

Lemma X12_one_vote_and_one_event_per_client_witness :
  exists st es,
    votesFor st ++ (votesAgainst st).*1 ≡ₚ [0; 1; 2]%nat /\
    es ≡ₚ (votesAgainst st).*2.
Proof.
  destruct (X12_one_vote_and_one_event_per_client one_down triple acquireLock ["r"%string]
              [ArgNumber 0; ArgString "v"; ArgNumber 1000] empty_world
              (match fst (_attemptOperation one_down triple acquireLock ["r"%string]
                            [ArgNumber 0; ArgString "v"; ArgNumber 1000] empty_world)
               with Return x => x | _ => mkAttempt VoteFor None 0 end)
              (snd (_attemptOperation one_down triple acquireLock ["r"%string]
                      [ArgNumber 0; ArgString "v"; ArgNumber 1000] empty_world)))
    as (st & es & _ & Hp & _ & _ & He).
  - simpl. repeat constructor; set_solver.
  - discriminate.
  - intros h c a. simpl. destruct (c =? 2)%nat; discriminate.
  - vm_compute. reflexivity.
  - by exists st, es.
Defined.

(** * The methods of a lock *)



(** X14.  [lock.release()] passes no settings: the retry budget is the
    instance's, whatever settings the lock was made with.  So when every
    server reports nothing to delete, it throws after [retryCount + 1]
    attempts of the instance, even for a lock acquired with
    [{ retryCount: 0 }]. *)
Theorem X14_lock_release_uses_the_instance_settings
    (E : Env) (fuel : nat) (cs : list Client) (cfg : Partial.t) (lock : nat) (L : Lock.t)
    (kk : nat) (w : World) :
  heap w !! lock = Some L ->
  Redlock_new cs cfg = inr (Lock.redlock L) ->
  Lock.resources L <> [] ->
  (forall h c args, respond E h c releaseLock (Lock.resources L) args = ReplyNumber 0) ->
  retryCount (settings (Lock.redlock L)) == of_nat kk ->
  (kk + 2 <= fuel)%nat ->
  Lock_release E fuel lock w = release E fuel (Lock.redlock L) lock None w /\
  exists sts w',
    Lock_release E fuel lock w = (Throw (ExecutionError msg_quorum sts), w') /\
    length sts = (kk + 1)%nat /\
    calls (trace w') = (calls (trace w) + (kk + 1) * length (clients (Lock.redlock L)))%nat.
Proof.
  intros HL Hnew Hres Hzero Hk Hfuel.
  assert (Lock_release E fuel lock w = release E fuel (Lock.redlock L) lock None w) as Heq
    by (unfold Lock_release, bind, deref; by rewrite HL).
  split; [done|]. rewrite Heq.
  apply Redlock_new_clients in Hnew as [Hcs Hne].
  rewrite (release_spec _ _ _ _ _ _ _ HL), execute_merged.
  match goal with |- context [attempt_loop E fuel ?this ?s ?cmd ?k ?a [] ?w0] =>
    destruct (loop_all_against_throws E this cmd k a (fun _ => True)
                ltac:(rewrite Hcs; apply Set_from_NoDup)
                ltac:(by rewrite Hcs)
                ltac:(intros h c; eexists; rewrite Hzero; split; [by apply settle_zero|done])
                fuel s kk w0 Hk Hfuel)
      as (sts & w' & Hl & Hlen & _ & _ & Hc) end.
  by exists sts, w'.
Qed.

Lemma X14_lock_release_uses_the_instance_settings_witness :
  exists sts w',
    Lock_release nothing_there 12 0
      (world_with (Lock.mk single ["r"%string] "v" [] 5000 once))
    = (Throw (ExecutionError msg_quorum sts), w') /\
    length sts = 11%nat.
Proof.
  destruct (X14_lock_release_uses_the_instance_settings nothing_there 12 [0%nat]
              Partial.empty 0 (Lock.mk single ["r"%string] "v" [] 5000 once) 10
              (world_with (Lock.mk single ["r"%string] "v" [] 5000 once)))
    as (_ & sts & w' & Hr & Hlen & _).
  - reflexivity.
  - reflexivity.
  - discriminate.
  - reflexivity.
  - reflexivity.
  - simpl. lia.
  - exists sts, w'. split; [exact Hr|exact Hlen].
Defined.

(** * Live servers *)

Section Live.
Context (E : Env).
Hypothesis Hlive : live E.

Lemma state_after_app (h l : list Event) (c : Client) :
  Redis.state_after (h ++ l) c
  = fold_left
      (fun st e =>
         match e with
         | Call c' script keys args =>
             if decide (c' = c) then snd (Redis.run script st keys args) else st
         | Sleep _ => st
         end) l (Redis.state_after h c).
Proof. unfold Redis.state_after. by rewrite fold_left_app. Qed.

Lemma state_after_sleep (h : list Event) (ms : number) (c : Client) :
  Redis.state_after (h ++ [Sleep ms]) c = Redis.state_after h c.
Proof. by rewrite state_after_app. Qed.

Lemma state_after_fan (h : list Event) (cs : list Client) s k a (c : Client) :
  NoDup cs ->
  Redis.state_after (h ++ map (fun c' => Call c' s k a) cs) c
  = if decide (c ∈ cs) then snd (Redis.run s (Redis.state_after h c) k a)
    else Redis.state_after h c.
Proof.
  rewrite state_after_app. generalize (Redis.state_after h c). clear h.
  induction cs as [|c' cs IH]; intros st Hnd; simpl.
  - done.
  - apply NoDup_cons in Hnd as [Hc' Hnd]. rewrite IH by done.
    destruct (decide (c' = c)) as [->|Hne].
    + rewrite (decide_False (P := c ∈ cs)) by done.
      by rewrite (decide_True (P := c ∈ c :: cs)) by set_solver.
    + destruct (decide (c ∈ cs)).
      * by rewrite (decide_True (P := c ∈ c' :: cs)) by set_solver.
      * by rewrite (decide_False (P := c ∈ c' :: cs)) by set_solver.
Qed.

Lemma live_call_all (cs : list Client) s k a (w : World) :
  NoDup cs ->
  exists w1,
    call_all E cs s k a w
      = (Return (map (fun c => settle c k
                                 (fst (Redis.run s (Redis.state_after (trace w) c) k a))) cs),
         w1) /\
    heap w1 = heap w /\
    trace w1 = trace w ++ map (fun c => Call c s k a) cs /\
    ticks w1 = ticks w.
Proof.
  revert w. induction cs as [|c cs IH]; intros w Hnd.
  - exists w. simpl. by rewrite app_nil_r.
  - apply NoDup_cons in Hnd as [Hc Hnd].
    simpl call_all. unfold bind at 1. rewrite call_client_spec.
    unfold bind at 1.
    match goal with |- context [call_all E cs s k a ?w0] =>
      destruct (IH w0 Hnd) as (w1 & Hcall & Hh & Ht & Htk) end.
    rewrite Hcall. simpl in *. exists w1. split_and!; [|done| |done].
    + unfold ret. rewrite Hlive. f_equal. f_equal. f_equal. apply map_ext_in. intros c' Hc'.
      apply list_elem_of_In in Hc'.
      rewrite state_after_app. simpl. rewrite decide_False; [done|].
      intros ->. done.
    + by rewrite Ht, <- app_assoc.
Qed.

(** An attempt on live servers, given the vote [f c] of every client. *)
Lemma live_attempt (this : Redlock) s k a (w : World) (f : Client -> ClientExecutionResult) :
  NoDup (clients this) -> clients this <> [] ->
  (forall c, c ∈ clients this ->
     settle c k (fst (Redis.run s (Redis.state_after (trace w) c) k a)) = Some (f c) /\
     voter (f c) = c) ->
  exists w1 l',
    l' ≡ₚ map f (clients this) /\
    _attemptOperation E this s k a w =
      (match decision (length (clients this) / 2 + 1)
               (length (fors (map f (clients this))))
               (length (againsts (map f (clients this)))) with
       | Some v =>
           Return (mkAttempt v
                     (Some (mkStats (length (clients this))
                                    (length (clients this) / 2 + 1)
                                    (fors l') (againsts l')))
                     (Date_now E (ticks w)))
       | None => Pending
       end, w1) /\
    heap w1 = heap w /\
    trace w1 = trace w ++ fan_out this s k a /\
    ticks w1 = S (ticks w).
Proof.
  intros Hnd Hne Hf. unfold _attemptOperation, bind, sample.
  match goal with |- context [call_all E ?cs s k a ?w0] =>
    destruct (live_call_all cs s k a w0 Hnd) as (w1 & Hcall & Hh & Ht & Htk) end.
  rewrite Hcall. simpl in Hh, Ht, Htk.
  assert (map (fun c => settle c k (fst (Redis.run s (Redis.state_after (trace w) c) k a)))
              (clients this)
          = map Some (map f (clients this))) as Hrs.
  { rewrite map_map. apply map_ext_in. intros c Hc. apply list_elem_of_In in Hc.
    by destruct (Hf c Hc) as [-> _]. }
  simpl trace. rewrite Hrs.
  assert (map voter (map f (clients this)) = clients this) as Hvo.
  { rewrite map_map. rewrite <- (map_id (clients this)) at 2. apply map_ext_in.
    intros c Hc. apply list_elem_of_In in Hc. by destruct (Hf c Hc) as [_ ->]. }
  destruct (tally_decision E (map f (clients this)) w1)
    as (l' & Hperm & Hs & He & Hr & Hd).
  { by destruct (clients this). }
  { by rewrite Hvo. }
  rewrite length_map in Hs, Hr, Hd.
  exists w1, l'. split; [done|]. split; [|done].
  rewrite He, Hr, Hd, Hs.
  assert (length (fors l') = length (fors (map f (clients this)))) as ->
    by (unfold fors; by rewrite Hperm).
  assert (length (againsts l') = length (againsts (map f (clients this)))) as ->
    by (unfold againsts; by rewrite Hperm).
  rewrite ?bool_decide_eq_true_2 by (rewrite fors_againsts_length, length_map; lia).
  by destruct (decision _ (length (fors (map f _))) _).
Qed.

Lemma fors_all_for (cs : list Client) (n : Client -> number) :
  fors (map (fun c => ResultFor c (n c)) cs) = cs /\
  againsts (map (fun c => ResultFor c (n c)) cs) = [].
Proof.
  unfold fors, againsts. induction cs as [|c cs [IH1 IH2]]; [done|]. simpl.
  split; [by f_equal|done].
Qed.

Lemma againsts_all_against (cs : list Client) (e : Client -> ClientError) :
  fors (map (fun c => ResultAgainst c (e c)) cs) = [] /\
  length (againsts (map (fun c => ResultAgainst c (e c)) cs)) = length cs.
Proof.
  unfold fors, againsts. induction cs as [|c cs [IH1 IH2]]; [done|]. simpl.
  split; [done|by f_equal].
Qed.

Lemma decision_all_for (n : nat) : n <> O -> decision (n / 2 + 1) n 0 = Some VoteFor.
Proof.
  intros Hn. unfold decision. pose proof (Nat.div_lt n 2 ltac:(lia) ltac:(lia)).
  destruct (Nat.leb_spec (n / 2 + 1) n); [done|lia].
Qed.

Lemma decision_all_against (n : nat) : n <> O -> decision (n / 2 + 1) 0 n = Some VoteAgainst.
Proof.
  intros Hn. unfold decision. pose proof (Nat.div_lt n 2 ltac:(lia) ltac:(lia)).
  destruct (Nat.leb_spec (n / 2 + 1) 0); [lia|].
  destruct (Nat.leb_spec (n / 2 + 1) n); [done|lia].
Qed.

Lemma settle_all_keys (c : Client) (k : list string) :
  settle c k (ReplyNumber (of_nat (length k))) = Some (ResultFor c (of_nat (length k))).
Proof.
  unfold settle.
  assert (strict_ne (of_nat (length k)) (of_nat (length k)) = false) as ->; [|done].
  by apply strict_ne_false.
Qed.

Lemma live_attempt_for (this : Redlock) s k a (w : World) :
  NoDup (clients this) -> clients this <> [] ->
  (forall c, c ∈ clients this ->
     fst (Redis.run s (Redis.state_after (trace w) c) k a) = ReplyNumber (of_nat (length k))) ->
  exists w1 st,
    _attemptOperation E this s k a w
      = (Return (mkAttempt VoteFor (Some st) (Date_now E (ticks w))), w1) /\
    heap w1 = heap w /\
    trace w1 = trace w ++ fan_out this s k a /\
    ticks w1 = S (ticks w).
Proof.
  intros Hnd Hne Hall.
  destruct (live_attempt this s k a w (fun c => ResultFor c (of_nat (length k))) Hnd Hne)
    as (w1 & l' & _ & Ha & Hrest).
  { intros c Hc. rewrite (Hall c Hc). split; [apply settle_all_keys|done]. }
  destruct (fors_all_for (clients this) (fun _ => of_nat (length k))) as [Hf Hag].
  rewrite Hf, Hag in Ha. simpl length in Ha.
  rewrite decision_all_for in Ha by (by destruct (clients this)).
  by eexists _, _.
Qed.

Lemma live_attempt_against (this : Redlock) s k a (w : World) :
  NoDup (clients this) -> clients this <> [] -> k <> [] ->
  (forall c, c ∈ clients this ->
     fst (Redis.run s (Redis.state_after (trace w) c) k a) = ReplyNumber 0) ->
  exists w1 st,
    _attemptOperation E this s k a w
      = (Return (mkAttempt VoteAgainst (Some st) (Date_now E (ticks w))), w1) /\
    heap w1 = heap w /\
    trace w1 = trace w ++ fan_out this s k a /\
    ticks w1 = S (ticks w).
Proof.
  intros Hnd Hne Hk Hall.
  destruct (live_attempt this s k a w
              (fun c => ResultAgainst c (ResourceLockedError 0 (length k))) Hnd Hne)
    as (w1 & l' & _ & Ha & Hrest).
  { intros c Hc. rewrite (Hall c Hc). split; [by apply settle_zero|done]. }
  destruct (againsts_all_against (clients this)
              (fun _ => ResourceLockedError 0 (length k))) as [Hf Hag].
  rewrite Hf, Hag in Ha. simpl length in Ha.
  rewrite decision_all_against in Ha by (by destruct (clients this)).
  by eexists _, _.
Qed.

(** * Operations on live servers *)

(** A loop all of whose attempts are decided against, along an invariant of
    the world. *)
Lemma loop_against_invariant this s cmd k a (Inv : World -> Prop) (kk : nat) :
  (forall w, Inv w ->
     exists at' w1, _attemptOperation E this cmd k a w = (Return at', w1) /\
                    vote at' = VoteAgainst /\ Inv w1 /\ heap w1 = heap w /\
                    calls (trace w1) = (calls (trace w) + length (clients this))%nat) ->
  (forall w ms, Inv w ->
     Inv (mkWorld (heap w) (trace w ++ [Sleep ms]) (emitted w) (S (ticks w)))) ->
  retryCount s == of_nat kk ->
  forall fuel acc w,
    (length acc <= kk + 1)%nat -> (kk + 2 - length acc <= fuel)%nat -> Inv w ->
    exists sts w',
      attempt_loop E fuel this s cmd k a acc w
        = (Throw (ExecutionError msg_quorum (acc ++ sts)), w') /\
      (length acc + length sts = kk + 1)%nat /\
      Inv w' /\ heap w' = heap w /\
      calls (trace w') = (calls (trace w) + length sts * length (clients this))%nat.
Proof.
  intros Hatt Hsleep Hk. induction fuel as [|fuel IH]; intros acc w Hacc Hfuel Hinv; [lia|].
  rewrite attempt_loop_step, (below_retryCount s kk) by done.
  case_bool_decide as Hlt.
  - destruct (Hatt w Hinv) as (at' & w1 & Ha & Hv & Hinv1 & Hh1 & Hc1). rewrite Ha, Hv.
    rewrite (below_retryCount s kk) by done.
    set (w2 := if bool_decide _ then snd (wait E s w1) else w1).
    assert (Inv w2 /\ heap w2 = heap w1 /\ calls (trace w2) = calls (trace w1)) as (Hi2 & Hh2 & Hc2).
    { subst w2. case_bool_decide; [|done].
      destruct (wait_spec E s w1) as [ms ->]. simpl. split; [by apply Hsleep|].
      split; [done|]. rewrite calls_app. unfold calls at 2. simpl. lia. }
    destruct (IH (acc ++ [attempt_stats at']) w2) as (sts & w' & Hl & Hlen & Hi' & Hh' & Hc').
    { rewrite length_app. simpl. lia. }
    { rewrite length_app. simpl. lia. }
    { done. }
    exists (attempt_stats at' :: sts), w'. rewrite length_app in Hlen. simpl in *.
    split_and!; [by rewrite Hl, <- app_assoc|lia|done|congruence|lia].
  - exists [], w. rewrite app_nil_r. simpl. split_and!; try done; lia.
Qed.

Lemma acquire_script_conflict (st : gmap (Z * string) string) (KEYS : list string)
    (d : Arg) (v : string) (px : number) (key : string) :
  key ∈ KEYS -> is_Some (st !! (Redis.DB_SELECT_SCRIPT d, key)) ->
  Redis.ACQUIRE_SCRIPT st KEYS [d; ArgString v; ArgNumber px] = (ReplyNumber 0, st).
Proof.
  intros Hk Hs. unfold Redis.ACQUIRE_SCRIPT.
  assert (existsb (fun key => bool_decide (is_Some (st !! (Redis.DB_SELECT_SCRIPT d, key)))) KEYS
          = true) as ->; [|done].
  apply existsb_exists. exists key. split; [by apply list_elem_of_In|].
  by apply bool_decide_eq_true.
Qed.

Lemma release_script_foreign (st : gmap (Z * string) string) (KEYS : list string)
    (d : Arg) (v : string) :
  (forall key, key ∈ KEYS -> st !! (Redis.DB_SELECT_SCRIPT d, key) <> Some v) ->
  Redis.RELEASE_SCRIPT st KEYS [d; ArgString v] = (ReplyNumber 0, st).
Proof.
  intros H. unfold Redis.RELEASE_SCRIPT. by rewrite release_loop_nothing.
Qed.


Lemma run_acquire st k a : Redis.run acquireLock st k a = Redis.ACQUIRE_SCRIPT st k a.
Proof. reflexivity. Qed.

Lemma run_release st k a : Redis.run releaseLock st k a = Redis.RELEASE_SCRIPT st k a.
Proof. reflexivity. Qed.

Section LiveOperations.
Context (this : Redlock).
Hypothesis Hnd : NoDup (clients this).
Hypothesis Hne : clients this <> [].

Lemma live_acquire_free fuel resources duration _settings w :
  Math_floor duration == duration -> 0 < duration ->
  may_attempt (merged this _settings) ->
  all_free this resources w ->
  exists st w',
    acquire E (S fuel) this resources duration _settings w
      = (Return (length (heap w)), w') /\
    ticks w' = S (S (ticks w)) /\
    trace w' = trace w ++
      fan_out this acquireLock resources
        [ArgNumber (db (settings this)); ArgString (randomBytes E (ticks w));
         ArgNumber duration] /\
    heap w' = heap w ++
      [Lock.mk this resources (randomBytes E (ticks w)) [Some st]
         (Date_now E (S (ticks w)) + duration - drift this _settings duration)
         _settings] /\
    (forall c, c ∈ clients this ->
       Redis.state_after (trace w') c
       = fold_left (fun s key => <[(database this, key) := randomBytes E (ticks w)]> s)
           resources (Redis.state_after (trace w) c)).
Proof.
  intros Hd Hpos Hmay Hfree.
  assert (Redis.valid_px duration = true) as Hpx.
  { unfold Redis.valid_px, Number_isInteger. apply andb_true_iff.
    split; [by apply strict_eq_true|by apply lt_true]. }
  rewrite acquire_integer by done. rewrite execute_merged, attempt_loop_step.
  apply may_attempt_below in Hmay. simpl length. rewrite Hmay.
  match goal with |- context [_attemptOperation E this acquireLock resources ?a ?w0] =>
    destruct (live_attempt_for this acquireLock resources a w0 Hnd Hne)
      as (w1 & st & Ha & Hh & Ht & Htk) end.
  { intros c Hc. cbn [trace]. rewrite run_acquire, acquire_script_success; [done| |done].
    intros key Hk. by apply Hfree. }
  rewrite Ha. cbn [heap trace ticks] in Hh, Ht, Htk.
  cbn [vote attempt_stats attempt_start attempts start app heap trace ticks length].
  unfold ret, new_Lock. rewrite Hh. exists st. eexists. split; [reflexivity|].
  cbn [heap trace ticks]. split; [by rewrite Htk|]. split; [done|]. split; [done|].
  intros c Hc. rewrite Ht. unfold fan_out. rewrite state_after_fan by done.
  rewrite decide_True by done. rewrite run_acquire, acquire_script_success; [done| |done].
  intros key Hk. by apply Hfree.
Qed.

Lemma live_acquire_taken fuel resources duration _settings kk w :
  Math_floor duration == duration ->
  retryCount (merged this _settings) == of_nat kk ->
  (kk + 2 <= fuel)%nat ->
  all_taken this resources w ->
  (forall c key, c ∈ clients this -> key ∈ resources ->
     Redis.state_after (trace w) c !! (database this, key)
     <> Some (randomBytes E (ticks w))) ->
  exists sts w',
    acquire E fuel this resources duration _settings w
      = (Throw (ExecutionError msg_quorum sts), w') /\
    length sts = (kk + 1)%nat /\
    same_keys this w w' /\
    heap w' = heap w /\
    calls (trace w') = (calls (trace w) + (kk + 2) * length (clients this))%nat.
Proof.
  intros Hd Hk Hfuel Htaken Hother.
  assert (resources <> []) as Hres.
  { assert (exists c, c ∈ clients this) as [c Hc].
    { revert Hne. destruct (clients this) as [|c cs]; [done|]. intros _. exists c. set_solver. }
    destruct (Htaken c Hc) as (key & Hkey & _). intros ->. set_solver. }
  rewrite acquire_integer by done. rewrite execute_merged.
  set (args := [ArgNumber (db (settings this)); ArgString (randomBytes E (ticks w));
                ArgNumber duration]).
  set (w0 := mkWorld (heap w) (trace w) (emitted w) (S (ticks w))).
  destruct (loop_against_invariant this (merged this _settings) acquireLock
              resources args (fun w1 => same_keys this w w1) kk) with (fuel := fuel)
    (acc := @nil StatsPromise) (w := w0) as (sts & w1 & Hl & Hlen & Hsame & Hh & Hcalls);
    [| |done|simpl; lia|simpl; lia|by intros c Hc|].
  { intros wa Hwa.
    destruct (live_attempt_against this acquireLock resources args wa Hnd Hne Hres)
      as (w1 & st & Ha & Hh & Ht & _).
    { intros c Hc. rewrite (Hwa c Hc). destruct (Htaken c Hc) as (key & Hkey & Hs).
      unfold args. by rewrite run_acquire, (acquire_script_conflict _ _ _ _ _ key). }
    eexists _, w1. split; [exact Ha|]. split; [done|]. split; [|split; [done|]].
    - intros c Hc. rewrite Ht. unfold fan_out. rewrite state_after_fan by done.
      rewrite decide_True by done. rewrite (Hwa c Hc).
      destruct (Htaken c Hc) as (key & Hkey & Hs).
      unfold args. by rewrite run_acquire, (acquire_script_conflict _ _ _ _ _ key).
    - rewrite Ht, calls_app. unfold fan_out. by rewrite calls_fan_out. }
  { intros wa ms Hwa c Hc. simpl. rewrite state_after_sleep. by apply Hwa. }
  rewrite Hl. simpl app.
  (* the cleanup *)
  fold once. rewrite execute_merged.
  destruct fuel as [|[|fuel]]; [lia|lia|].
  rewrite attempt_loop_step. change (length (@nil StatsPromise)) with 0%nat.
  assert (below 0 (maxAttempts (merged this once)) = true) as -> by reflexivity.
  destruct (live_attempt_against this releaseLock resources
              [ArgNumber (db (settings this)); ArgString (randomBytes E (ticks w))]
              w1 Hnd Hne Hres) as (w2 & st & Ha & Hh2 & Ht2 & _).
  { intros c Hc. rewrite (Hsame c Hc). rewrite run_release, release_script_foreign; [done|].
    intros key Hkey. by apply Hother. }
  rewrite Ha. simpl vote. cbv iota.
  change (length ([] ++ [attempt_stats _])) with 1%nat.
  assert (below 1 (maxAttempts (merged this once)) = false) as -> by reflexivity.
  rewrite attempt_loop_step. change (length ([] ++ [attempt_stats _])) with 1%nat.
  assert (below 1 (maxAttempts (merged this once)) = false) as -> by reflexivity.
  exists sts, w2. simpl in Hlen. split_and!; [done|done| |by rewrite Hh2, Hh|].
  - intros c Hc. rewrite Ht2. unfold fan_out. rewrite state_after_fan by done.
    rewrite decide_True by done. rewrite (Hsame c Hc).
    rewrite run_release, release_script_foreign; [done|]. intros key Hkey. by apply Hother.
  - rewrite Ht2, calls_app. unfold fan_out. rewrite calls_fan_out, Hcalls, Hlen. simpl. lia.
Qed.

End LiveOperations.

Section LiveTheorems.
Context (this : Redlock).
Hypothesis Hnd : NoDup (clients this).
Hypothesis Hne : clients this <> [].


(** X15.  On live servers none of which holds any of the resources,
    [acquire] with a positive integer duration succeeds at its first attempt,
    and afterwards every server holds every resource with the lock's value
    and all its other keys as before. *)
Theorem X15_acquire_on_free_servers
    (fuel : nat) (resources : list string) (duration : number)
    (_settings : option Partial.t) (w : World) :
  Math_floor duration == duration -> 0 < duration ->
  may_attempt (merged this _settings) ->
  all_free this resources w ->
  exists L w',
    acquire E (S fuel) this resources duration _settings w
      = (Return (length (heap w)), w') /\
    heap w' = heap w ++ [L] /\
    Lock.resources L = resources /\
    Lock.value L = randomBytes E (ticks w) /\
    calls (trace w') = (calls (trace w) + length (clients this))%nat /\
    forall c, c ∈ clients this ->
      (forall key, key ∈ resources ->
         Redis.state_after (trace w') c !! (database this, key) = Some (Lock.value L)) /\
      (forall x, ~ (x.1 = database this /\ x.2 ∈ resources) ->
         Redis.state_after (trace w') c !! x = Redis.state_after (trace w) c !! x).
Proof.
  intros Hd Hpos Hmay Hfree.
  destruct (live_acquire_free this Hnd Hne fuel resources duration _settings w Hd Hpos Hmay Hfree)
    as (st & w' & Ha & _ & Ht & Hh & Hst).
  eexists _, w'. split; [exact Ha|]. split; [exact Hh|]. simpl.
  split; [done|]. split; [done|]. split.
  - rewrite Ht, calls_app. unfold fan_out. by rewrite calls_fan_out.
  - intros c Hc. rewrite (Hst c Hc). split.
    + intros key Hk. rewrite set_loop_lookup. by rewrite decide_True.
    + intros x Hx. rewrite set_loop_lookup. by rewrite decide_False.
Qed.

(** X16.  On live servers each of which holds, when [acquire] is called, one
    of the resources, and none of which holds one with the new random value,
    [acquire] with [retryCount = 0] throws [ExecutionError] with the
    statistics of its single attempt, after that attempt and one cleanup
    release ([2 * N] calls), creates no lock, and leaves the keys of every
    server exactly as they were. *)
Theorem X16_acquire_on_taken_servers
    (fuel : nat) (resources : list string) (duration : number)
    (_settings : option Partial.t) (w : World) :
  Math_floor duration == duration ->
  retryCount (merged this _settings) == 0 ->
  (2 <= fuel)%nat ->
  all_taken this resources w ->
  (forall c key, c ∈ clients this -> key ∈ resources ->
     Redis.state_after (trace w) c !! (database this, key)
     <> Some (randomBytes E (ticks w))) ->
  exists st w',
    acquire E fuel this resources duration _settings w
      = (Throw (ExecutionError msg_quorum [st]), w') /\
    same_keys this w w' /\
    heap w' = heap w /\
    calls (trace w') = (calls (trace w) + 2 * length (clients this))%nat.
Proof.
  intros Hd Hk Hfuel Htaken Hother.
  destruct (live_acquire_taken this Hnd Hne fuel resources duration _settings 0 w
              Hd Hk Hfuel Htaken Hother)
    as (sts & w' & Ha & Hlen & Hsame & Hh & Hcalls).
  destruct sts as [|st [|st' sts]]; try done.
  by exists st, w'.
Qed.



End LiveTheorems.

(** ** Extending and releasing on live servers *)



Lemma extend_script_foreign (st : gmap (Z * string) string) (KEYS : list string)
    (d : Arg) (v : string) (px : number) (key : string) :
  key ∈ KEYS -> st !! (Redis.DB_SELECT_SCRIPT d, key) <> Some v ->
  Redis.EXTEND_SCRIPT st KEYS [d; ArgString v; ArgNumber px] = (ReplyNumber 0, st).
Proof.
  intros Hk Hs. unfold Redis.EXTEND_SCRIPT.
  assert (existsb (fun key => negb (bool_decide (st !! (Redis.DB_SELECT_SCRIPT d, key) = Some v)))
            KEYS = true) as ->; [|done].
  apply existsb_exists. exists key. split; [by apply list_elem_of_In|].
  by apply negb_true_iff, bool_decide_eq_false.
Qed.

Lemma run_extend st k a : Redis.run extendLock st k a = Redis.EXTEND_SCRIPT st k a.
Proof. reflexivity. Qed.

(** Every client of [this] holds every resource of the lock under its value. *)
Section LiveHeld.
Context (this : Redlock).
Hypothesis Hnd : NoDup (clients this).
Hypothesis Hne : clients this <> [].


End LiveHeld.

Section LiveLost.
Context (this : Redlock).
Hypothesis Hnd : NoDup (clients this).
Hypothesis Hne : clients this <> [].

(** A lock none of whose keys any server holds under its value any more. *)
Lemma live_loop_lost (cmd : Script) (fuel l : nat) (L : Lock.t) (args : list Arg)
    (s : Settings) (kk : nat) (w0 w : World) :
  Lock.resources L <> [] ->
  (forall st, (forall key, key ∈ Lock.resources L ->
                 st !! (database this, key) <> Some (Lock.value L)) ->
     Redis.run cmd st (Lock.resources L) args = (ReplyNumber 0, st)) ->
  (forall c key, c ∈ clients this -> key ∈ Lock.resources L ->
     Redis.state_after (trace w0) c !! (database this, key) <> Some (Lock.value L)) ->
  retryCount s == of_nat kk ->
  (kk + 2 <= fuel)%nat ->
  same_keys this w0 w ->
  exists sts w',
    attempt_loop E fuel this s cmd (Lock.resources L) args [] w
      = (Throw (ExecutionError msg_quorum sts), w') /\
    length sts = (kk + 1)%nat /\
    same_keys this w0 w' /\
    heap w' = heap w /\
    calls (trace w') = (calls (trace w) + (kk + 1) * length (clients this))%nat.
Proof.
  intros Hres Hrun Hlost Hk Hfuel Hsame.
  destruct (loop_against_invariant this s cmd (Lock.resources L) args
              (fun w1 => same_keys this w0 w1) kk) with (fuel := fuel)
    (acc := @nil StatsPromise) (w := w) as (sts & w1 & Hl & Hlen & Hsame1 & Hh & Hcalls);
    [| |done|simpl; lia|simpl; lia|done|].
  - intros wa Hwa.
    destruct (live_attempt_against this cmd (Lock.resources L) args wa Hnd Hne Hres)
      as (w1 & st & Ha & Hh & Ht & _).
    { intros c Hc. rewrite (Hwa c Hc), Hrun; [done|]. intros key Hkey. by apply Hlost. }
    eexists _, w1. split; [exact Ha|]. split; [done|]. split; [|split; [done|]].
    + intros c Hc. rewrite Ht. unfold fan_out. rewrite state_after_fan by done.
      rewrite decide_True by done. rewrite (Hwa c Hc), Hrun; [done|].
      intros key Hkey. by apply Hlost.
    + rewrite Ht, calls_app. unfold fan_out. by rewrite calls_fan_out.
  - intros wa ms Hwa c Hc. simpl. rewrite state_after_sleep. by apply Hwa.
  - exists sts, w1. simpl in Hlen. by rewrite Hlen in Hcalls.
Qed.


(** X24.  A lost lock leaves the servers alone.  On live servers none of
    which holds a key of the lock under the lock's value any more, [extend]
    and [release] with [retryCount = kk] both throw [ExecutionError] after
    [kk + 1] attempts, and the keys of every server, whoever holds them now,
    are exactly as they were.  A failed [extend] leaves the lock as it is; a
    failed [release] has set its expiration to 0. *)
Theorem X24_lost_lock_leaves_the_servers_alone
    (fuel l : nat) (L : Lock.t) (duration : number) (_settings : option Partial.t)
    (kk : nat) (w : World) :
  heap w !! l = Some L ->
  Lock.resources L <> [] ->
  Math_floor duration == duration ->
  Date_now E (ticks w) <= Lock.expiration L ->
  retryCount (merged this _settings) == of_nat kk ->
  (kk + 2 <= fuel)%nat ->
  (forall c key, c ∈ clients this -> key ∈ Lock.resources L ->
     Redis.state_after (trace w) c !! (database this, key) <> Some (Lock.value L)) ->
  (exists sts w',
     extend E fuel this l duration _settings w
       = (Throw (ExecutionError msg_quorum sts), w') /\
     length sts = (kk + 1)%nat /\
     same_keys this w w' /\
     heap w' = heap w) /\
  (exists sts w',
     release E fuel this l _settings w
       = (Throw (ExecutionError msg_quorum sts), w') /\
     length sts = (kk + 1)%nat /\
     same_keys this w w' /\
     heap w' = <[l := Lock.set_expiration 0 L]> (heap w)).
Proof.
  intros HL Hres Hd Hexp Hk Hfuel Hlost. split.
  - rewrite (extend_integer _ _ _ _ _ _ _ L) by done.
    assert (lt (Lock.expiration L) (Date_now E (ticks w)) = false) as ->
      by (by apply lt_false).
    rewrite execute_merged.
    destruct (live_loop_lost extendLock fuel l L
                [ArgNumber (db (settings this)); ArgString (Lock.value L); ArgNumber duration]
                (merged this _settings) kk w
                (mkWorld (heap w) (trace w) (emitted w) (S (ticks w))))
      as (sts & w' & Hl & Hlen & Hsame & Hh & _); try done.
    { intros st Hst. destruct (Lock.resources L) as [|key keys] eqn:Hkeys; [done|].
      rewrite run_extend. apply (extend_script_foreign _ _ _ _ _ key); [set_solver|].
      apply Hst. set_solver. }
    rewrite Hl. by exists sts, w'.
  - rewrite (release_spec _ _ _ _ _ _ _ HL), execute_merged.
    destruct (live_loop_lost releaseLock fuel l L
                [ArgNumber (db (settings this)); ArgString (Lock.value L)]
                (merged this _settings) kk w
                (mkWorld (<[l := Lock.set_expiration 0 L]> (heap w)) (trace w) (emitted w)
                         (ticks w)))
      as (sts & w' & Hl & Hlen & Hsame & Hh & _); try done.
    { intros st Hst. rewrite run_release. by apply release_script_foreign. }
    by exists sts, w'.
Qed.

End LiveLost.

(** ** [using] on live servers *)


Lemma using_settled {T : Type} fuel (this : Redlock) resources duration
    (sor : SettingsOrRoutine T) (opt : option (Routine T)) firings late w o u w' :
  using_run E fuel this resources duration sor opt firings late w = (Return (o, u), w') ->
  Redlock_using E fuel this resources duration sor opt firings late w = (settled o, w').
Proof.
  intros Hrun. unfold Redlock_using, bind. rewrite Hrun. by destruct o.
Qed.

Section LiveUsing.
Context (this : Redlock) (resources : list string) (duration : number) (s : Settings).
Hypothesis Hnd : NoDup (clients this).
Hypothesis Hne : clients this <> [].
Hypothesis Hres : NoDup resources.
Hypothesis Hd : Math_floor duration == duration.
Hypothesis Hpos : 0 < duration.
Hypothesis Hmay : may_attempt s.
Hypothesis Hmay' : may_attempt (settings this).


Lemma using_extend_step (fuel n : nat) (u : Using.t) :
  Using.extend E fuel duration s (S n) u =
    try_catch
      (let* l := Lock_extend E fuel (RedlockUsingContext.lock (Using.context u)) duration in
       Using.queue E s
         (Using.mk (RedlockUsingContext.mk l (S (RedlockUsingContext.extensions (Using.context u))))
                   (Using.signal u) None true))
      (fun error =>
         let* l := deref (RedlockUsingContext.lock (Using.context u)) in
         let* now := sample (Date_now E) in
         if lt now (Lock.expiration l)
         then Using.extend E fuel duration s n (Using.mk (Using.context u) (Using.signal u) None true)
         else ret (Using.mk (Using.context u) (RedlockAbortSignal.mk true (Some error))
                            None true)).
Proof. reflexivity. Qed.








End LiveUsing.




End Live.

Lemma X15_acquire_on_free_servers_witness :
  exists L w',
    acquire Redis.env 1 triple ["a"; "b"]%string 1000 None empty_world = (Return 0%nat, w') /\
    heap w' = [L] /\
    calls (trace w') = 3%nat.
Proof.
  destruct (X15_acquire_on_free_servers Redis.env) with (this := triple) (fuel := 0%nat)
    (resources := ["a"; "b"]%string) (duration := 1000) (_settings := @None Partial.t)
    (w := empty_world) as (L & w' & Ha & Hh & _ & _ & Hc & _).
  - intros h c s k a. reflexivity.
  - simpl. repeat constructor; set_solver.
  - discriminate.
  - reflexivity.
  - reflexivity.
  - right. reflexivity.
  - intros c key _ _. apply lookup_empty.
  - exists L, w'. split; [exact Ha|]. split; [exact Hh|exact Hc].
Defined.

Lemma X16_acquire_on_taken_servers_witness :
  exists st w',
    acquire Redis.env 3 single ["a"]%string 1000 once
      (mkWorld [] [Call 0%nat acquireLock ["a"]%string
                     [ArgNumber 0; ArgString "other"; ArgNumber 5000]] [] 0)
    = (Throw (ExecutionError msg_quorum [st]), w') /\
    heap w' = [].
Proof.
  destruct (X16_acquire_on_taken_servers Redis.env) with (this := single) (fuel := 3%nat)
    (resources := ["a"]%string) (duration := 1000) (_settings := once)
    (w := mkWorld [] [Call 0%nat acquireLock ["a"]%string
                        [ArgNumber 0; ArgString "other"; ArgNumber 5000]] [] 0)
    as (st & w' & Ha & _ & Hh & _).
  - intros h c s k a. reflexivity.
  - simpl. repeat constructor; set_solver.
  - discriminate.
  - reflexivity.
  - reflexivity.
  - lia.
  - intros c Hc. exists "a"%string. split; [set_solver|].
    assert (c = 0%nat) as -> by (simpl in Hc; set_solver).
    vm_compute. by eexists.
  - intros c key Hc Hkey.
    assert (c = 0%nat) as -> by (simpl in Hc; set_solver).
    assert (key = "a"%string) as -> by set_solver.
    vm_compute. discriminate.
  - exists st, w'. split; [exact Ha|exact Hh].
Defined.



(** * The checks of [using] *)

(** X22.  [using] checks its arguments before it contacts any server, in
    this order: a duration that is not an integer, then a missing routine,
    then a duration less than 100 ms above [automaticExtensionThreshold] of
    the merged settings.  Past the checks it acquires with the merged
    settings, and when that throws, [using] throws the same error. *)
Theorem X22_using_checks_before_it_acquires
    {T : Type} (E : Env) (fuel : nat) (this : Redlock) (resources : list string)
    (duration : number) (settingsOrRoutine : SettingsOrRoutine T)
    (optionalRoutine : option (Routine T)) (firings : nat) (late : bool) (w : World) :
  let run := Redlock_using E fuel this resources duration settingsOrRoutine optionalRoutine
               firings late w in
  let s := using_settings this settingsOrRoutine in
  (~ Math_floor duration == duration -> run = (Throw (Error msg_duration), w)) /\
  (Math_floor duration == duration ->
   using_routine settingsOrRoutine optionalRoutine = None ->
   run = (Throw (Error msg_routine), w)) /\
  (Math_floor duration == duration ->
   using_routine settingsOrRoutine optionalRoutine <> None ->
   duration - 100 < automaticExtensionThreshold s ->
   run = (Throw (Error msg_threshold), w)) /\
  (Math_floor duration == duration ->
   using_routine settingsOrRoutine optionalRoutine <> None ->
   automaticExtensionThreshold s <= duration - 100 ->
   forall e w',
     acquire E fuel this resources duration (Some (whole s)) w = (Throw e, w') ->
     run = (Throw e, w')).
Proof.
  intros run s. subst run s. unfold Redlock_using, using_run, bind at 1.
  split; [|split; [|split]].
  - intros Hd. apply strict_ne_true in Hd. by rewrite Hd.
  - intros Hd Hr. apply strict_ne_false in Hd. by rewrite Hd, Hr.
  - intros Hd Hr Hth. apply strict_ne_false in Hd. rewrite Hd.
    destruct (using_routine _ _) as [routine|]; [|done].
    apply lt_true in Hth. by rewrite Hth.
  - intros Hd Hr Hth e w' Ha. apply strict_ne_false in Hd. rewrite Hd.
    destruct (using_routine _ _) as [routine|]; [|done].
    apply lt_false in Hth. rewrite Hth.
    unfold bind. by rewrite Ha.
Qed.

Lemma X22_using_checks_before_it_acquires_witness :
  Redlock_using all_fine 3 single ["a"]%string 599 (TheRoutine (fun _ _ => Fulfilled 7%nat))
    None 0 false empty_world
  = (Throw (Error msg_threshold), empty_world).
Proof.
  destruct (X22_using_checks_before_it_acquires all_fine 3 single ["a"]%string 599
              (TheRoutine (fun _ _ => Fulfilled 7%nat)) None 0 false empty_world)
    as (_ & _ & Hthreshold & _).
  apply Hthreshold.
  - reflexivity.
  - discriminate.
  - reflexivity.
Defined.





Lemma X24_lost_lock_leaves_the_servers_alone_witness :
  (exists sts w',
     extend Redis.env 3 single 0 1000 once
       (mkWorld [Lock.mk single ["a"]%string "v" [] 5000 None] [] [] 0)
     = (Throw (ExecutionError msg_quorum sts), w') /\ length sts = 1%nat) /\
  (exists sts w',
     release Redis.env 3 single 0 once
       (mkWorld [Lock.mk single ["a"]%string "v" [] 5000 None] [] [] 0)
     = (Throw (ExecutionError msg_quorum sts), w') /\ length sts = 1%nat).
Proof.
  destruct (X24_lost_lock_leaves_the_servers_alone Redis.env) with (this := single)
    (fuel := 3%nat) (l := 0%nat) (L := Lock.mk single ["a"]%string "v" [] 5000 None)
    (duration := 1000) (_settings := once) (kk := 0%nat)
    (w := mkWorld [Lock.mk single ["a"]%string "v" [] 5000 None] [] [] 0)
    as [(sts & w' & He & Hl & _) (sts2 & w2 & Hr & Hl2 & _)].
  - intros h c s k a. reflexivity.
  - simpl. repeat constructor; set_solver.
  - discriminate.
  - reflexivity.
  - discriminate.
  - reflexivity.
  - discriminate.
  - reflexivity.
  - lia.
  - intros c key _ _. unfold Redis.state_after. cbn [trace fold_left].
    rewrite lookup_empty. discriminate.
  - split; [exists sts, w'|exists sts2, w2]; (split; [assumption|assumption]).
Defined.

(** * [using] in any environment *)

Section UsingAnywhere.
Context (E : Env).

Lemma Lock_extend_cases (fuel l : nat) (duration : number) (L : Lock.t) (w : World)
    (o : Outcome nat) (w' : World) :
  heap w !! l = Some L ->
  Lock_extend E fuel l duration w = (o, w') ->
  match o with
  | Return l' =>
      l' = length (heap w) /\
      exists r,
        heap w' = <[l := Lock.set_expiration 0 L]> (heap w) ++
          [Lock.mk (Lock.redlock L) (Lock.resources L) (Lock.value L) (attempts r)
             (start r + duration - drift (Lock.redlock L) (Lock.settings L) duration)
             (Lock.settings L)]
  | _ => heap w' = heap w
  end.
Proof.
  intros HL. unfold Lock_extend, bind, deref. rewrite HL.
  destruct (Qeq_dec (Math_floor duration) duration) as [Hd|Hd].
  - rewrite (extend_integer _ _ _ _ _ _ _ L) by done.
    destruct (lt _ _); [by intros [= <- <-]|].
    pose proof (execute_frame E fuel (Lock.redlock L) extendLock (Lock.resources L)
                  [ArgNumber (db (settings (Lock.redlock L))); ArgString (Lock.value L);
                   ArgNumber duration] (Lock.settings L)
                  (mkWorld (heap w) (trace w) (emitted w) (S (ticks w)))) as [Hh _].
    destruct (_execute E fuel _ extendLock _ _ _ _) as [[r|e| | |] w1] eqn:He;
      simpl in Hh; intros [= <- <-]; try done.
    simpl. rewrite Hh. split; [done|]. by exists r.
  - rewrite extend_not_integer by done. by intros [= <- <-].
Qed.

Lemma acquire_returns (fuel : nat) (this : Redlock) (resources : list string)
    (duration : number) (_settings : option Partial.t) (w : World) (l : nat) (w' : World) :
  acquire E fuel this resources duration _settings w = (Return l, w') ->
  l = length (heap w) /\
  exists r,
    heap w' = heap w ++
      [Lock.mk this resources (randomBytes E (ticks w)) (attempts r)
         (start r + duration - drift this _settings duration) _settings].
Proof.
  destruct (Qeq_dec (Math_floor duration) duration) as [Hd|Hd].
  - rewrite acquire_integer by done.
    destruct (_execute E fuel this acquireLock _ _ _ _) as [[r|e| | |] w1] eqn:He;
      try done.
    + apply execute_returns in He as [Hh _]. simpl in Hh. intros [= <- <-]. simpl.
      rewrite Hh. split; [done|]. by exists r.
    + by destruct (_execute E fuel this releaseLock _ _ _ _) as [[| | | |] w2].
  - by rewrite acquire_not_integer.
Qed.

(** A release that returns has just sent its commands, and has set the
    expiration of the lock to 0. *)
Lemma Lock_release_returns (fuel l : nat) (L : Lock.t) (w : World) (r : ExecutionResult)
    (w' : World) :
  heap w !! l = Some L ->
  Lock_release E fuel l w = (Return r, w') ->
  heap w' = <[l := Lock.set_expiration 0 L]> (heap w) /\
  exists pre,
    trace w' = pre ++
      fan_out (Lock.redlock L) releaseLock (Lock.resources L)
        [ArgNumber (db (settings (Lock.redlock L))); ArgString (Lock.value L)].
Proof.
  intros HL. unfold Lock_release, bind, deref. rewrite HL.
  rewrite (release_spec _ _ _ _ _ _ _ HL). intros Hr.
  apply execute_returns in Hr as [Hh (wa & a & Ha & _)]. simpl in Hh. split; [done|].
  apply attempt_cases in Ha as (_ & Ht & _). by exists (trace wa).
Qed.

Section Closure.
Context (this : Redlock) (resources : list string) (v : string)
        (fuel : nat) (duration : number) (s : Settings).

(** What one call of the inner [extend()] can end in, for a context that
    holds a lock. *)
Lemma using_extend_cases (n : nat) :
  forall (u : Using.t) (w : World) (o : Outcome Using.t) (w' : World),
    holds this resources v s u w ->
    Using.extend E fuel duration s n u w = (o, w') ->
    match o with
    | Return u' =>
        holds this resources v s u' w' /\
        ((Using.signal u' = Using.signal u /\
          RedlockUsingContext.extensions (Using.context u')
          = S (RedlockUsingContext.extensions (Using.context u)) /\
          is_Some (Using.timeout u') /\
          Lock.expiration <$> heap w' !! RedlockUsingContext.lock (Using.context u) = Some 0)
         \/
         (Using.context u' = Using.context u /\
          Using.timeout u' = None /\
          exists e L,
            Using.signal u' = RedlockAbortSignal.mk true (Some e) /\
            heap w' !! RedlockUsingContext.lock (Using.context u) = Some L /\
            Lock.expiration L <= Date_now E (pred (ticks w'))))
    | Throw _ => False
    | _ => True
    end.
Proof.
  induction n as [|n IH]; intros u w o w' Hholds.
  - simpl. by intros [= <- <-].
  - destruct Hholds as (L & HL & Hthis & Hres & Hv & Hs).
    rewrite using_extend_step. unfold try_catch, bind at 1.
    destruct (Lock_extend E fuel _ duration w) as [oe w1] eqn:He.
    pose proof (Lock_extend_cases _ _ _ _ _ _ _ HL He) as Hcase.
    destruct oe as [l'|e| | |]; try by intros [= <- <-].
    + destruct Hcase as [-> [r Hh]].
      pose proof (lookup_lt_Some _ _ _ HL) as Hlt.
      unfold Using.queue, bind, deref, sample. cbn [Using.context RedlockUsingContext.lock].
      rewrite Hh.
      rewrite <- (length_insert (heap w) (RedlockUsingContext.lock (Using.context u))
                    (Lock.set_expiration 0 L)) at 1.
      rewrite list_lookup_middle by done. unfold ret. intros [= <- <-]. simpl. split.
      * eexists. cbn [Using.context RedlockUsingContext.lock heap]. split.
        { rewrite Hh.
          rewrite <- (length_insert (heap w) (RedlockUsingContext.lock (Using.context u))
                        (Lock.set_expiration 0 L)).
          by rewrite list_lookup_middle. }
        done.
      * left. split; [done|]. split; [done|]. split; [done|].
        rewrite Hh, lookup_app_l by (by rewrite length_insert).
        by rewrite list_lookup_insert_eq.
    + unfold bind at 1, deref at 1. rewrite Hcase, HL.
      unfold bind at 1, sample at 1.
      destruct (lt _ _) eqn:Hlt.
      * intros Hrec. cbn [heap trace emitted ticks] in Hrec.
        apply IH in Hrec; [|exists L; simpl; by rewrite Hcase].
        by destruct o as [u'| | | |].
      * unfold ret. intros [= <- <-]. simpl. split.
        { exists L. by rewrite Hcase. }
        right. split; [done|]. split; [done|]. exists e, L. split; [done|].
        rewrite Hcase. split; [done|]. by apply lt_false in Hlt.
Qed.

Lemma using_fires_cases (k : nat) :
  forall (u : Using.t) (w : World) (u' : Using.t) (w' : World),
    holds this resources v s u w ->
    Using.fires E fuel duration s k u w = (Return u', w') ->
    holds this resources v s u' w' /\
    (RedlockUsingContext.extensions (Using.context u')
     <= RedlockUsingContext.extensions (Using.context u) + k)%nat.
Proof.
  induction k as [|k IH]; intros u w u' w' Hholds.
  - intros [= <- <-]. split; [done|lia].
  - cbn [Using.fires]. unfold bind at 1, Using.fire.
    destruct (Using.timeout u).
    + destruct (Using.extend E fuel duration s fuel u w) as [o w1] eqn:He.
      pose proof (using_extend_cases fuel u w o w1 Hholds He) as Hcase.
      destruct o as [u1| | | |]; try done.
      destruct Hcase as [Hholds1 Hcase]. intros Hf.
      apply IH in Hf as [Hholds' Hle]; [|done]. split; [done|].
      destruct Hcase as [(_ & Hext & _)|(Hctx & _)]; [|rewrite Hctx in Hle]; lia.
    + intros Hf. apply IH in Hf as [Hholds' Hle]; [|done]. split; [done|lia].
Qed.

Lemma using_finally_cases (late : bool) (u : Using.t) (w : World) (u' : Using.t)
    (w' : World) :
  holds this resources v s u w ->
  Using.finally E fuel duration s late u w = (Return u', w') ->
  (RedlockUsingContext.extensions (Using.context u')
   <= S (RedlockUsingContext.extensions (Using.context u)))%nat /\
  (exists L,
     heap w' !! RedlockUsingContext.lock (Using.context u') = Some L /\
     Lock.expiration L = 0 /\
     Lock.redlock L = this /\ Lock.resources L = resources /\ Lock.value L = v) /\
  exists pre,
    trace w' = pre ++
      fan_out this releaseLock resources [ArgNumber (db (settings this)); ArgString v].
Proof.
  intros Hholds. unfold Using.finally, bind at 1.
  assert (forall u1 w1,
            holds this resources v s u1 w1 ->
            (RedlockUsingContext.extensions (Using.context u1)
             <= S (RedlockUsingContext.extensions (Using.context u)))%nat ->
            (let* _ := Lock_release E fuel (RedlockUsingContext.lock (Using.context u1)) in
             ret u1) w1 = (Return u', w') ->
            (RedlockUsingContext.extensions (Using.context u')
             <= S (RedlockUsingContext.extensions (Using.context u)))%nat /\
            (exists L,
               heap w' !! RedlockUsingContext.lock (Using.context u') = Some L /\
               Lock.expiration L = 0 /\
               Lock.redlock L = this /\ Lock.resources L = resources /\ Lock.value L = v) /\
            exists pre,
              trace w' = pre ++
                fan_out this releaseLock resources
                  [ArgNumber (db (settings this)); ArgString v]) as Hrelease.
  { intros u1 w1 (L & HL & Hthis & Hres & Hv & Hs) Hle. unfold bind.
    destruct (Lock_release E fuel _ w1) as [[r| | | |] w2] eqn:Hr; try done.
    intros [= <- <-].
    destruct (Lock_release_returns _ _ _ _ _ _ HL Hr) as [Hh Hpre].
    rewrite Hthis, Hres, Hv in Hpre. split; [done|]. split; [|done].
    exists (Lock.set_expiration 0 L). rewrite Hh. split.
    { apply list_lookup_insert_eq. by apply lookup_lt_Some in HL. }
    by destruct L. }
  destruct (Using.timeout u) as [d|].
  - destruct late.
    + unfold try_catch.
      destruct (Using.extend E fuel duration s fuel u w) as [o w1] eqn:He.
      pose proof (using_extend_cases fuel u w o w1 Hholds He) as Hcase.
      destruct o as [u1| | | |]; try done.
      destruct Hcase as [Hholds1 Hcase]. apply Hrelease; [done|].
      destruct Hcase as [(_ & Hext & _)|(Hctx & _)]; [|rewrite Hctx]; lia.
    + apply Hrelease; [|simpl; lia]. exact Hholds.
  - apply Hrelease; [done|lia].
Qed.

End Closure.
End UsingAnywhere.

(** X25.  In any environment, a call of the inner [extend()] of [using] that
    ends has either extended the lock (one more extension, the old lock
    invalidated, a timer pending again, the signal untouched) or aborted the
    signal with an error; and it aborts only after the lock has expired by
    the local clock: the last clock reading is not before the expiration of
    the lock, which is still the lock of the context. *)
Theorem X25_extension_aborts_only_after_expiry
    (E : Env) (this : Redlock) (resources : list string) (v : string) (fuel n : nat)
    (duration : number) (s : Settings) (u u' : Using.t) (w w' : World) :
  holds this resources v s u w ->
  Using.extend E fuel duration s n u w = (Return u', w') ->
  holds this resources v s u' w' /\
  ((Using.signal u' = Using.signal u /\
    RedlockUsingContext.extensions (Using.context u')
    = S (RedlockUsingContext.extensions (Using.context u)) /\
    is_Some (Using.timeout u') /\
    Lock.expiration <$> heap w' !! RedlockUsingContext.lock (Using.context u) = Some 0)
   \/
   (Using.context u' = Using.context u /\
    Using.timeout u' = None /\
    exists e L,
      Using.signal u' = RedlockAbortSignal.mk true (Some e) /\
      heap w' !! RedlockUsingContext.lock (Using.context u) = Some L /\
      Lock.expiration L <= Date_now E (pred (ticks w')))).
Proof.
  intros Hholds He.
  exact (using_extend_cases E this resources v fuel duration s n u w _ w' Hholds He).
Qed.

(** X26.  In any environment, whenever [using] is over with what the routine
    settled with, the last thing it did is a release that succeeded: the
    trace ends with one [releaseLock] per client for the resources and the
    value drawn at the start, the lock of the context has expiration 0, and
    at most [firings + 1] extensions were made. *)
Theorem X26_using_is_over_only_after_a_release
    {T : Type} (E : Env) (fuel : nat) (this : Redlock) (resources : list string)
    (duration : number) (settingsOrRoutine : SettingsOrRoutine T)
    (optionalRoutine : option (Routine T)) (firings : nat) (late : bool)
    (w : World) (o : Settlement T) (u : Using.t) (w' : World) :
  using_run E fuel this resources duration settingsOrRoutine optionalRoutine firings late w
    = (Return (o, u), w') ->
  Redlock_using E fuel this resources duration settingsOrRoutine optionalRoutine firings late w
    = (settled o, w') /\
  o <> Unsettled /\
  (exists L,
     heap w' !! RedlockUsingContext.lock (Using.context u) = Some L /\
     Lock.expiration L = 0 /\
     Lock.redlock L = this /\ Lock.resources L = resources /\
     Lock.value L = randomBytes E (ticks w)) /\
  (exists pre,
     trace w' = pre ++
       fan_out this releaseLock resources
         [ArgNumber (db (settings this)); ArgString (randomBytes E (ticks w))]) /\
  (RedlockUsingContext.extensions (Using.context u) <= firings + 1)%nat.
Proof.
  intros Hrun. split; [exact (using_settled _ _ _ _ _ _ _ _ _ _ _ _ _ Hrun)|].
  revert Hrun. unfold using_run.
  destruct (strict_ne _ _); [done|].
  destruct (using_routine _ _) as [routine|]; [|done].
  destruct (lt _ _); [done|].
  set (s := using_settings this settingsOrRoutine).
  unfold bind at 1.
  destruct (acquire E fuel this resources duration (Some (whole s)) w) as [[l| | | |] w1] eqn:Ha;
    try done.
  apply acquire_returns in Ha as [-> [r Hh]].
  unfold bind at 1, Using.queue, bind at 1, deref at 1.
  cbn [Using.context RedlockUsingContext.lock]. rewrite Hh, list_lookup_middle by done.
  unfold bind at 1, sample at 1, ret at 1.
  cbn [Using.context Using.signal Using.extension Lock.expiration heap trace emitted ticks].
  unfold bind at 1.
  match goal with |- context [Using.fires E fuel duration s firings ?u0 ?w0] =>
    assert (holds this resources (randomBytes E (ticks w)) s u0 w0) as Hholds;
    [|destruct (Using.fires E fuel duration s firings u0 w0) as [[u1| | | |] w2] eqn:Hf;
      try done] end.
  { eexists. cbn [Using.context RedlockUsingContext.lock heap]. split.
    - rewrite Hh. by apply list_lookup_middle.
    - done. }
  apply (using_fires_cases E this resources _ fuel duration s firings _ _ _ _ Hholds) in Hf
    as [Hholds1 Hle]. simpl in Hle.
  destruct (routine (Using.signal u1) (Using.context u1)) as [value|reason|] eqn:Ho; [| |done].
  - unfold bind at 1.
    destruct (Using.finally E fuel duration s late u1 w2) as [[u2| | | |] w3] eqn:Hfin; try done.
    intros [= <- <- <-].
    apply (using_finally_cases E this resources _ fuel duration s late _ _ _ _ Hholds1) in Hfin
      as (Hle2 & HL & Hpre).
    split; [done|]. split; [done|]. split; [done|]. lia.
  - unfold bind at 1.
    destruct (Using.finally E fuel duration s late u1 w2) as [[u2| | | |] w3] eqn:Hfin; try done.
    intros [= <- <- <-].
    apply (using_finally_cases E this resources _ fuel duration s late _ _ _ _ Hholds1) in Hfin
      as (Hle2 & HL & Hpre).
    split; [done|]. split; [done|]. split; [done|]. lia.
Qed.

Lemma X25_extension_aborts_only_after_expiry_witness :
  holds single ["a"]%string "v" defaultSettings
    (Using.mk (RedlockUsingContext.mk 0 0)
       (RedlockAbortSignal.mk true (Some (ExecutionError msg_expired []))) None true)
    (mkWorld [Lock.mk single ["a"]%string "v" [] 0 (Some (whole defaultSettings))] [] [] 2).
Proof.
  apply (X25_extension_aborts_only_after_expiry Redis.env single ["a"]%string "v" 1 1 1000
           defaultSettings
           (Using.mk (RedlockUsingContext.mk 0 0) (RedlockAbortSignal.mk false None)
              (Some 0) false)
           (Using.mk (RedlockUsingContext.mk 0 0)
              (RedlockAbortSignal.mk true (Some (ExecutionError msg_expired []))) None true)
           (mkWorld [Lock.mk single ["a"]%string "v" [] 0 (Some (whole defaultSettings))]
              [] [] 0)
           (mkWorld [Lock.mk single ["a"]%string "v" [] 0 (Some (whole defaultSettings))]
              [] [] 2)).
  - eexists. simpl. split; [reflexivity|]. done.
  - vm_compute. reflexivity.
Defined.

Lemma X26_using_is_over_only_after_a_release_witness :
  exists pre,
    trace (snd (using_run all_fine 1 single ["a"]%string 1000
                  (TheRoutine (fun _ _ => Fulfilled 7%nat)) None 1 false empty_world))
    = pre ++ [Call 0%nat releaseLock ["a"]%string [ArgNumber 0; ArgString "lock_value"]].
Proof.
  destruct (using_run all_fine 1 single ["a"]%string 1000
              (TheRoutine (fun _ _ => Fulfilled 7%nat)) None 1 false empty_world)
    as [[[o u]| | | |] w'] eqn:Hrun; try (vm_compute in Hrun; discriminate).
  destruct (X26_using_is_over_only_after_a_release all_fine 1 single ["a"]%string 1000
              (TheRoutine (fun _ _ => Fulfilled 7%nat)) None 1 false empty_world o u w' Hrun)
    as (_ & _ & _ & Hpre & _).
  exact Hpre.
Defined.

(** * Keys held under another value *)

Lemma run_keeps_other (script : Script) (st : gmap (Z * string) string)
    (KEYS : list string) (d : Arg) (v : string) (rest : list Arg)
    (x : Z * string) (held : string) :
  st !! x = Some held -> held <> v ->
  (Redis.run script st KEYS (d :: ArgString v :: rest)).2 !! x = Some held.
Proof.
  intros Hx Hne. destruct script; simpl.
  - unfold Redis.ACQUIRE_SCRIPT. destruct rest as [|[px|] [|]]; try done.
    destruct (existsb _ KEYS) eqn:Hex; [done|].
    unfold Redis.set_each. destruct (_ || _); [|done]. simpl.
    rewrite set_loop_lookup. case_decide as Hin; [|done].
    destruct x as [xd xk], Hin as [Hd Hk]. simpl in *. subst xd.
    apply not_true_iff_false in Hex. destruct Hex. apply existsb_exists.
    exists xk. split; [by apply list_elem_of_In|]. apply bool_decide_eq_true. by eexists.
  - unfold Redis.EXTEND_SCRIPT. destruct rest as [|[px|] [|]]; try done.
    destruct (existsb _ KEYS) eqn:Hex; [done|].
    unfold Redis.set_each. destruct (_ || _); [|done]. simpl.
    rewrite set_loop_lookup. case_decide as Hin; [|done].
    destruct x as [xd xk], Hin as [Hd Hk]. simpl in *. subst xd.
    apply not_true_iff_false in Hex. destruct Hex. apply existsb_exists.
    exists xk. split; [by apply list_elem_of_In|].
    apply negb_true_iff, bool_decide_eq_false. rewrite Hx. by intros [= ->].
  - unfold Redis.RELEASE_SCRIPT. destruct rest; [|done].
    pose proof (release_loop_lookup (Redis.DB_SELECT_SCRIPT d) v KEYS 0 st x) as Hl.
    destruct (fold_left _ KEYS (O, st)) as [count st']. simpl in *.
    rewrite Hl, decide_False; [done|]. rewrite Hx. by intros [_ [= ->]].
Qed.

Lemma state_after_keeps_other (v : string) (new h : list Event) (c : Client)
    (x : Z * string) (held : string) :
  Forall (carries v) new ->
  Redis.state_after h c !! x = Some held -> held <> v ->
  Redis.state_after (h ++ new) c !! x = Some held.
Proof.
  intros Hnew Hx Hne. revert h Hx.
  induction Hnew as [|e new He _ IH]; intros h Hx.
  - by rewrite app_nil_r.
  - rewrite (assoc_L _ h [e] new : h ++ e :: new = (h ++ [e]) ++ new). apply IH.
    rewrite state_after_app. simpl. destruct e as [c' script keys args|ms]; [|done].
    case_decide; [|done]. simpl in He.
    destruct args as [|d [|[n|v'] rest]]; try done. subst v'.
    by apply run_keeps_other.
Qed.

Lemma issued_carries (this : Redlock) (cmd : Script) (k : list string) (d : Arg) (v : string)
    (rest : list Arg) (new : list Event) :
  Forall (issued this cmd k (d :: ArgString v :: rest)) new -> Forall (carries v) new.
Proof.
  intros Hnew. eapply Forall_impl; [exact Hnew|].
  intros [c s k' a|ms]; [|done]. by intros (_ & _ & _ & ->).
Qed.

Lemma execute_keeps_other (E : Env) (fuel : nat) (this : Redlock) (cmd : Script)
    (k : list string) (d : Arg) (v : string) (rest : list Arg) (_settings : option Partial.t)
    (w : World) (c : Client) (x : Z * string) (held : string) :
  Redis.state_after (trace w) c !! x = Some held -> held <> v ->
  Redis.state_after
    (trace (snd (_execute E fuel this cmd k (d :: ArgString v :: rest) _settings w))) c !! x
  = Some held.
Proof.
  intros Hx Hne.
  destruct (execute_frame E fuel this cmd k (d :: ArgString v :: rest) _settings w)
    as [_ (new & -> & Hnew)].
  apply (state_after_keeps_other v); [|done|done]. by apply issued_carries in Hnew.
Qed.

(** X27.  Whatever the servers answer and however the operation ends, the
    commands of [acquire], [extend] and [release] never change a key that a
    model server holds under another value than the lock's: no operation
    overwrites, extends or deletes a key of another holder. *)
Theorem X27_operations_leave_other_holders_alone
    (E : Env) (fuel : nat) (this : Redlock) (w : World) (c : Client) (x : Z * string)
    (held : string) :
  Redis.state_after (trace w) c !! x = Some held ->
  (forall resources duration _settings,
     held <> randomBytes E (ticks w) ->
     Redis.state_after
       (trace (snd (acquire E fuel this resources duration _settings w))) c !! x
     = Some held) /\
  (forall lock L duration _settings,
     heap w !! lock = Some L ->
     held <> Lock.value L ->
     Redis.state_after
       (trace (snd (extend E fuel this lock duration _settings w))) c !! x = Some held /\
     Redis.state_after
       (trace (snd (release E fuel this lock _settings w))) c !! x = Some held).
Proof.
  intros Hx. split.
  - intros resources duration _settings Hne.
    destruct (Qeq_dec (Math_floor duration) duration) as [Hd|Hd];
      [|by rewrite acquire_not_integer].
    rewrite acquire_integer by done.
    pose proof (execute_keeps_other E fuel this acquireLock resources
                  (ArgNumber (db (settings this))) (randomBytes E (ticks w))
                  [ArgNumber duration] _settings
                  (mkWorld (heap w) (trace w) (emitted w) (S (ticks w))) c x held Hx Hne)
      as Hacq.
    destruct (_execute E fuel this acquireLock _ _ _ _) as [[r|e| | |] w1]; try done.
    simpl in Hacq.
    pose proof (execute_keeps_other E fuel this releaseLock resources
                  (ArgNumber (db (settings this))) (randomBytes E (ticks w)) []
                  (Some (Partial.mk None (Some 0) None None None None)) w1 c x held Hacq Hne)
      as Hrel.
    by destruct (_execute E fuel this releaseLock _ _ _ _) as [[| | | |] w2].
  - intros lock L duration _settings HL Hne. split.
    + destruct (Qeq_dec (Math_floor duration) duration) as [Hd|Hd];
        [|by rewrite extend_not_integer].
      rewrite (extend_integer _ _ _ _ _ _ _ L) by done.
      destruct (lt _ _); [done|].
      pose proof (execute_keeps_other E fuel this extendLock (Lock.resources L)
                    (ArgNumber (db (settings this))) (Lock.value L)
                    [ArgNumber duration] _settings
                    (mkWorld (heap w) (trace w) (emitted w) (S (ticks w))) c x held Hx Hne)
        as Hext.
      by destruct (_execute E fuel this extendLock _ _ _ _) as [[r|e| | |] w1].
    + rewrite (release_spec _ _ _ _ _ _ _ HL).
      by apply (execute_keeps_other E fuel this releaseLock (Lock.resources L)
                  (ArgNumber (db (settings this))) (Lock.value L) [] _settings).
Qed.

Lemma X27_operations_leave_other_holders_alone_witness :
  Redis.state_after
    (trace (snd (acquire all_fine 12 single ["a"]%string 1000 None
                   (mkWorld [] [Call 0%nat acquireLock ["a"]%string
                                  [ArgNumber 0; ArgString "other"; ArgNumber 1000]] [] 0))))
    0%nat !! (0%Z, "a"%string)
  = Some "other"%string.
Proof.
  destruct (X27_operations_leave_other_holders_alone all_fine 12 single
              (mkWorld [] [Call 0%nat acquireLock ["a"]%string
                             [ArgNumber 0; ArgString "other"; ArgNumber 1000]] [] 0)
              0%nat (0%Z, "a"%string) "other"%string) as [Hacquire _].
  - reflexivity.
  - apply Hacquire. discriminate.
Defined.
